(** * Geohash proximity search: codec, neighbours, precision and the
      search service, embedded from [geohash.utils.ts] and
      [geohash.service.ts].

    Numbers.  The codec only halves the globe intervals and compares
    coordinates against the midpoints, so finite numbers are modelled as
    rationals [Q]: every finite double is a rational, and up to 18
    characters (45 halvings of the longitude interval), the longest hash
    the source asks for, the interval endpoints, their sums and their
    midpoints are doubles, so no operation of the codec rounds.  [NaN] is
    kept as a separate case where the source can produce or receive it;
    infinities are modelled only for the one product the search rounds.
    The decimal literals of the sources denote the doubles nearest to them,
    and [radius * 1.01] is rounded to the nearest double: both go through
    [nearest_double].  The trigonometric [distance] of [geohash.utils.ts]
    calls [Math.sin], [Math.cos], [Math.atan2], [Math.sqrt] and [Math.pow],
    whose doubles the language leaves to the implementation: it is not
    embedded, and the search is modelled for an arbitrary distance
    function.

    Strings are sequences of code units below 256 ([ascii]). *)

From Stdlib Require Import ZArith QArith Qabs List String Ascii Bool Lia Psatz.
From Stdlib Require Import Permutation Sorted.
Import ListNotations.

(** ** A small fragment of the host language *)

Module JS.

(** Exceptions a call can raise. *)
Inductive exn : Type :=
| TypeError (message : string)
| Error (message : string).

(** The outcome of evaluating a call: it returns or it throws. *)
Inductive completion (A : Type) : Type :=
| Normal (a : A)
| Throw (e : exn).

Arguments Normal {A} a.
Arguments Throw {A} e.

Definition ret {A : Type} (a : A) : completion A := Normal a.

Definition bind {A B : Type} (c : completion A) (k : A -> completion B)
  : completion B :=
  match c with
  | Normal a => k a
  | Throw e => Throw e
  end.

Declare Scope js_scope.
Delimit Scope js_scope with js.
Notation "x <- c ;; k" := (bind c (fun x => k))
  (at level 61, c at next level, right associativity) : js_scope.
Notation "' p <- c ;; k" := (bind c (fun x => match x with p => k end))
  (at level 61, p pattern, c at next level, right associativity) : js_scope.

(** Numbers: a finite value or NaN. *)
Inductive number : Type :=
| NaN
| Num (q : Q).

(** Arithmetic on finite numbers.  Results are kept in lowest terms, so
    that equal numbers are equal terms. *)
Definition add (x y : Q) : Q := Qred (x + y).
Definition sub (x y : Q) : Q := Qred (x - y).
Definition mul (x y : Q) : Q := Qred (x * y).
Definition div (x y : Q) : Q := Qred (x / y).

(** *** Double precision

    The finite doubles are the numbers [m * 2^u] with [|m| <= 2^53] and
    [u >= -1074], below [2^1024] in magnitude.  A decimal literal and the
    result of an arithmetic operation are the double nearest to the exact
    value, the one with the even [m] of two equally near. *)

(** The largest [e] with [2^e <= n / d]. *)
Definition floor_log2 (n d : positive) : Z :=
  let e0 := (Z.log2 (Zpos n) - Z.log2 (Zpos d))%Z in
  if (0 <=? e0)%Z then
    if (Zpos d * 2 ^ e0 <=? Zpos n)%Z then e0 else (e0 - 1)%Z
  else
    if (Zpos d <=? Zpos n * 2 ^ (- e0))%Z then e0 else (e0 - 1)%Z.

(** The integer nearest to [n / d], the even one of two equally near. *)
Definition round_half_even (n d : Z) : Z :=
  let q := (n / d)%Z in
  let r := (n mod d)%Z in
  if (2 * r <? d)%Z then q
  else if (d <? 2 * r)%Z then (q + 1)%Z
  else if Z.even q then q else (q + 1)%Z.

(** The multiple [m * 2^u] nearest to [n / d], where [2^u] is the distance
    between the doubles around [n / d]. *)
Definition nearest_magnitude (n d : positive) : Q :=
  let u := Z.max (floor_log2 n d - 52) (-1074) in
  if (0 <=? u)%Z then
    inject_Z (round_half_even (Zpos n) (Zpos d * 2 ^ u) * 2 ^ u)
  else
    Qred (Qmake (round_half_even (Zpos n * 2 ^ (- u)) (Zpos d))
            (Z.to_pos (2 ^ (- u)))).

(** The double nearest to [q], for [q] below the overflow threshold (the
    result reaches [2^1024] above it). *)
Definition nearest_double (q : Q) : Q :=
  let q' := Qred q in
  match Qnum q' with
  | Z0 => 0
  | Zpos n => nearest_magnitude n (Qden q')
  | Zneg n => - nearest_magnitude n (Qden q')
  end.

(** The result of an arithmetic operation: a finite double, or an
    infinity on overflow. *)
Inductive rounded : Type :=
| Finite (q : Q)
| Infinity (negative : bool).

Definition round_double (q : Q) : rounded :=
  let r := nearest_double q in
  if Qle_bool (inject_Z (2 ^ 1024)) r then Infinity false
  else if Qle_bool r (- inject_Z (2 ^ 1024)) then Infinity true
  else Finite r.

(** [x > y] for a number against a finite bound; any comparison with NaN is
    false. *)
Definition Qgt_bool (x y : Q) : bool := negb (Qle_bool x y).

Definition gt (x : number) (y : Q) : bool :=
  match x with
  | NaN => false
  | Num q => Qgt_bool q y
  end.

(** [x <= y] for a number against the result of an operation; false on
    NaN. *)
Definition le_rounded (x : number) (y : rounded) : bool :=
  match x, y with
  | NaN, _ => false
  | Num q, Finite b => Qle_bool q b
  | Num _, Infinity negative => negb negative
  end.

(** Values.  An object is a plain object, with the reference that strict
    equality compares and its own properties; it inherits the properties
    of [Object.prototype], which is a value of its own, and those are
    built-in functions, named here by the property that holds them. *)
#[warnings="-register-all"]
Inductive value : Type :=
| VUndefined
| VNull
| VBoolean (b : bool)
| VNumber (n : number)
| VString (s : string)
| VObject (ref : nat) (props : list (string * value))
| VFunction (name : string)
| VObjectPrototype.

(** Own property [k] of a property list, [undefined] when absent. *)
Fixpoint lookup (k : string) (props : list (string * value)) : value :=
  match props with
  | [] => VUndefined
  | (k', v) :: rest => if String.eqb k' k then v else lookup k rest
  end.

(** [props[k] = v]: overwrite in place, or add at the end. *)
Fixpoint assign (props : list (string * value)) (k : string) (v : value)
  : list (string * value) :=
  match props with
  | [] => [(k, v)]
  | (k', v') :: rest =>
      if String.eqb k' k then (k', v) :: rest else (k', v') :: assign rest k v
  end.

(** [{...a, ...b}] on property lists. *)
Definition spread (a b : list (string * value)) : list (string * value) :=
  fold_left (fun acc kv => assign acc (fst kv) (snd kv)) b a.

(** The property list has the own property [k]. *)
Definition hasOwn (k : string) (props : list (string * value)) : bool :=
  existsb (fun kv => String.eqb (fst kv) k) props.

(** The function-valued properties of [Object.prototype]. *)
Definition Object_prototype_functions : list string :=
  ["constructor"; "__defineGetter__"; "__defineSetter__"; "hasOwnProperty";
   "__lookupGetter__"; "__lookupSetter__"; "isPrototypeOf";
   "propertyIsEnumerable"; "toString"; "valueOf"; "toLocaleString"]%string.

(** The property [k] found on [Object.prototype]: one of its functions, or
    the accessor [__proto__], which gives the prototype of the receiver:
    [Object.prototype] for a plain object, [null] for [Object.prototype]
    itself. *)
Definition Object_prototype_get (receiver_prototype : value) (k : string)
  : value :=
  if String.eqb k "__proto__" then receiver_prototype
  else if existsb (String.eqb k) Object_prototype_functions then VFunction k
  else VUndefined.

(** [v[k]] / [v.k]: a TypeError on [undefined] and [null]; on a plain
    object the own property, and without one the property inherited from
    [Object.prototype]; [undefined] on the other primitives and on
    functions (the sources read only [geopoint], [latitude], [longitude]
    and [id] there, which are not properties of the primitive wrappers or
    of the built-in functions). *)
Definition get (v : value) (k : string) : completion value :=
  match v with
  | VUndefined =>
      Throw (TypeError ("Cannot read properties of undefined (reading '" ++ k ++ "')"))
  | VNull =>
      Throw (TypeError ("Cannot read properties of null (reading '" ++ k ++ "')"))
  | VObject _ props =>
      Normal (if hasOwn k props then lookup k props
              else Object_prototype_get VObjectPrototype k)
  | VObjectPrototype => Normal (Object_prototype_get VNull k)
  | _ => Normal VUndefined
  end.

(** [!v] *)
Definition falsy (v : value) : bool :=
  match v with
  | VUndefined | VNull => true
  | VBoolean b => negb b
  | VNumber NaN => true
  | VNumber (Num q) => Qeq_bool q 0
  | VString s => String.eqb s ""
  | VObject _ _ | VFunction _ | VObjectPrototype => false
  end.

(** [typeof v === "object"] *)
Definition typeof_object (v : value) : bool :=
  match v with
  | VNull | VObject _ _ | VObjectPrototype => true
  | _ => false
  end.

(** [a === b] *)
Definition strict_equals (a b : value) : bool :=
  match a, b with
  | VUndefined, VUndefined => true
  | VNull, VNull => true
  | VBoolean x, VBoolean y => Bool.eqb x y
  | VNumber (Num x), VNumber (Num y) => Qeq_bool x y
  | VString x, VString y => String.eqb x y
  | VObject r _, VObject r' _ => Nat.eqb r r'
  | VFunction f, VFunction f' => String.eqb f f'
  | VObjectPrototype, VObjectPrototype => true
  | _, _ => false
  end.

(** ToInt32, and the 32-bit operators built on it. *)
Definition ToInt32 (z : Z) : Z := ((z + 2 ^ 31) mod 2 ^ 32 - 2 ^ 31)%Z.

(** ToInt32 of a possibly [undefined] number: [undefined] converts to NaN,
    and NaN to 0. *)
Definition ToInt32_opt (v : option Z) : Z :=
  match v with
  | Some z => ToInt32 z
  | None => 0%Z
  end.

(** [x << count] *)
Definition shl (x count : Z) : Z :=
  ToInt32 (Z.shiftl (ToInt32 x) (Z.land count 31)).

(** [x >> count] on an already converted left operand. *)
Definition sar (x count : Z) : Z := Z.shiftr x (Z.land count 31).

(** [x & y] on already converted operands. *)
Definition bitand (x y : Z) : Z := ToInt32 (Z.land x y).

(** [c.toLowerCase()] on one code unit below 256: A-Z, and the Latin-1
    capitals U+00C0..U+00DE except the multiplication sign U+00D7. *)
Definition toLowerCase (c : ascii) : ascii :=
  let n := nat_of_ascii c in
  if ((65 <=? n) && (n <=? 90))%nat
     || ((192 <=? n) && (n <=? 222) && negb (n =? 215))%nat
  then ascii_of_nat (n + 32)
  else c.

(** [s.toLowerCase()] *)
Fixpoint toLowerCase_string (s : string) : string :=
  match s with
  | EmptyString => EmptyString
  | String c rest => String (toLowerCase c) (toLowerCase_string rest)
  end.

(** [s.split(sep)] for a one-character separator. *)
Fixpoint split (sep : ascii) (s : string) : list string :=
  match s with
  | EmptyString => [EmptyString]
  | String c rest =>
      if Ascii.eqb c sep then EmptyString :: split sep rest
      else match split sep rest with
           | [] => [String c EmptyString]
           | hd :: tl => String c hd :: tl
           end
  end.

(** [s.includes(c)] for a one-character needle. *)
Fixpoint includes (s : string) (c : ascii) : bool :=
  match s with
  | EmptyString => false
  | String c' rest => Ascii.eqb c' c || includes rest c
  end.

(** [s.substr(0, n)] *)
Definition substr0 (s : string) (n : Z) : string :=
  String.substring 0 (Z.to_nat n) s.

(** [s[i]]: [undefined] outside the string. *)
Definition char_at (s : string) (i : Z) : option ascii :=
  if (i <? 0)%Z then None else String.get (Z.to_nat i) s.

(** [parts.join("")] where an [undefined] element contributes nothing. *)
Fixpoint join (parts : list (option ascii)) : string :=
  match parts with
  | [] => EmptyString
  | Some c :: rest => String c (join rest)
  | None :: rest => join rest
  end.

(** Conversions the host performs and the sources rely on. *)
Class Host : Type := {
  (** ToNumber on a string, as applied by [>] to a string operand. *)
  StringToNumber : string -> number
}.

End JS.

(** ** [geohash.utils.ts]: the codec, the neighbours and the precision *)

Module Geohash.
Import JS.
Local Open Scope js_scope.

Definition BASE32_CODES : string := "0123456789bcdefghjkmnpqrstuvwxyz".

(** [d[k] = v] and [d[k]] on the lookup object, keyed by one-character
    strings. *)
Definition dict : Type := list (ascii * Z).

Definition dict_set (d : dict) (k : ascii) (v : Z) : dict := (k, v) :: d.

Fixpoint dict_get (d : dict) (k : ascii) : option Z :=
  match d with
  | [] => None
  | (k', v) :: rest => if Ascii.eqb k' k then Some v else dict_get rest k
  end.

(** The table filled by the loop over [BASE32_CODES]. *)
Definition BASE32_CODES_DICT : dict :=
  fold_left
    (fun d i =>
       match String.get i BASE32_CODES with
       | Some c => dict_set d c (Z.of_nat i)
       | None => d
       end)
    (seq 0 (String.length BASE32_CODES)) [].

(**    Desired sig figs:  0  1  2  3  4   5   6   7   8   9  10 *)
Definition SIGFIG_HASH_LENGTH : list Z :=
  [0; 5; 7; 8; 11; 12; 13; 15; 16; 17; 18]%Z.

(** A latitude or longitude argument: [Number|String]. *)
Inductive coordinate : Type :=
| CNumber (x : number)
| CString (s : string).

(** The third argument of [encode]: the string ["auto"], absent, or a
    count of characters. *)
Inductive numberOfChars_arg : Type :=
| ENCODE_AUTO
| Undefined
| Chars (n : Z).

(** The interval bounds both loops narrow. *)
Record bounds : Type := mkBounds {
  maxLat : Q;
  minLat : Q;
  maxLon : Q;
  minLon : Q
}.

Definition globe : bounds :=
  {| maxLat := 90; minLat := -90; maxLon := 180; minLon := -180 |}.

Definition set_minLon (b : bounds) (mid : Q) : bounds :=
  {| maxLat := maxLat b; minLat := minLat b; maxLon := maxLon b; minLon := mid |}.
Definition set_maxLon (b : bounds) (mid : Q) : bounds :=
  {| maxLat := maxLat b; minLat := minLat b; maxLon := mid; minLon := minLon b |}.
Definition set_minLat (b : bounds) (mid : Q) : bounds :=
  {| maxLat := maxLat b; minLat := mid; maxLon := maxLon b; minLon := minLon b |}.
Definition set_maxLat (b : bounds) (mid : Q) : bounds :=
  {| maxLat := mid; minLat := minLat b; maxLon := maxLon b; minLon := minLon b |}.

(** *** encode *)

Record encode_state : Type := mkEncode {
  chars : list (option ascii);
  bits : Z;
  bitsTotal : Z;
  hash_value : Z;
  enc_bounds : bounds
}.

Section WithHost.
Context {host : Host}.

(** The operand [>] compares: a number as it is, a string through
    ToNumber. *)
Definition ToNumber (c : coordinate) : number :=
  match c with
  | CNumber x => x
  | CString s => StringToNumber s
  end.

(** One turn of the [while] body. *)
Definition encode_step (latitude longitude : coordinate) (st : encode_state)
  : encode_state :=
  let b := enc_bounds st in
  let '(hv, b') :=
    if (bitsTotal st mod 2 =? 0)%Z then
      let mid := div (add (maxLon b) (minLon b)) 2 in
      if gt (ToNumber longitude) mid
      then ((shl (hash_value st) 1 + 1)%Z, set_minLon b mid)
      else ((shl (hash_value st) 1 + 0)%Z, set_maxLon b mid)
    else
      let mid := div (add (maxLat b) (minLat b)) 2 in
      if gt (ToNumber latitude) mid
      then ((shl (hash_value st) 1 + 1)%Z, set_minLat b mid)
      else ((shl (hash_value st) 1 + 0)%Z, set_maxLat b mid) in
  let bits' := (bits st + 1)%Z in
  let bitsTotal' := (bitsTotal st + 1)%Z in
  if (bits' =? 5)%Z then
    let code := char_at BASE32_CODES hv in
    {| chars := chars st ++ [code]; bits := 0; bitsTotal := bitsTotal';
       hash_value := 0; enc_bounds := b' |}
  else
    {| chars := chars st; bits := bits'; bitsTotal := bitsTotal';
       hash_value := hv; enc_bounds := b' |}.

(** [chars.length < numberOfChars]; false when the bound is [undefined]. *)
Definition encode_continue (numberOfChars : option Z) (st : encode_state)
  : bool :=
  match numberOfChars with
  | Some n => (Z.of_nat (List.length (chars st)) <? n)%Z
  | None => false
  end.

(** The [while] loop, run for at most [fuel] turns. *)
Fixpoint encode_loop (fuel : nat) (latitude longitude : coordinate)
  (numberOfChars : option Z) (st : encode_state) : encode_state :=
  match fuel with
  | O => st
  | S fuel' =>
      if encode_continue numberOfChars st
      then encode_loop fuel' latitude longitude numberOfChars
             (encode_step latitude longitude st)
      else st
  end.

Definition encode_init : encode_state :=
  {| chars := []; bits := 0; bitsTotal := 0; hash_value := 0;
     enc_bounds := globe |}.

(** Five turns per character are enough for the loop to reach its exit
    (see [encode_loop_exits]). *)
Definition encode_fuel (numberOfChars : option Z) : nat :=
  match numberOfChars with
  | Some n => 5 * Z.to_nat n
  | None => 0
  end.

(** [s.split(".")[1].length] *)
Definition decSigFigs (s : string) : completion Z :=
  match nth_error (split "." s) 1 with
  | Some part => Normal (Z.of_nat (String.length part))
  | None =>
      Throw (TypeError "Cannot read properties of undefined (reading 'length')")
  end.

Definition encode (latitude longitude : coordinate)
  (numberOfChars : numberOfChars_arg) : completion string :=
  n <- match numberOfChars with
       | ENCODE_AUTO =>
           match latitude, longitude with
           | CString slat, CString slon =>
               decSigFigsLat <- decSigFigs slat ;;
               decSigFigsLong <- decSigFigs slon ;;
               let numberOfSigFigs := Z.max decSigFigsLat decSigFigsLong in
               ret (nth_error SIGFIG_HASH_LENGTH (Z.to_nat numberOfSigFigs))
           | _, _ =>
               Throw (Error "string notation required for auto precision.")
           end
       | Undefined => ret (Some 9%Z)
       | Chars n => ret (Some n)
       end ;;
  ret (join (chars (encode_loop (encode_fuel n) latitude longitude n
                      encode_init))).

End WithHost.

(** *** decode_bbox *)

Record decode_state : Type := mkDecode {
  isLon : bool;
  dec_bounds : bounds
}.

(** The body of the inner [for] loop for one value of [bits]. *)
Definition decode_bit (hashValue : option Z) (st : decode_state) (bits : Z)
  : decode_state :=
  let bit := bitand (sar (ToInt32_opt hashValue) bits) 1 in
  let b := dec_bounds st in
  let b' :=
    if isLon st then
      let mid := div (add (maxLon b) (minLon b)) 2 in
      if (bit =? 1)%Z then set_minLon b mid else set_maxLon b mid
    else
      let mid := div (add (maxLat b) (minLat b)) 2 in
      if (bit =? 1)%Z then set_minLat b mid else set_maxLat b mid in
  {| isLon := negb (isLon st); dec_bounds := b' |}.

(** The body of the outer [for] loop for one character. *)
Definition decode_char (st : decode_state) (c : ascii) : decode_state :=
  let code := toLowerCase c in
  let hashValue := dict_get BASE32_CODES_DICT code in
  fold_left (decode_bit hashValue) [4; 3; 2; 1; 0]%Z st.

Definition decode_init : decode_state :=
  {| isLon := true; dec_bounds := globe |}.

(** [[minLat, minLon, maxLat, maxLon]] *)
Definition BoundingBox : Type := (Q * Q * Q * Q)%type.

Definition bbox_of (b : bounds) : BoundingBox :=
  (minLat b, minLon b, maxLat b, maxLon b).

Definition decode_chars (hash_string : string) (st : decode_state)
  : decode_state :=
  fold_left decode_char (list_ascii_of_string hash_string) st.

Definition decode_bbox (hash_string : string) : completion BoundingBox :=
  ret (bbox_of (dec_bounds (decode_chars hash_string decode_init))).

(** *** decode *)

Record LatLonError : Type := mkError {
  error_latitude : Q;
  error_longitude : Q
}.

Record Decoded : Type := mkDecoded {
  latitude : Q;
  longitude : Q;
  error : LatLonError
}.

Definition decode (hashString : string) : completion Decoded :=
  '(bbox0, bbox1, bbox2, bbox3) <- decode_bbox hashString ;;
  let lat := div (add bbox0 bbox2) 2 in
  let lon := div (add bbox1 bbox3) 2 in
  let latErr := sub bbox2 lat in
  let lonErr := sub bbox3 lon in
  ret {| latitude := lat; longitude := lon;
         error := {| error_latitude := latErr; error_longitude := lonErr |} |}.

(** *** neighbors *)

Definition neighbors {host : Host} (hash_string : string)
  : completion (list string) :=
  let hashstringLength := Z.of_nat (String.length hash_string) in
  lonlat <- decode hash_string ;;
  let lat := latitude lonlat in
  let lon := longitude lonlat in
  let latErr := mul (error_latitude (error lonlat)) 2 in
  let lonErr := mul (error_longitude (error lonlat)) 2 in
  let encodeNeighbor (neighborLatDir neighborLonDir : Q) :=
    let neighbor_lat := add lat (mul neighborLatDir latErr) in
    let neighbor_lon := add lon (mul neighborLonDir lonErr) in
    encode (CNumber (Num neighbor_lat)) (CNumber (Num neighbor_lon))
      (Chars hashstringLength) in
  n0 <- encodeNeighbor 1 0 ;;
  n1 <- encodeNeighbor 1 1 ;;
  n2 <- encodeNeighbor 0 1 ;;
  n3 <- encodeNeighbor (-1) 1 ;;
  n4 <- encodeNeighbor (-1) 0 ;;
  n5 <- encodeNeighbor (-1) (-1) ;;
  n6 <- encodeNeighbor 0 (-1) ;;
  n7 <- encodeNeighbor 1 (-1) ;;
  ret [n0; n1; n2; n3; n4; n5; n6; n7].

(** *** setPrecision *)

(** The bounds are the doubles the literals denote. *)
Definition setPrecision (km : Q) : Z :=
  if Qle_bool km (nearest_double 0.00477) then 9
  else if Qle_bool km (nearest_double 0.0382) then 8
  else if Qle_bool km (nearest_double 0.153) then 7
  else if Qle_bool km (nearest_double 1.22) then 6
  else if Qle_bool km (nearest_double 4.89) then 5
  else if Qle_bool km (nearest_double 39.1) then 4
  else if Qle_bool km (nearest_double 156) then 3
  else if Qle_bool km (nearest_double 1250) then 2
  else 1.

End Geohash.

(** ** [geohash.service.ts]: the search *)

Module GeohashService.
Import JS Geohash.
Local Open Scope js_scope.

Record Coords : Type := mkCoords {
  lat : Q;
  lng : Q
}.

Record GeoSearchOptions : Type := mkOptions {
  center : Coords;
  radius : Q;
  field : string
}.

(** A record of the result: the properties of the document ([...val]) and
    [geoMetadata.distance]. *)
Record GeoSearchResult : Type := mkResult {
  val : value;
  geoMetadata_distance : number
}.

(** What the search reads of a document snapshot: [v.id] and [v.data()]. *)
Record QueryDocumentSnapshot : Type := mkSnapshot {
  snap_id : string;
  snap_data : list (string * value)
}.

(** A range query as [queryByGeohash] builds it. *)
Record RangeQuery : Type := mkQuery {
  orderBy : string;
  startAt : string;
  endAt : string
}.

(** The store: [get()] on a range query resolves to the documents of the
    range or rejects. *)
Definition FirestoreQuery : Type :=
  RangeQuery -> completion (list QueryDocumentSnapshot).

Definition geohashLength : Z := 9.

(** [a - b] on numbers. *)
Definition minus (a b : number) : number :=
  match a, b with
  | Num x, Num y => Num (sub x y)
  | _, _ => NaN
  end.

(** [Promise.all]: every result in order, or a rejection (the first in
    list order stands for whichever rejects first). *)
Fixpoint Promise_all {A : Type} (ps : list (completion A))
  : completion (list A) :=
  match ps with
  | [] => ret []
  | p :: rest => a <- p ;; others <- Promise_all rest ;; ret (a :: others)
  end.

(** [arr.findIndex(pred)] *)
Fixpoint findIndex_from (pred : value -> completion bool) (arr : list value)
  (i : Z) : completion Z :=
  match arr with
  | [] => ret (-1)%Z
  | v :: rest =>
      found <- pred v ;;
      if found then ret i else findIndex_from pred rest (i + 1)%Z
  end.

Definition findIndex (pred : value -> completion bool) (arr : list value)
  : completion Z :=
  findIndex_from pred arr 0%Z.

(** [arr.filter((val, pos, arr) => ...)], the callback run from [pos] on. *)
Fixpoint filter_from (f : value -> Z -> completion bool) (l : list value)
  (pos : Z) : completion (list value) :=
  match l with
  | [] => ret []
  | v :: rest =>
      keep <- f v pos ;;
      kept <- filter_from f rest (pos + 1)%Z ;;
      ret (if keep then v :: kept else kept)
  end.

(** [arr.map(f)] for a callback that may throw. *)
Fixpoint map_c {A B : Type} (f : A -> completion B) (l : list A)
  : completion (list B) :=
  match l with
  | [] => ret []
  | a :: rest => b <- f a ;; bs <- map_c f rest ;; ret (b :: bs)
  end.

(** [arr.sort(compareFn)].  The sort is stable, and for a comparator that
    orders its arguments consistently every stable algorithm returns the
    same array; the model inserts each element before the first one it
    does not compare greater than. *)
Fixpoint insert {A : Type} (compareFn : A -> A -> number) (x : A)
  (sorted : list A) : list A :=
  match sorted with
  | [] => [x]
  | y :: rest =>
      if gt (compareFn x y) 0 then y :: insert compareFn x rest
      else x :: sorted
  end.

Definition sort {A : Type} (compareFn : A -> A -> number) (arr : list A)
  : list A :=
  fold_right (insert compareFn) [] arr.

(** [getNestedKey] of [geohash.utils.ts] *)
Fixpoint getNestedKey_loop (obj : value) (pList : list string)
  (fallbackVal : value) : completion value :=
  match pList with
  | [] =>
      if strict_equals obj VUndefined then ret fallbackVal else ret obj
  | key :: rest =>
      if falsy obj || negb (typeof_object obj) then ret fallbackVal
      else obj' <- get obj key ;; getNestedKey_loop obj' rest fallbackVal
  end.

Definition getNestedKey (obj : value) (path : string) (fallbackVal : value)
  : completion value :=
  getNestedKey_loop obj (split "." path) fallbackVal.

(** What the service stores with a document: [GeoData] of
    [geohash.types.ts]. *)
Record GeoData : Type := mkGeoData {
  geopoint : value;
  geohash : string
}.

Section Create.
Context {host : Host}.

(** [new firebase.firestore.GeoPoint(lat, lng)] of the Firebase SDK, which
    returns the point or throws. *)
Variable GeoPoint : Q -> Q -> completion value.

Definition createGeoData (lat lng : Q) : completion GeoData :=
  point <- GeoPoint lat lng ;;
  hash <- encode (CNumber (Num lat)) (CNumber (Num lng))
            (Chars geohashLength) ;;
  ret {| geopoint := point; geohash := hash |}.

End Create.

Section Search.
Context {host : Host}.

(** [distance] of [geohash.utils.ts] as the host evaluates it, on the
    latitude and longitude values the search passes.  The search only
    compares its results, so it is modelled, and its properties hold, for
    an arbitrary function. *)
Variable distance : value * value -> value * value -> number.

Definition queryByGeohash (geohash field : string) : RangeQuery :=
  let end_ := (geohash ++ "~")%string in
  {| orderBy := (field ++ ".geohash")%string; startAt := geohash;
     endAt := end_ |}.

(** [{ id: v.id, ...v.data() }] for every document.  The search never
    compares the record objects themselves, and they all get the
    reference 0. *)
Definition snapToData (docs : list QueryDocumentSnapshot) : list value :=
  map (fun v =>
         VObject 0 (spread [("id"%string, VString (snap_id v))] (snap_data v)))
      docs.

Definition getGeoPoint (val : value) (fieldPath : string)
  : completion value :=
  if includes fieldPath "."
  then data <- getNestedKey val fieldPath VUndefined ;; get data "geopoint"
  else data <- get val fieldPath ;; get data "geopoint".

(** [const { latitude, longitude } = this.getGeoPoint(val, field)]: the
    pattern reads the two properties, and throws a TypeError on
    [undefined] and [null] as a property read does. *)
Definition latitude_longitude (val : value) (field : string)
  : completion (value * value) :=
  geopoint <- getGeoPoint val field ;;
  latitude <- get geopoint "latitude" ;;
  longitude <- get geopoint "longitude" ;;
  ret (latitude, longitude).

Definition center_coordinates (center : Coords) : value * value :=
  (VNumber (Num (lat center)), VNumber (Num (lng center))).

(** The cells queried: the eight neighbours of the centre cell, then the
    centre cell. *)
Definition area (opts : GeoSearchOptions) : completion (list string) :=
  let precision := setPrecision (radius opts) in
  hash <- encode (CNumber (Num (lat (center opts))))
            (CNumber (Num (lng (center opts)))) (Chars geohashLength) ;;
  let centerHash := substr0 hash precision in
  around <- neighbors centerHash ;;
  ret (around ++ [centerHash]).

(** [reduced]: the records of all the queries, flattened. *)
Definition reduced (fsQuery : FirestoreQuery) (opts : GeoSearchOptions)
  : completion (list value) :=
  cells <- area opts ;;
  let queryPromises :=
    map (fun hash =>
           snap <- fsQuery (queryByGeohash hash (field opts)) ;;
           ret (snapToData snap))
        cells in
  queries <- Promise_all queryPromises ;;
  ret (fold_left (fun acc curr => acc ++ curr) queries []).

(** The callback of [filter]. *)
Definition within_and_first (opts : GeoSearchOptions) (arr : list value)
  (val : value) (pos : Z) : completion bool :=
  let radiusBuffer := round_double (radius opts * nearest_double 1.01) in
  '(latitude, longitude) <- latitude_longitude val (field opts) ;;
  if le_rounded
       (distance (center_coordinates (center opts)) (latitude, longitude))
       radiusBuffer
  then
    index <- findIndex
               (fun v =>
                  vid <- get v "id" ;;
                  valid <- get val "id" ;;
                  ret (strict_equals vid valid))
               arr ;;
    ret (index =? pos)%Z
  else ret false.

(** The callback of [map]. *)
Definition annotate (opts : GeoSearchOptions) (val : value)
  : completion GeoSearchResult :=
  '(latitude, longitude) <- latitude_longitude val (field opts) ;;
  ret {| val := val;
         geoMetadata_distance :=
           distance (center_coordinates (center opts)) (latitude, longitude) |}.

Definition by_distance (a b : GeoSearchResult) : number :=
  minus (geoMetadata_distance a) (geoMetadata_distance b).

(** What [performSearch] does with the flattened records. *)
Definition select (opts : GeoSearchOptions) (arr : list value)
  : completion (list GeoSearchResult) :=
  filtered <- filter_from (within_and_first opts arr) arr 0%Z ;;
  mapped <- map_c (annotate opts) filtered ;;
  ret (sort by_distance mapped).

Definition performSearch (fsQuery : FirestoreQuery) (opts : GeoSearchOptions)
  : completion (list GeoSearchResult) :=
  arr <- reduced fsQuery opts ;;
  select opts arr.

End Search.

End GeohashService.

(** * The vocabulary of the properties *)

(** ** On the codec *)

Module CodecSpec.
Import JS Geohash.

(** A character is known when its lowercase form is one of the 32 codes. *)
Definition known (c : ascii) : bool := includes BASE32_CODES (toLowerCase c).

(** The string with every unknown character replaced by ["0"]. *)
Fixpoint zero_unknown (h : string) : string :=
  match h with
  | EmptyString => EmptyString
  | String c rest =>
      String (if known c then c else "0"%char) (zero_unknown rest)
  end.

(** A string has a character outside the alphabet. *)
Definition outside_alphabet (h : string) : Prop :=
  exists c : ascii,
    In c (list_ascii_of_string h) /\ includes BASE32_CODES c = false.

(** The box stays inside the globe, and its bounds stay ordered. *)
Definition inside_globe (b : bounds) : Prop :=
  -90 <= minLat b /\ minLat b <= maxLat b /\ maxLat b <= 90
  /\ -180 <= minLon b /\ minLon b <= maxLon b /\ maxLon b <= 180.

(** The body of [decode_bit] once the bit is known. *)
Definition bit_step (bit : Z) (st : decode_state) : decode_state :=
  let b := dec_bounds st in
  {| isLon := negb (isLon st);
     dec_bounds :=
       if isLon st then
         if (bit =? 1)%Z then set_minLon b (div (add (maxLon b) (minLon b)) 2)
         else set_maxLon b (div (add (maxLon b) (minLon b)) 2)
       else
         if (bit =? 1)%Z then set_minLat b (div (add (maxLat b) (minLat b)) 2)
         else set_maxLat b (div (add (maxLat b) (minLat b)) 2) |}.

(** The bit read at position [bits] of a value. *)
Definition bit_at (hashValue : option Z) (bits : Z) : Z :=
  bitand (sar (ToInt32_opt hashValue) bits) 1.

(** The positions the inner loop visits when [k] bits are pending, most
    significant first. *)
Fixpoint positions (k : nat) : list Z :=
  match k with
  | O => []
  | S k' => Z.of_nat k' :: positions k'
  end.

(** How a decoder that has reached the same bit sees the state. *)
Definition as_decoder (st : encode_state) : decode_state :=
  {| isLon := Z.even (bitsTotal st); dec_bounds := enc_bounds st |}.

Definition encode_inv (st : encode_state) : Prop :=
  (0 <= bits st < 5)%Z
  /\ bitsTotal st = (5 * Z.of_nat (List.length (chars st)) + bits st)%Z
  /\ (0 <= hash_value st < 2 ^ bits st)%Z
  /\ Forall (fun code => code <> None) (chars st)
  /\ fold_left (decode_bit (Some (hash_value st)))
       (positions (Z.to_nat (bits st)))
       (decode_chars (join (chars st)) decode_init)
     = as_decoder st.

(** The point encoded stays inside the bounds. *)
Definition contains (b : bounds) (la lo : Q) : Prop :=
  minLat b <= la /\ la <= maxLat b /\ minLon b <= lo /\ lo <= maxLon b.

Section WithCoordinates.
Context {host : Host}.
Variables clat clon : coordinate.

(** The bit a turn of [encode] emits. *)
Definition emitted_bit (st : encode_state) : Z :=
  let b := enc_bounds st in
  if (bitsTotal st mod 2 =? 0)%Z
  then if gt (ToNumber clon) (div (add (maxLon b) (minLon b)) 2)
       then 1%Z else 0%Z
  else if gt (ToNumber clat) (div (add (maxLat b) (minLat b)) 2)
       then 1%Z else 0%Z.

(** The state [encode] returns from, for a count of characters. *)
Definition encode_final (n : Z) : encode_state :=
  encode_loop (encode_fuel (Some n)) clat clon (Some n) encode_init.

End WithCoordinates.

(** A host for the examples: every string converts to NaN. *)
Definition sample_host : Host := {| StringToNumber := fun _ => NaN |}.

(** The number of decimal digits of a coordinate in string notation: the
    length of what follows the decimal point, 0 without one. *)
Definition decimal_digits (s : string) : nat :=
  match split "." s with
  | _ :: decimals :: _ => String.length decimals
  | _ => 0%nat
  end.

(** Every character of the string is one of the 32 codes. *)
Definition over_alphabet (h : string) : Prop :=
  Forall (fun c => includes BASE32_CODES c = true) (list_ascii_of_string h).

(** The bounds [b'] lie within the bounds [b]. *)
Definition narrower (b' b : bounds) : Prop :=
  minLat b <= minLat b' /\ maxLat b' <= maxLat b
  /\ minLon b <= minLon b' /\ maxLon b' <= maxLon b.

(** The codes pushed so far are characters of the alphabet. *)
Definition coded (st : encode_state) : Prop :=
  Forall (fun code => exists c : ascii,
              code = Some c /\ includes BASE32_CODES c = true) (chars st).

(** Two to the power [k], as a number. *)
Definition pow2 (k : nat) : Q := inject_Z (2 ^ Z.of_nat k).

(** The widths of the bounds after [a] halvings of the longitudes and [b]
    of the latitudes, and the axis that comes next. *)
Definition sized (a b : nat) (st : decode_state) : Prop :=
  (maxLat (dec_bounds st) - minLat (dec_bounds st)) * pow2 b == 180
  /\ (maxLon (dec_bounds st) - minLon (dec_bounds st)) * pow2 a == 360
  /\ ((isLon st = true /\ a = b) \/ (isLon st = false /\ a = S b)).

(** The interiors of two boxes meet. *)
Definition overlap (b1 b2 : bounds) : Prop :=
  minLat b1 < maxLat b2 /\ minLat b2 < maxLat b1
  /\ minLon b1 < maxLon b2 /\ minLon b2 < maxLon b1.

(** The hash in lowercase, with ["0"] for every unknown character: what
    [encode] writes for the cell the hash decodes to. *)
Definition canonical (h : string) : string :=
  toLowerCase_string (zero_unknown h).

(** The bounds a hash decodes to. *)
Definition cell (h : string) : bounds :=
  dec_bounds (decode_chars h decode_init).

(** The bounds are a cell of the grid that [a] halvings of the longitudes
    and [b] halvings of the latitudes cut the globe into. *)
Definition grid_cell (a b : nat) (bd : bounds) : Prop :=
  exists i j : Z,
    (minLat bd + 90) * pow2 b == 180 * inject_Z i
    /\ (maxLat bd + 90) * pow2 b == 180 * inject_Z (i + 1)
    /\ (minLon bd + 180) * pow2 a == 360 * inject_Z j
    /\ (maxLon bd + 180) * pow2 a == 360 * inject_Z (j + 1).

(** The number of halvings of the longitudes and of the latitudes a hash
    of [len] characters spells. *)
Definition lon_bits (len : nat) : nat := ((5 * len + 1) / 2)%nat.
Definition lat_bits (len : nat) : nat := (5 * len / 2)%nat.

(** The same bounds, as numbers. *)
Definition same_bounds (b1 b2 : bounds) : Prop :=
  minLat b1 == minLat b2 /\ maxLat b1 == maxLat b2
  /\ minLon b1 == minLon b2 /\ maxLon b1 == maxLon b2.

(** The bounds moved by [dlat] times their height and [dlon] times their
    width. *)
Definition shift (dlat dlon : Q) (bd : bounds) : bounds :=
  {| maxLat := maxLat bd + dlat * (maxLat bd - minLat bd);
     minLat := minLat bd + dlat * (maxLat bd - minLat bd);
     maxLon := maxLon bd + dlon * (maxLon bd - minLon bd);
     minLon := minLon bd + dlon * (maxLon bd - minLon bd) |}.

(** The step actually taken along an axis from the interval [mn, mx] of the
    range [lo, hi]: none beyond the end of the range. *)
Definition dir_taken (lo hi mn mx d : Q) : Q :=
  if (Qeq_bool d 1 && Qeq_bool mx hi) || (Qeq_bool d (-1) && Qeq_bool mn lo)
  then 0 else d.

(** No step across a pole, and none across the meridian of 180 degrees. *)
Definition latDir_taken (bd : bounds) (dlat : Q) : Q :=
  dir_taken (-90) 90 (minLat bd) (maxLat bd) dlat.

Definition lonDir_taken (bd : bounds) (dlon : Q) : Q :=
  dir_taken (-180) 180 (minLon bd) (maxLon bd) dlon.

(** The state of the decoder is on a cell of the grid. *)
Definition gridded (a b : nat) (st : decode_state) : Prop :=
  grid_cell a b (dec_bounds st)
  /\ ((isLon st = true /\ a = b) \/ (isLon st = false /\ a = S b)).

(** Bounds inside the globe, of positive height and width. *)
Definition proper (bd : bounds) : Prop :=
  -90 <= minLat bd /\ minLat bd < maxLat bd /\ maxLat bd <= 90
  /\ -180 <= minLon bd /\ minLon bd < maxLon bd /\ maxLon bd <= 180.

(** The directions of [neighbors], in its order. *)
Definition directions : list (Q * Q) :=
  [(1, 0); (1, 1); (0, 1); (-1, 1); (-1, 0); (-1, -1); (0, -1); (1, -1)].

(** The hash [c] is the hash, of the length of [h] and over the alphabet,
    of the cell reached from the cell of [h] by the steps taken in the
    direction [d]. *)
Definition reached (h : string) (d : Q * Q) (c : string) : Prop :=
  String.length c = String.length h
  /\ over_alphabet c
  /\ same_bounds (cell c)
       (shift (latDir_taken (cell h) (fst d)) (lonDir_taken (cell h) (snd d))
          (cell h)).

(** The neighbour of [c] at place [k] of the list [neighbors] returns is
    [h], in lowercase and with ["0"] for unknown characters. *)
Definition back_at {host : Host} (k : nat) (c h : string) : Prop :=
  exists back : list string,
    neighbors c = Normal back /\ nth_error back k = Some (canonical h).

(** A coordinate brought back into its range. *)
Definition clamp (lo hi x : Q) : Q :=
  if Qle_bool x lo then lo else if Qle_bool hi x then hi else x.

(** The number [encode] compares with in the place of a coordinate: the
    coordinate brought back into its range, and the lower end of the range
    for one that is not a number. *)
Definition effective (lo hi : Q) (x : number) : Q :=
  match x with
  | NaN => lo
  | Num q => clamp lo hi q
  end.

Section Turns.
Context {host : Host}.
Variables clat clon : coordinate.

(** The state of [encode] after [k] turns of its loop. *)
Definition encode_run (k : nat) : encode_state :=
  Nat.iter k (encode_step clat clon) encode_init.

End Turns.

End CodecSpec.

(** ** On the search *)

Module SearchSpec.
Import JS Geohash GeohashService.
Local Open Scope js_scope.

Definition is_object (v : value) : Prop :=
  exists (r : nat) (props : list (string * value)), v = VObject r props.

Definition is_TypeError (e : exn) : Prop :=
  exists message : string, e = TypeError message.

(** The identifier the filter compares: [val.id]. *)
Definition ident (v : value) : value :=
  match v with
  | VObject _ props => lookup "id" props
  | _ => VUndefined
  end.

(** The value the field path leads to on a record. *)
Definition field_value (v : value) (fieldPath : string) : completion value :=
  if includes fieldPath "." then getNestedKey v fieldPath VUndefined
  else get v fieldPath.

Definition nullish (v : value) : Prop := v = VUndefined \/ v = VNull.

Section Sorting.
Context {A : Type}.
Variable key : A -> number.
Variable pos : A -> nat.

Definition cmp (a b : A) : number := minus (key a) (key b).

Definition finite (a : A) : Prop := exists q : Q, key a = Num q.

(** [a] comes before [b]: it is closer, or as close and earlier in the
    original order. *)
Definition before (a b : A) : Prop :=
  exists x y : Q,
    key a = Num x /\ key b = Num y
    /\ (x < y \/ (x == y /\ (pos a < pos b)%nat)).

End Sorting.

(** [arr.findIndex(p)] for a callback that does not throw. *)
Fixpoint first_index_from (p : value -> bool) (arr : list value) (i : Z) : Z :=
  match arr with
  | [] => (-1)%Z
  | v :: rest => if p v then i else first_index_from p rest (i + 1)%Z
  end.

(** The records a filter keeps, with their positions. *)
Fixpoint kept_from (keep : nat -> value -> bool) (l : list value) (pos : nat)
  : list (nat * value) :=
  match l with
  | [] => []
  | v :: rest =>
      if keep pos v then (pos, v) :: kept_from keep rest (S pos)
      else kept_from keep rest (S pos)
  end.

Section Selection.
Variable distance : value * value -> value * value -> number.
Variable opts : GeoSearchOptions.

(** The coordinates of the centre, as [distance] receives them. *)
Definition centre : value * value :=
  (VNumber (Num (lat (center opts))), VNumber (Num (lng (center opts)))).

(** The latitude and the longitude of the geo point the field path leads to
    on a record. *)
Definition coordinates_of (v : value) : completion (value * value) :=
  data <- field_value v (field opts) ;;
  geopoint <- get data "geopoint" ;;
  latitude <- get geopoint "latitude" ;;
  longitude <- get geopoint "longitude" ;;
  ret (latitude, longitude).

(** The distance from the centre to a record. *)
Definition distance_to (v : value) : completion number :=
  coordinates <- coordinates_of v ;;
  ret (distance centre coordinates).

(** The radius with its buffer: the product [radius * 1.01] in double
    precision. *)
Definition buffer : rounded :=
  round_double (radius opts * nearest_double 1.01).

Definition at_most (d : Q) (bound : rounded) : Prop :=
  match bound with
  | Finite q => d <= q
  | Infinity negative => negative = false
  end.

(** [w.id === v.id] *)
Definition same_id (w v : value) : bool := strict_equals (ident w) (ident v).

(** The record at a position is the first one with its identifier. *)
Definition first_occurrence (arr : list value) (pos : nat) (v : value) : Prop :=
  nth_error arr pos = Some v
  /\ same_id v v = true
  /\ forall j w, (j < pos)%nat -> nth_error arr j = Some w ->
                 same_id w v = false.

(** The record is within the radius, with its buffer, of the centre. *)
Definition within (v : value) : Prop :=
  exists d : Q, distance_to v = Normal (Num d) /\ at_most d buffer.

Definition retained (arr : list value) (pos : nat) : Prop :=
  exists v, first_occurrence arr pos v /\ within v.

(** The callback of [filter] on records whose coordinates can be read. *)
Definition keep (arr : list value) (pos : nat) (v : value) : bool :=
  match distance_to v with
  | Normal d =>
      le_rounded d buffer
      && (first_index_from (fun w => same_id w v) arr 0 =? Z.of_nat pos)%Z
  | Throw _ => false
  end.

(** The coordinates of the record can be read. *)
Definition readable (v : value) : Prop :=
  exists c, coordinates_of v = Normal c.

(** The distance recorded with a kept record. *)
Definition recorded_distance (v : value) : number :=
  match distance_to v with
  | Normal d => d
  | Throw _ => NaN
  end.

(** A kept record with its position and its distance. *)
Definition tag (pv : nat * value) : nat * GeoSearchResult :=
  (fst pv,
   {| val := snd pv; geoMetadata_distance := recorded_distance (snd pv) |}).

(** The result of the search, every record tagged with the position it had
    among the candidates. *)
Definition tagged_results (arr : list value) : list (nat * GeoSearchResult) :=
  sort (fun a b => by_distance (snd a) (snd b))
       (map tag (kept_from (keep arr) arr 0)).

(** Closer first; among equally close records, the earlier candidate
    first. *)
Definition ordered (a b : nat * GeoSearchResult) : Prop :=
  before (fun r => geoMetadata_distance (snd r)) fst a b.

End Selection.

(** The identifiers of the records of a list are pairwise different, and
    each equals itself. *)
Definition distinct_ids (l : list value) : Prop :=
  forall i j a b,
    nth_error l i = Some a -> nth_error l j = Some b ->
    same_id a b = (i =? j)%nat.

(** A distance for the examples: the difference of the latitudes. *)
Definition sample_distance (fromLatLng toLatLng : value * value) : number :=
  match fst fromLatLng, fst toLatLng with
  | VNumber (Num a), VNumber (Num b) => Num (Qred (Qabs (b - a)))
  | _, _ => NaN
  end.

Definition sample_options : GeoSearchOptions :=
  {| center := {| lat := 0; lng := 0 |}; radius := 3; field := "location" |}.

(** A document with geo data at a latitude on the meridian of the centre,
    as [createGeoData] builds it. *)
Definition sample_doc (id : string) (ref : nat) (la : Q)
  : QueryDocumentSnapshot :=
  {| snap_id := id;
     snap_data :=
       [("location"%string,
         VObject ref
           [("geopoint"%string,
             VObject (S ref)
               [("latitude"%string, VNumber (Num la));
                ("longitude"%string, VNumber (Num 0))]);
            ("geohash"%string,
             match @encode CodecSpec.sample_host (CNumber (Num la))
                     (CNumber (Num 0)) (Chars geohashLength) with
             | Normal hash => VString hash
             | Throw _ => VUndefined
             end)])] |}.

Definition near : QueryDocumentSnapshot := sample_doc "near" 1 0.5.
Definition farther : QueryDocumentSnapshot := sample_doc "farther" 3 2.
Definition outside : QueryDocumentSnapshot := sample_doc "outside" 5 10.

(** A document at 3.0300000000000002 degrees of latitude, the double
    product of 3 and 1.01. *)
Definition edge : QueryDocumentSnapshot :=
  sample_doc "edge" 7 (3411476717733151 # 1125899906842624).

(** A document without the geo data field. *)
Definition bare : QueryDocumentSnapshot :=
  {| snap_id := "bare"; snap_data := [("name"%string, VString "x")] |}.

(** A store that answers the query on the cell of the sample centre with
    the given documents and has nothing in the neighbouring cells. *)
Definition store_of (docs : list QueryDocumentSnapshot) : FirestoreQuery :=
  fun q => if String.eqb (startAt q) "7zzzz" then Normal docs else Normal [].

Definition record_of (d : QueryDocumentSnapshot) : value :=
  VObject 0 (spread [("id"%string, VString (snap_id d))] (snap_data d)).

(** The field path leads to geo data: a geo point with a numeric latitude
    and longitude, and a geohash. *)
Definition is_GeoData (data : value) : Prop :=
  exists (geopoint : value) (la lo : Q) (hash : string),
    get data "geopoint" = Normal geopoint
    /\ get geopoint "latitude" = Normal (VNumber (Num la))
    /\ get geopoint "longitude" = Normal (VNumber (Num lo))
    /\ get data "geohash" = Normal (VString hash).

Definition resolves (v : value) (fieldPath : string) : Prop :=
  exists data, field_value v fieldPath = Normal data /\ is_GeoData data.

(** The values of the ordering field a range query selects: [startAt] and
    [endAt] are inclusive bounds, and the store compares strings character
    by character, by their codes. *)
Definition in_range (q : RangeQuery) (s : string) : bool :=
  String.leb (startAt q) s && String.leb s (endAt q).

(** A geo point for the examples: an object with the two coordinates. *)
Definition sample_GeoPoint (la lo : Q) : completion value :=
  Normal (VObject 1 [("latitude"%string, VNumber (Num la));
                     ("longitude"%string, VNumber (Num lo))]).

(** The property list has the property [k]. *)
Definition has_key (k : string) (props : list (string * value)) : bool :=
  existsb (fun kv => String.eqb (fst kv) k) props.

(** A document whose data has an [id] field of its own. *)
Definition own_id : QueryDocumentSnapshot :=
  {| snap_id := "doc1";
     snap_data := [("id"%string, VString "mine");
                   ("name"%string, VString "x")] |}.

(** An object with the property [b] of its property [a] set to 1. *)
Definition nested : value :=
  VObject 0 [("a"%string, VObject 0 [("b"%string, VNumber (Num 1))])].

End SearchSpec.

(** * Properties *)

Import JS Geohash CodecSpec.

(** ** Arithmetic on finite numbers *)

Arguments add : simpl never.
Arguments sub : simpl never.
Arguments mul : simpl never.
Arguments div : simpl never.

Lemma add_spec (x y : Q) : add x y == x + y.
Proof. apply Qred_correct. Qed.

Lemma sub_spec (x y : Q) : sub x y == x - y.
Proof. apply Qred_correct. Qed.

Lemma mul_spec (x y : Q) : mul x y == x * y.
Proof. apply Qred_correct. Qed.

Lemma half_spec (x : Q) : div x 2 == x * (1 # 2).
Proof. unfold div. rewrite Qred_correct. reflexivity. Qed.

Lemma mid_spec (hi lo : Q) : div (add hi lo) 2 == (hi + lo) * (1 # 2).
Proof. rewrite half_spec, add_spec. reflexivity. Qed.

Lemma Qle_bool_false (x y : Q) : Qle_bool x y = false <-> y < x.
Proof.
  split; intros H.
  - apply Qnot_le_lt. intros Hle. apply Qle_bool_iff in Hle. congruence.
  - destruct (Qle_bool x y) eqn:E; [|reflexivity].
    apply Qle_bool_iff in E. lra.
Qed.

Lemma Qgt_bool_true (x y : Q) : Qgt_bool x y = true <-> y < x.
Proof.
  unfold Qgt_bool. rewrite negb_true_iff. apply Qle_bool_false.
Qed.

Lemma Qgt_bool_false (x y : Q) : Qgt_bool x y = false <-> x <= y.
Proof.
  unfold Qgt_bool. rewrite negb_false_iff. apply Qle_bool_iff.
Qed.

(** ** Doubles *)

(** Equal rationals have the same nearest double. *)
Lemma nearest_double_Qeq (p q : Q) :
  p == q -> nearest_double p = nearest_double q.
Proof.
  intros H. unfold nearest_double. rewrite (Qred_complete p q H).
  reflexivity.
Qed.

Lemma round_double_Qeq (p q : Q) : p == q -> round_double p = round_double q.
Proof.
  intros H. unfold round_double. rewrite (nearest_double_Qeq p q H).
  reflexivity.
Qed.

(** ** The precision table *)

(** The doubles the bounds of the table denote. *)
Lemma precision_bounds :
  nearest_double 0.00477 = 1374858894243665 # 288230376151711744
  /\ nearest_double 0.0382 = 2752600092248847 # 72057594037927936
  /\ nearest_double 0.153 = 5512405943901487 # 36028797018963968
  /\ nearest_double 1.22 = 5494391545392005 # 4503599627370496
  /\ nearest_double 4.89 = 5505650544460431 # 1125899906842624
  /\ nearest_double 39.1 = 5502835794693325 # 140737488355328
  /\ nearest_double 156 = 156
  /\ nearest_double 1250 = 1250.
Proof. repeat split; vm_compute; reflexivity. Qed.

(** Turns every test of [setPrecision] into the inequality it decides. *)
Ltac precision_cases km :=
  unfold setPrecision;
  repeat
    (let E := fresh "E" in
     match goal with
     | |- context [Qle_bool km ?bound] =>
         destruct (Qle_bool km bound) eqn:E;
         [apply Qle_bool_iff in E | apply Qle_bool_false in E]
     end).

Ltac precision_bounds_in_all :=
  destruct precision_bounds as (B1 & B2 & B3 & B4 & B5 & B6 & B7 & B8);
  rewrite ?B1, ?B2, ?B3, ?B4, ?B5, ?B6, ?B7, ?B8 in *;
  clear B1 B2 B3 B4 B5 B6 B7 B8.

Lemma setPrecision_range (km : Q) : (1 <= setPrecision km <= 9)%Z.
Proof. precision_cases km; lia. Qed.

Lemma setPrecision_antitone (r1 r2 : Q) :
  r1 <= r2 -> (setPrecision r2 <= setPrecision r1)%Z.
Proof.
  intros Hle. precision_cases r2; precision_cases r1;
    first [lia | exfalso; precision_bounds_in_all; lra].
Qed.

(** C4, as the code has it.  [setPrecision] follows the step table row by
    row, with the doubles the literals denote as bounds; its result is a
    length between 1 and 9, it never grows when the radius grows, and it
    gives 9 at 0.004 km and 1 at 2000 km.  The doubles 156 and 1250 are the
    numbers themselves, the double 39.1 is above 39.1, and the doubles of
    the other bounds are below them. *)
Theorem setPrecision_table :
  (forall km : Q,
      (1 <= setPrecision km <= 9)%Z
      /\ (km <= nearest_double 0.00477 -> setPrecision km = 9%Z)
      /\ (nearest_double 0.00477 < km <= nearest_double 0.0382 ->
          setPrecision km = 8%Z)
      /\ (nearest_double 0.0382 < km <= nearest_double 0.153 ->
          setPrecision km = 7%Z)
      /\ (nearest_double 0.153 < km <= nearest_double 1.22 ->
          setPrecision km = 6%Z)
      /\ (nearest_double 1.22 < km <= nearest_double 4.89 ->
          setPrecision km = 5%Z)
      /\ (nearest_double 4.89 < km <= nearest_double 39.1 ->
          setPrecision km = 4%Z)
      /\ (nearest_double 39.1 < km <= nearest_double 156 ->
          setPrecision km = 3%Z)
      /\ (nearest_double 156 < km <= nearest_double 1250 ->
          setPrecision km = 2%Z)
      /\ (nearest_double 1250 < km -> setPrecision km = 1%Z))
  /\ (forall r1 r2 : Q, r1 <= r2 -> (setPrecision r2 <= setPrecision r1)%Z)
  /\ setPrecision (nearest_double 0.004) = 9%Z
  /\ setPrecision (nearest_double 2000) = 1%Z
  /\ (nearest_double 0.00477 < 0.00477 /\ nearest_double 0.0382 < 0.0382
      /\ nearest_double 0.153 < 0.153 /\ nearest_double 1.22 < 1.22
      /\ nearest_double 4.89 < 4.89 /\ 39.1 < nearest_double 39.1
      /\ nearest_double 156 == 156 /\ nearest_double 1250 == 1250).
Proof.
  split; [|split; [exact setPrecision_antitone|]].
  - intros km. split; [apply setPrecision_range|].
    repeat split; intros H; precision_cases km;
      first [reflexivity | exfalso; precision_bounds_in_all; lra].
  - split; [vm_compute; reflexivity|]. split; [vm_compute; reflexivity|].
    precision_bounds_in_all. repeat split; vm_compute; reflexivity.
Qed.

(** The rows of the table at one radius each, and one step down between
    two radii. *)
Lemma setPrecision_table_witness :
  setPrecision (nearest_double 0.00477) = 9%Z /\ setPrecision 1 = 6%Z
  /\ setPrecision 100 = 3%Z /\ (setPrecision 100 <= setPrecision 1)%Z.
Proof.
  destruct setPrecision_table as [rows [antitone _]].
  destruct (rows (nearest_double 0.00477)) as [_ [r9 _]].
  destruct (rows 1) as [_ [_ [_ [_ [r6 _]]]]].
  destruct (rows 100) as [_ [_ [_ [_ [_ [_ [_ [r3 _]]]]]]]].
  split; [apply r9; apply Qle_refl|].
  split; [apply r6; split; vm_compute; [reflexivity | discriminate]|].
  split; [apply r3; split; vm_compute; [reflexivity | discriminate]|].
  apply antitone. vm_compute. discriminate.
Defined.

(** The claim as stated, with the bound 39.1 itself, fails at the radius
    39.1 as the code receives it: the double is above 39.1 and at most 156,
    the row of length 3, and [setPrecision] gives 4. *)
Lemma setPrecision_at_the_double_39_1 :
  39.1 < nearest_double 39.1 /\ nearest_double 39.1 <= 156
  /\ setPrecision (nearest_double 39.1) = 4%Z.
Proof.
  split; [vm_compute; reflexivity|].
  split; [vm_compute; discriminate | vm_compute; reflexivity].
Qed.

(** ** Decoding *)

Lemma toLowerCase_idempotent (c : ascii) :
  toLowerCase (toLowerCase c) = toLowerCase c.
Proof. destruct c as [[] [] [] [] [] [] [] []]; vm_compute; reflexivity. Qed.

Lemma decode_char_toLowerCase (st : decode_state) (c : ascii) :
  decode_char st (toLowerCase c) = decode_char st c.
Proof. unfold decode_char. rewrite toLowerCase_idempotent. reflexivity. Qed.

Lemma decode_chars_toLowerCase (h : string) (st : decode_state) :
  decode_chars (toLowerCase_string h) st = decode_chars h st.
Proof.
  revert st. induction h as [|c h IH]; intros st; [reflexivity|].
  unfold decode_chars in *. simpl.
  rewrite decode_char_toLowerCase. apply IH.
Qed.

(** C10.  Every hash decodes to the bounding box, and to the point, of its
    lowercase form. *)
Theorem decode_bbox_case_insensitive :
  forall h : string,
    decode_bbox h = decode_bbox (toLowerCase_string h)
    /\ decode h = decode (toLowerCase_string h).
Proof.
  intros h. unfold decode, decode_bbox.
  rewrite decode_chars_toLowerCase. split; reflexivity.
Qed.

Lemma dict_get_unknown (c : ascii) :
  known c = false -> dict_get BASE32_CODES_DICT (toLowerCase c) = None.
Proof.
  unfold known.
  destruct c as [[] [] [] [] [] [] [] []]; vm_compute;
    first [reflexivity | discriminate].
Qed.

Lemma decode_char_unknown (st : decode_state) (c : ascii) :
  known c = false -> decode_char st c = decode_char st "0"%char.
Proof.
  intros Hc. unfold decode_char. rewrite (dict_get_unknown c Hc).
  reflexivity.
Qed.

Lemma decode_chars_zero_unknown (h : string) (st : decode_state) :
  decode_chars (zero_unknown h) st = decode_chars h st.
Proof.
  revert st. induction h as [|c h IH]; intros st; [reflexivity|].
  unfold decode_chars in *. simpl.
  destruct (known c) eqn:Hc; [apply IH|].
  rewrite <- (decode_char_unknown st c Hc). apply IH.
Qed.

(** [decode] returns for every string. *)
Lemma decode_returns (h : string) : exists point, decode h = Normal point.
Proof. unfold decode, decode_bbox. eexists. reflexivity. Qed.

(** C1, as the code has it.  Decoding never fails: it returns a bounding
    box for every string, and a character outside the alphabet is read as
    five zero bits, so the box is the one of the string with ["0"] in the
    place of every such character. *)
Theorem decode_bbox_total :
  forall h : string,
    (exists box, decode_bbox h = Normal box)
    /\ (exists point, decode h = Normal point)
    /\ decode_bbox h = decode_bbox (zero_unknown h)
    /\ decode h = decode (zero_unknown h).
Proof.
  intros h. unfold decode, decode_bbox.
  rewrite decode_chars_zero_unknown.
  repeat split; eexists; reflexivity.
Qed.

(** C1, as stated, fails on ["a"]: the letter is not one of the codes, and
    the hash decodes to the cell of ["0"]. *)
Lemma decode_bbox_unknown_character :
  outside_alphabet "a"
  /\ decode_bbox "a" = Normal (-90, -180, -45, -135)
  /\ decode_bbox "a" = decode_bbox "0"
  /\ ~ (forall h : string,
          outside_alphabet h -> exists e, decode_bbox h = Throw e).
Proof.
  assert (Ha : outside_alphabet "a").
  { exists "a"%char. split; [left; reflexivity | reflexivity]. }
  split; [exact Ha|].
  split; [reflexivity|].
  split; [reflexivity|].
  intros claim. destruct (claim "a"%string Ha) as [e He]. discriminate He.
Qed.

(** Projections of the bounds after an update. *)
Ltac bounds_cbn :=
  cbn [dec_bounds enc_bounds minLat maxLat minLon maxLon
       set_minLon set_maxLon set_minLat set_maxLat] in *.

Lemma mid_between (hi lo : Q) :
  lo <= hi -> lo <= div (add hi lo) 2 /\ div (add hi lo) 2 <= hi.
Proof. intros H. rewrite mid_spec. split; lra. Qed.

Lemma decode_bit_inside_globe (hashValue : option Z) (st : decode_state)
  (bits : Z) :
  inside_globe (dec_bounds st) ->
  inside_globe (dec_bounds (decode_bit hashValue st bits)).
Proof.
  unfold inside_globe, decode_bit.
  intros (H1 & H2 & H3 & H4 & H5 & H6).
  destruct (mid_between _ _ H2) as [Ha1 Ha2].
  destruct (mid_between _ _ H5) as [Ho1 Ho2].
  destruct (isLon st);
    destruct (bitand (sar (ToInt32_opt hashValue) bits) 1 =? 1)%Z;
    bounds_cbn; repeat split; lra.
Qed.

Lemma decode_char_inside_globe (st : decode_state) (c : ascii) :
  inside_globe (dec_bounds st) ->
  inside_globe (dec_bounds (decode_char st c)).
Proof.
  intros H. unfold decode_char. cbn [fold_left].
  repeat apply decode_bit_inside_globe. exact H.
Qed.

Lemma decode_chars_inside_globe (h : string) (st : decode_state) :
  inside_globe (dec_bounds st) ->
  inside_globe (dec_bounds (decode_chars h st)).
Proof.
  revert st. induction h as [|c h IH]; intros st H; [exact H|].
  unfold decode_chars in *. simpl.
  apply IH. apply decode_char_inside_globe. exact H.
Qed.

Lemma globe_inside_globe : inside_globe globe.
Proof. unfold inside_globe, globe. bounds_cbn. repeat split; lra. Qed.

(** C8.  Every hash decodes to a box with ordered bounds inside the globe;
    the empty hash decodes to the whole globe, with centre (0, 0) and
    errors 90 and 180. *)
Theorem decode_bbox_invariant :
  (forall h : string,
      exists minLat minLon maxLat maxLon : Q,
        decode_bbox h = Normal (minLat, minLon, maxLat, maxLon)
        /\ minLat <= maxLat /\ minLon <= maxLon
        /\ -90 <= minLat /\ maxLat <= 90
        /\ -180 <= minLon /\ maxLon <= 180)
  /\ decode_bbox "" = Normal (-90, -180, 90, 180)
  /\ decode "" =
       Normal {| latitude := 0; longitude := 0;
                 error := {| error_latitude := 90;
                             error_longitude := 180 |} |}.
Proof.
  split; [|split; reflexivity].
  intros h.
  destruct (decode_chars_inside_globe h decode_init globe_inside_globe)
    as (H1 & H2 & H3 & H4 & H5 & H6).
  unfold decode_bbox, bbox_of.
  do 4 eexists. split; [reflexivity|]. repeat split; assumption.
Qed.

(** ** Encoding against decoding *)

Lemma decode_bit_bit_step (hashValue : option Z) (st : decode_state)
  (bits : Z) :
  decode_bit hashValue st bits = bit_step (bit_at hashValue bits) st.
Proof. reflexivity. Qed.

Lemma positions_snoc (k : nat) :
  positions (S k) = map Z.succ (positions k) ++ [0%Z].
Proof.
  induction k as [|k IH]; [reflexivity|].
  change (positions (S (S k))) with (Z.of_nat (S k) :: positions (S k)).
  rewrite IH at 1. cbn [positions map app].
  rewrite Nat2Z.inj_succ. reflexivity.
Qed.

(** Small values, by enumeration from the lower bound [lo] up. *)
Ltac enumerate_Z v lo fuel :=
  lazymatch fuel with
  | O => exfalso; lia
  | S ?fuel' =>
      let E := fresh "E" in
      assert (E : v = lo \/ (lo + 1 <= v)%Z) by lia;
      destruct E as [E|E];
      [subst v
      | let n' := eval compute in (lo + 1)%Z in enumerate_Z v n' fuel']
  end.

Lemma bit_at_shift (hv b i : Z) :
  (0 <= hv < 16)%Z -> (0 <= b <= 1)%Z -> (0 <= i < 4)%Z ->
  bit_at (Some (shl hv 1 + b)%Z) (Z.succ i) = bit_at (Some hv) i.
Proof.
  intros Hhv Hb Hi.
  enumerate_Z hv 0%Z 16%nat; enumerate_Z b 0%Z 2%nat;
    enumerate_Z i 0%Z 4%nat; vm_compute; reflexivity.
Qed.

Lemma bit_at_last (hv b : Z) :
  (0 <= hv < 16)%Z -> (0 <= b <= 1)%Z ->
  bit_at (Some (shl hv 1 + b)%Z) 0 = b
  /\ (0 <= shl hv 1 + b < 2 * 2 ^ 4)%Z
  /\ (shl hv 1 + b = 2 * hv + b)%Z.
Proof.
  intros Hhv Hb.
  enumerate_Z hv 0%Z 16%nat; enumerate_Z b 0%Z 2%nat;
    vm_compute; repeat split; congruence.
Qed.

Lemma positions_range (k : nat) (i : Z) :
  In i (positions k) -> (0 <= i < Z.of_nat k)%Z.
Proof.
  induction k as [|k IH]; cbn [positions In]; [tauto|].
  intros [<- | Hi]; [lia|]. apply IH in Hi. lia.
Qed.

Lemma shifted_positions (l : list Z) (hv b : Z) (D : decode_state) :
  (0 <= hv < 16)%Z -> (0 <= b <= 1)%Z ->
  (forall i, In i l -> (0 <= i < 4)%Z) ->
  fold_left (decode_bit (Some (shl hv 1 + b)%Z)) (map Z.succ l) D
  = fold_left (decode_bit (Some hv)) l D.
Proof.
  intros Hhv Hb. revert D.
  induction l as [|i l IH]; intros D Hl; [reflexivity|].
  cbn [map fold_left].
  rewrite !decode_bit_bit_step, bit_at_shift by (auto; apply Hl; left; auto).
  apply IH. intros j Hj. apply Hl. right. exact Hj.
Qed.

(** Every value below 32 has a code, and the table maps the code back. *)
Lemma code_of_value (v : Z) :
  (0 <= v < 2 * 2 ^ 4)%Z ->
  exists c : ascii,
    char_at BASE32_CODES v = Some c
    /\ dict_get BASE32_CODES_DICT (toLowerCase c) = Some v.
Proof.
  intros Hv. change (2 * 2 ^ 4)%Z with 32%Z in Hv.
  enumerate_Z v 0%Z 32%nat;
    (eexists; split; [vm_compute; reflexivity|]); vm_compute; reflexivity.
Qed.

Lemma join_snoc (parts : list (option ascii)) (c : ascii) :
  join (parts ++ [Some c]) = (join parts ++ String c EmptyString)%string.
Proof.
  induction parts as [|[c'|] parts IH]; cbn [join app String.append];
    [reflexivity | rewrite IH; reflexivity | exact IH].
Qed.

Lemma decode_chars_app (s1 s2 : string) (st : decode_state) :
  decode_chars (s1 ++ s2) st = decode_chars s2 (decode_chars s1 st).
Proof.
  revert st. induction s1 as [|c s1 IH]; intros st; [reflexivity|].
  unfold decode_chars in *. cbn [String.append list_ascii_of_string fold_left].
  apply IH.
Qed.

Section EncodeInvariant.
Context {host : Host}.
Variables clat clon : coordinate.

Local Abbreviation emitted_bit := (CodecSpec.emitted_bit clat clon).
Local Abbreviation encode_final := (CodecSpec.encode_final clat clon).

Lemma emitted_bit_range (st : encode_state) : (0 <= emitted_bit st <= 1)%Z.
Proof.
  unfold emitted_bit.
  destruct (bitsTotal st mod 2 =? 0)%Z; destruct (gt _ _); lia.
Qed.

(** A turn of [encode] narrows the bounds as [decode] does on the bit it
    emits. *)
Lemma encode_step_bit (st : encode_state) :
  encode_step clat clon st =
  let hv := (shl (hash_value st) 1 + emitted_bit st)%Z in
  let b' := dec_bounds (bit_step (emitted_bit st) (as_decoder st)) in
  if (bits st + 1 =? 5)%Z then
    {| chars := chars st ++ [char_at BASE32_CODES hv];
       bits := 0; bitsTotal := bitsTotal st + 1; hash_value := 0;
       enc_bounds := b' |}
  else
    {| chars := chars st; bits := bits st + 1;
       bitsTotal := bitsTotal st + 1; hash_value := hv; enc_bounds := b' |}.
Proof.
  unfold encode_step, emitted_bit, bit_step, as_decoder.
  cbn [isLon dec_bounds].
  rewrite Zmod_even.
  destruct (Z.even (bitsTotal st)); cbn [Z.eqb];
    destruct (gt _ _); reflexivity.
Qed.

Lemma as_decoder_step (st : encode_state) (bit : Z) :
  bit_step bit (as_decoder st) =
  {| isLon := Z.even (bitsTotal st + 1);
     dec_bounds := dec_bounds (bit_step bit (as_decoder st)) |}.
Proof.
  unfold bit_step, as_decoder. cbn [isLon dec_bounds].
  f_equal. change (bitsTotal st + 1)%Z with (Z.succ (bitsTotal st)).
  rewrite Z.even_succ, Z.negb_even. reflexivity.
Qed.

(** Reading one more bit: the pending bits of the doubled value are the
    pending bits of the old one, followed by the new bit. *)
Lemma pending_bits_step (st : encode_state) (D : decode_state) :
  (0 <= bits st < 5)%Z ->
  (0 <= hash_value st < 2 ^ bits st)%Z ->
  fold_left (decode_bit (Some (hash_value st)))
    (positions (Z.to_nat (bits st))) D = as_decoder st ->
  fold_left (decode_bit (Some (shl (hash_value st) 1 + emitted_bit st)%Z))
    (positions (S (Z.to_nat (bits st)))) D
  = bit_step (emitted_bit st) (as_decoder st).
Proof.
  intros Hbits Hhv Hfold.
  assert (Hhv16 : (0 <= hash_value st < 16)%Z).
  { split; [lia|]. apply Z.lt_le_trans with (2 ^ bits st)%Z; [lia|].
    change 16%Z with (2 ^ 4)%Z. apply Z.pow_le_mono_r; lia. }
  pose proof (emitted_bit_range st) as Hbit.
  rewrite positions_snoc, fold_left_app.
  rewrite (shifted_positions _ _ (emitted_bit st) D Hhv16 Hbit).
  - rewrite Hfold. cbn [fold_left]. rewrite decode_bit_bit_step.
    destruct (bit_at_last _ _ Hhv16 Hbit) as [-> _]. reflexivity.
  - intros i Hi. apply positions_range in Hi. lia.
Qed.

Lemma encode_step_inv (st : encode_state) :
  encode_inv st -> encode_inv (encode_step clat clon st).
Proof.
  intros (Hbits & Htotal & Hhv & Hcodes & Hfold).
  pose proof (emitted_bit_range st) as Hbit.
  assert (Hhv16 : (0 <= hash_value st < 16)%Z).
  { split; [lia|]. apply Z.lt_le_trans with (2 ^ bits st)%Z; [lia|].
    change 16%Z with (2 ^ 4)%Z. apply Z.pow_le_mono_r; lia. }
  destruct (bit_at_last _ _ Hhv16 Hbit) as (_ & Hhv32 & Hdouble).
  pose proof (pending_bits_step st _ Hbits Hhv Hfold) as Hnext.
  rewrite encode_step_bit. cbv zeta.
  destruct (bits st + 1 =? 5)%Z eqn:Hfive.
  - apply Z.eqb_eq in Hfive.
    destruct (code_of_value _ Hhv32) as (c & Hget & Hdict).
    unfold encode_inv; cbn [chars bits bitsTotal hash_value enc_bounds].
    rewrite Hget, join_snoc, decode_chars_app, length_app.
    cbn [List.length]. repeat split; try lia.
    + apply Forall_app. split; [exact Hcodes|].
      constructor; [discriminate | constructor].
    + cbn [Z.to_nat positions fold_left].
      unfold decode_chars at 1. cbn [list_ascii_of_string fold_left].
      unfold decode_char. rewrite Hdict.
      replace (Z.to_nat (bits st)) with 4%nat in Hnext by lia.
      cbn [positions Z.of_nat Pos.of_succ_nat Pos.succ] in Hnext.
      rewrite Hnext. rewrite as_decoder_step at 1. reflexivity.
  - apply Z.eqb_neq in Hfive.
    unfold encode_inv; cbn [chars bits bitsTotal hash_value enc_bounds].
    repeat split; try lia.
    + rewrite Hdouble.
      replace (bits st + 1)%Z with (Z.succ (bits st)) by lia.
      rewrite Z.pow_succ_r by lia. lia.
    + exact Hcodes.
    + replace (Z.to_nat (bits st + 1)) with (S (Z.to_nat (bits st))) by lia.
      rewrite Hnext. rewrite as_decoder_step at 1. reflexivity.
Qed.

Lemma encode_init_inv : encode_inv encode_init.
Proof.
  unfold encode_inv, encode_init.
  cbn [chars bits bitsTotal hash_value enc_bounds List.length].
  repeat split; first [lia | constructor | reflexivity].
Qed.

(** The shape of the state after one turn. *)
Lemma encode_step_shape (st : encode_state) :
  let st' := encode_step clat clon st in
  ((bits st + 1 = 5)%Z
   /\ List.length (chars st') = S (List.length (chars st))
   /\ bits st' = 0%Z)
  \/ ((bits st + 1 <> 5)%Z
      /\ List.length (chars st') = List.length (chars st)
      /\ bits st' = (bits st + 1)%Z).
Proof.
  cbv zeta. rewrite encode_step_bit. cbv zeta.
  destruct (bits st + 1 =? 5)%Z eqn:Hfive; cbn [chars bits].
  - left. apply Z.eqb_eq in Hfive. rewrite length_app. cbn [List.length].
    repeat split; lia.
  - right. apply Z.eqb_neq in Hfive. repeat split; lia.
Qed.

(** What holds before the loop and is kept by every turn holds after it. *)
Lemma encode_loop_invariant (P : encode_state -> Prop) (n : option Z) :
  (forall st, P st -> P (encode_step clat clon st)) ->
  forall (fuel : nat) (st : encode_state),
    P st -> P (encode_loop fuel clat clon n st).
Proof.
  intros Hstep fuel. induction fuel as [|fuel IH]; intros st HP; [exact HP|].
  cbn [encode_loop]. destruct (encode_continue n st); [|exact HP].
  apply IH. apply Hstep. exact HP.
Qed.

(** With fuel for every pending bit the loop stops at its exit test, with
    the requested number of characters and no pending bit. *)
Lemma encode_loop_exits (n : Z) (fuel : nat) (st : encode_state) :
  (0 <= bits st < 5)%Z ->
  (List.length (chars st) <= Z.to_nat n)%nat ->
  (List.length (chars st) = Z.to_nat n -> bits st = 0%Z) ->
  (5 * (Z.to_nat n - List.length (chars st)) - Z.to_nat (bits st) <= fuel)%nat ->
  let st' := encode_loop fuel clat clon (Some n) st in
  List.length (chars st') = Z.to_nat n /\ bits st' = 0%Z
  /\ encode_continue (Some n) st' = false.
Proof.
  revert st. induction fuel as [|fuel IH]; intros st Hbits Hlen Hfull Hfuel.
  - cbn [encode_loop].
    assert (Heq : List.length (chars st) = Z.to_nat n) by lia.
    repeat split; [exact Heq | auto |].
    unfold encode_continue. apply Z.ltb_ge. lia.
  - cbn [encode_loop]. destruct (encode_continue (Some n) st) eqn:Hgo.
    + unfold encode_continue in Hgo. apply Z.ltb_lt in Hgo.
      destruct (encode_step_shape st) as [(H5 & Hl & Hb) | (H5 & Hl & Hb)];
        apply IH; rewrite ?Hl, ?Hb; lia.
    + pose proof Hgo as Hstop.
      unfold encode_continue in Hgo. apply Z.ltb_ge in Hgo.
      assert (Heq : List.length (chars st) = Z.to_nat n) by lia.
      repeat split; auto.
Qed.

Lemma encode_Chars (n : Z) :
  encode clat clon (Chars n) = Normal (join (chars (encode_final n))).
Proof. reflexivity. Qed.

Lemma encode_final_spec (n : Z) :
  encode_inv (encode_final n)
  /\ List.length (chars (encode_final n)) = Z.to_nat n
  /\ bits (encode_final n) = 0%Z
  /\ encode_continue (Some n) (encode_final n) = false.
Proof.
  unfold encode_final. split.
  - apply encode_loop_invariant; [exact encode_step_inv | exact encode_init_inv].
  - apply encode_loop_exits; cbn [encode_init chars bits List.length encode_fuel];
      lia.
Qed.

Lemma join_length (parts : list (option ascii)) :
  Forall (fun code => code <> None) parts ->
  String.length (join parts) = List.length parts.
Proof.
  induction 1 as [|[c|] parts Hc _ IH]; cbn [join String.length List.length];
    [reflexivity | rewrite IH; reflexivity | congruence].
Qed.

(** [encode] returns exactly the requested number of characters. *)
Lemma encode_length (n : Z) :
  String.length (join (chars (encode_final n))) = Z.to_nat n.
Proof.
  destruct (encode_final_spec n) as ((_ & _ & _ & Hcodes & _) & Hlen & _).
  rewrite join_length by exact Hcodes. exact Hlen.
Qed.

(** Decoding the hash gives back the bounds [encode] ended with. *)
Lemma decode_bbox_encode (n : Z) :
  decode_bbox (join (chars (encode_final n)))
  = Normal (bbox_of (enc_bounds (encode_final n))).
Proof.
  destruct (encode_final_spec n) as ((_ & _ & _ & _ & Hfold) & _ & Hbits & _).
  rewrite Hbits in Hfold. cbn [Z.to_nat positions fold_left] in Hfold.
  unfold decode_bbox. rewrite Hfold. reflexivity.
Qed.

Lemma encode_step_contains (la lo : Q) (st : encode_state) :
  ToNumber clat = Num la -> ToNumber clon = Num lo ->
  contains (enc_bounds st) la lo ->
  contains (enc_bounds (encode_step clat clon st)) la lo.
Proof.
  intros Hla Hlo (H1 & H2 & H3 & H4).
  assert (Hb : enc_bounds (encode_step clat clon st)
               = dec_bounds (bit_step (emitted_bit st) (as_decoder st))).
  { rewrite encode_step_bit. cbv zeta.
    destruct (bits st + 1 =? 5)%Z; reflexivity. }
  rewrite Hb. unfold emitted_bit, bit_step, as_decoder, contains.
  cbn [isLon dec_bounds]. rewrite Zmod_even, Hla, Hlo. unfold gt.
  pose proof (mid_spec (maxLat (enc_bounds st)) (minLat (enc_bounds st))).
  pose proof (mid_spec (maxLon (enc_bounds st)) (minLon (enc_bounds st))).
  destruct (Z.even (bitsTotal st)); cbn [Z.eqb];
    match goal with
    | |- context [Qgt_bool ?x ?y] =>
        destruct (Qgt_bool x y) eqn:Hgt;
        [apply Qgt_bool_true in Hgt | apply Qgt_bool_false in Hgt]
    end;
    cbn [Z.eqb Pos.eqb]; bounds_cbn; repeat split; lra.
Qed.

Lemma encode_final_contains (la lo : Q) (n : Z) :
  ToNumber clat = Num la -> ToNumber clon = Num lo ->
  -90 <= la <= 90 -> -180 <= lo <= 180 ->
  contains (enc_bounds (encode_final n)) la lo.
Proof.
  intros Hla Hlo Hlat Hlon. unfold encode_final.
  apply (encode_loop_invariant (fun st => contains (enc_bounds st) la lo)).
  - intros st. apply encode_step_contains; assumption.
  - unfold contains, encode_init, globe. bounds_cbn. repeat split; lra.
Qed.

End EncodeInvariant.

Lemma half_div (x : Q) : x / 2 == x * (1 # 2).
Proof. reflexivity. Qed.

(** C3.  For a latitude and a longitude in range and a length from 1 to 9,
    [encode] returns a hash of that length; the point [decode] returns for
    it lies within the box [decode_bbox] returns for it, and the centre of
    the box is within the returned errors of the point encoded. *)
Theorem encode_decode_roundtrip {host : Host} (lat lon : Q) (L : Z) :
  -90 <= lat <= 90 -> -180 <= lon <= 180 -> (1 <= L <= 9)%Z ->
  exists (h : string) (point : Decoded) (south west north east : Q),
    encode (CNumber (Num lat)) (CNumber (Num lon)) (Chars L) = Normal h
    /\ String.length h = Z.to_nat L
    /\ decode h = Normal point
    /\ decode_bbox h = Normal (south, west, north, east)
    /\ south <= latitude point <= north
    /\ west <= longitude point <= east
    /\ Qabs ((south + north) / 2 - lat) <= error_latitude (error point)
    /\ Qabs ((west + east) / 2 - lon) <= error_longitude (error point).
Proof.
  intros Hlat Hlon HL.
  set (clat := CNumber (Num lat)). set (clon := CNumber (Num lon)).
  destruct (encode_final_contains clat clon lat lon L eq_refl eq_refl Hlat Hlon)
    as (Hs & Hn & Hw & He).
  pose proof (decode_bbox_encode clat clon L) as Hbox.
  set (b := enc_bounds (encode_final clat clon L)) in *.
  exists (join (chars (encode_final clat clon L))).
  eexists. exists (minLat b), (minLon b), (maxLat b), (maxLon b).
  split; [apply encode_Chars|].
  split; [apply encode_length|].
  split; [unfold decode; rewrite Hbox; unfold bbox_of; cbn [bind]; reflexivity|].
  split; [exact Hbox|].
  cbn [latitude longitude error error_latitude error_longitude].
  rewrite !sub_spec, !mid_spec, !half_div.
  repeat split; try lra; apply Qabs_Qle_condition; split; lra.
Qed.

(** The round trip at latitude 37.8324, longitude 112.5584, nine
    characters. *)
Lemma encode_decode_roundtrip_witness :
  exists (h : string) (point : Decoded) (south west north east : Q),
    @encode sample_host (CNumber (Num 37.8324)) (CNumber (Num 112.5584))
      (Chars 9) = Normal h
    /\ String.length h = Z.to_nat 9
    /\ decode h = Normal point
    /\ decode_bbox h = Normal (south, west, north, east)
    /\ south <= latitude point <= north
    /\ west <= longitude point <= east
    /\ Qabs ((south + north) / 2 - 37.8324) <= error_latitude (error point)
    /\ Qabs ((west + east) / 2 - 112.5584) <= error_longitude (error point).
Proof.
  apply (@encode_decode_roundtrip sample_host 37.8324 112.5584 9);
    [split; lra | split; lra | lia].
Defined.

Example encode_sample :
  @encode sample_host (CNumber (Num 37.8324)) (CNumber (Num 112.5584))
    (Chars 9) = Normal "ww8p1r4t8"%string.
Proof. vm_compute. reflexivity. Qed.

(** ** Neighbours *)

Section EncodeEqual.
Context {host : Host}.

(** [encode] only compares its coordinates: equal numbers give the same
    hash. *)
Lemma encode_step_Qeq (la la' lo lo' : Q) (st : encode_state) :
  la == la' -> lo == lo' ->
  encode_step (CNumber (Num la)) (CNumber (Num lo)) st
  = encode_step (CNumber (Num la')) (CNumber (Num lo')) st.
Proof.
  intros Hla Hlo. unfold encode_step, ToNumber, gt, Qgt_bool.
  rewrite Hla, Hlo. reflexivity.
Qed.

Lemma encode_loop_Qeq (la la' lo lo' : Q) (n : option Z) (fuel : nat)
  (st : encode_state) :
  la == la' -> lo == lo' ->
  encode_loop fuel (CNumber (Num la)) (CNumber (Num lo)) n st
  = encode_loop fuel (CNumber (Num la')) (CNumber (Num lo')) n st.
Proof.
  intros Hla Hlo. revert st.
  induction fuel as [|fuel IH]; intros st; [reflexivity|].
  cbn [encode_loop]. destruct (encode_continue n st); [|reflexivity].
  rewrite (encode_step_Qeq la la' lo lo' st Hla Hlo). apply IH.
Qed.

Lemma encode_Qeq (la la' lo lo' : Q) (n : Z) :
  la == la' -> lo == lo' ->
  encode (CNumber (Num la)) (CNumber (Num lo)) (Chars n)
  = encode (CNumber (Num la')) (CNumber (Num lo')) (Chars n).
Proof.
  intros Hla Hlo. rewrite !encode_Chars. unfold encode_final.
  rewrite (encode_loop_Qeq la la' lo lo' _ _ _ Hla Hlo). reflexivity.
Qed.

End EncodeEqual.

(** C6.  [neighbors] returns eight hashes of the length of its argument,
    in the order N, NE, E, SE, S, SW, W, NW: each is the encoding, at that
    length, of the decoded centre moved by twice the decoded error in the
    direction (1,0), (1,1), (0,1), (-1,1), (-1,0), (-1,-1), (0,-1),
    (1,-1). *)
Theorem neighbors_spec {host : Host} (hash_string : string) :
  exists (point : Decoded) (n ne e se s sw w nw : string),
    decode hash_string = Normal point
    /\ neighbors hash_string = Normal [n; ne; e; se; s; sw; w; nw]
    /\ Forall (fun h => String.length h = String.length hash_string)
         [n; ne; e; se; s; sw; w; nw]
    /\ let lat := latitude point in
       let lon := longitude point in
       let latErr := error_latitude (error point) in
       let lonErr := error_longitude (error point) in
       let offset (latDir lonDir : Q) :=
         encode (CNumber (Num (lat + latDir * 2 * latErr)))
           (CNumber (Num (lon + lonDir * 2 * lonErr)))
           (Chars (Z.of_nat (String.length hash_string))) in
       offset 1 0 = Normal n
       /\ offset 1 1 = Normal ne
       /\ offset 0 1 = Normal e
       /\ offset (-1) 1 = Normal se
       /\ offset (-1) 0 = Normal s
       /\ offset (-1) (-1) = Normal sw
       /\ offset 0 (-1) = Normal w
       /\ offset 1 (-1) = Normal nw.
Proof.
  destruct (decode_returns hash_string) as (point & Hpoint).
  exists point. unfold neighbors. rewrite Hpoint. cbn [bind].
  set (len := Z.of_nat (String.length hash_string)).
  rewrite !encode_Chars. cbn [bind ret].
  do 8 eexists. split; [reflexivity|]. split; [reflexivity|].
  split.
  - repeat constructor; rewrite encode_length; unfold len; apply Nat2Z.id.
  - cbv zeta. repeat split; rewrite <- encode_Chars; apply encode_Qeq;
      rewrite !add_spec, !mul_spec; ring.
Qed.

Example neighbors_sample :
  @neighbors sample_host "dqcjq" =
  Normal ["dqcjw"; "dqcjx"; "dqcjr"; "dqcjp";
          "dqcjn"; "dqcjj"; "dqcjm"; "dqcjt"]%string.
Proof. vm_compute. reflexivity. Qed.

(** ** Automatic precision *)

Lemma split_nonempty (sep : ascii) (s : string) : split sep s <> [].
Proof.
  destruct s as [|c s]; cbn [split]; [discriminate|].
  destruct (Ascii.eqb c sep); [discriminate|].
  destruct (split sep s); discriminate.
Qed.

Lemma split_includes (sep : ascii) (s : string) :
  includes s sep = true ->
  exists integer decimals rest, split sep s = integer :: decimals :: rest.
Proof.
  induction s as [|c s IH]; cbn [includes split]; [discriminate|].
  destruct (Ascii.eqb c sep) eqn:Hc; cbn [orb].
  - intros _. destruct (split sep s) as [|d rest] eqn:Hs.
    + exfalso. exact (split_nonempty sep s Hs).
    + do 3 eexists. reflexivity.
  - intros Hin. destruct (IH Hin) as (i & d & rest & ->).
    do 3 eexists. reflexivity.
Qed.

Lemma decSigFigs_decimal_digits (s : string) :
  includes s "." = true ->
  decSigFigs s = Normal (Z.of_nat (decimal_digits s)).
Proof.
  intros Hin. unfold decSigFigs, decimal_digits.
  destruct (split_includes _ _ Hin) as (i & d & rest & ->). reflexivity.
Qed.

Lemma SIGFIG_HASH_LENGTH_defined (digits : nat) :
  (digits <= 10)%nat ->
  exists len : Z,
    nth_error SIGFIG_HASH_LENGTH digits = Some len /\ (0 <= len)%Z.
Proof.
  intros Hd. do 11 (destruct digits as [|digits];
    [eexists; split; [reflexivity | lia]|]). lia.
Qed.

(** X24.  With ["auto"], [encode] throws when either coordinate is a
    number.  When both are strings with a decimal point and at most ten
    characters stand between it and the end of the string or a second
    point, the hash has the length the table gives for the larger of the
    two counts. *)
Theorem encode_auto_spec {host : Host} :
  SIGFIG_HASH_LENGTH = [0; 5; 7; 8; 11; 12; 13; 15; 16; 17; 18]%Z
  /\ (forall (lat lon : coordinate),
        (exists x, lat = CNumber x) \/ (exists x, lon = CNumber x) ->
        encode lat lon ENCODE_AUTO
        = Throw (Error "string notation required for auto precision."))
  /\ (forall (slat slon : string),
        includes slat "." = true -> includes slon "." = true ->
        let digits := Nat.max (decimal_digits slat) (decimal_digits slon) in
        (digits <= 10)%nat ->
        exists h : string,
          encode (CString slat) (CString slon) ENCODE_AUTO = Normal h
          /\ nth_error SIGFIG_HASH_LENGTH digits
             = Some (Z.of_nat (String.length h))).
Proof.
  split; [reflexivity|]. split.
  - intros lat lon [[x ->] | [x ->]]; [reflexivity|].
    destruct lat; reflexivity.
  - intros slat slon Hlat Hlon digits Hdigits.
    destruct (SIGFIG_HASH_LENGTH_defined digits Hdigits) as (len & Hlen & Hpos).
    exists (join (chars (encode_final (CString slat) (CString slon) len))).
    split.
    + unfold encode.
      rewrite (decSigFigs_decimal_digits slat Hlat),
        (decSigFigs_decimal_digits slon Hlon).
      cbn [bind ret]. rewrite <- Nat2Z.inj_max, Nat2Z.id.
      fold digits. rewrite Hlen. reflexivity.
    + rewrite encode_length, Z2Nat.id by exact Hpos. exact Hlen.
Qed.

(** Four decimal digits give eleven characters; a number is refused. *)
Lemma encode_auto_spec_witness :
  (exists h : string,
      @encode sample_host (CString "37.8324") (CString "112.5584")
        ENCODE_AUTO = Normal h
      /\ nth_error SIGFIG_HASH_LENGTH 4 = Some (Z.of_nat (String.length h)))
  /\ @encode sample_host (CNumber (Num 37.8324)) (CString "112.5584")
       ENCODE_AUTO
     = Throw (Error "string notation required for auto precision.").
Proof.
  destruct (@encode_auto_spec sample_host) as (_ & numbers & strings).
  split.
  - apply (strings "37.8324" "112.5584")%string; [reflexivity | reflexivity|].
    vm_compute. lia.
  - apply numbers. left. eexists. reflexivity.
Defined.

(** C9.  The strings ["37"] and ["112"] have no decimal digit and the
    table has the length 0 for that, which [encode] gives when they end in
    a point; without the point it reads the length of a part that does not
    exist and throws. *)
Theorem encode_auto_without_decimal_point {host : Host} :
  decimal_digits "37" = 0%nat /\ decimal_digits "112" = 0%nat
  /\ nth_error SIGFIG_HASH_LENGTH 0 = Some 0%Z
  /\ encode (CString "37.") (CString "112.") ENCODE_AUTO = Normal ""%string
  /\ encode (CString "37") (CString "112") ENCODE_AUTO
     = Throw (TypeError "Cannot read properties of undefined (reading 'length')").
Proof. repeat split; reflexivity. Qed.

(** ** The search *)

Module SearchFacts.
Import GeohashService SearchSpec.
Local Open Scope js_scope.

Lemma lookup_not_own (k : string) (props : list (string * value)) :
  hasOwn k props = false -> lookup k props = VUndefined.
Proof.
  unfold hasOwn. induction props as [|[k0 v0] props IH];
    cbn [existsb lookup fst]; [reflexivity|].
  intros H. apply orb_false_iff in H as [-> H]. exact (IH H).
Qed.

(** A name that [Object.prototype] does not define is read among the own
    properties. *)
Lemma get_object_plain (r : nat) (props : list (string * value)) (k : string) :
  Object_prototype_get VObjectPrototype k = VUndefined ->
  get (VObject r props) k = Normal (lookup k props).
Proof.
  intros Hk. cbn [get]. destruct (hasOwn k props) eqn:E; [reflexivity|].
  rewrite Hk, (lookup_not_own k props E). reflexivity.
Qed.

Lemma get_ident (v : value) : is_object v -> get v "id" = Normal (ident v).
Proof. intros (r & props & ->). apply get_object_plain. reflexivity. Qed.

Lemma get_throws_TypeError (v : value) (k : string) (e : exn) :
  get v k = Throw e -> is_TypeError e.
Proof.
  destruct v; cbn [get]; intros H; inversion H; eexists; reflexivity.
Qed.

Lemma bind_Normal {A B : Type} (c : completion A) (k : A -> completion B)
  (b : B) :
  bind c k = Normal b -> exists a, c = Normal a /\ k a = Normal b.
Proof. destruct c as [a|e]; cbn [bind]; [eauto | discriminate]. Qed.

Lemma bind_Throw {A B : Type} (c : completion A) (k : A -> completion B)
  (e : exn) :
  bind c k = Throw e ->
  c = Throw e \/ exists a, c = Normal a /\ k a = Throw e.
Proof.
  destruct c as [a|e']; cbn [bind]; intros H;
    [right; eauto | left; congruence].
Qed.

Lemma getNestedKey_loop_TypeError (pList : list string) (obj fallbackVal : value)
  (e : exn) :
  getNestedKey_loop obj pList fallbackVal = Throw e -> is_TypeError e.
Proof.
  revert obj. induction pList as [|key rest IH]; intros obj; cbn [getNestedKey_loop].
  - destruct (strict_equals obj VUndefined); discriminate.
  - destruct (falsy obj || negb (typeof_object obj)); [discriminate|].
    intros H. apply bind_Throw in H as [H | (obj' & _ & H)].
    + exact (get_throws_TypeError _ _ _ H).
    + exact (IH _ H).
Qed.

Lemma getGeoPoint_TypeError (v : value) (fieldPath : string) (e : exn) :
  getGeoPoint v fieldPath = Throw e -> is_TypeError e.
Proof.
  unfold getGeoPoint, getNestedKey.
  destruct (includes fieldPath "."); intros H;
    apply bind_Throw in H as [H | (data & _ & H)];
    eauto using get_throws_TypeError, getNestedKey_loop_TypeError.
Qed.

Lemma latitude_longitude_TypeError (v : value) (fieldPath : string) (e : exn) :
  latitude_longitude v fieldPath = Throw e -> is_TypeError e.
Proof.
  unfold latitude_longitude. intros H.
  apply bind_Throw in H as [H | (gp & _ & H)];
    [exact (getGeoPoint_TypeError _ _ _ H)|].
  apply bind_Throw in H as [H | (la & _ & H)];
    [exact (get_throws_TypeError _ _ _ H)|].
  apply bind_Throw in H as [H | (lo & _ & H)];
    [exact (get_throws_TypeError _ _ _ H) | discriminate].
Qed.

(** The search reads the coordinates of a record as [coordinates_of]
    says. *)
Lemma coordinates_of_model (opts : GeoSearchOptions) (v : value) :
  coordinates_of opts v = latitude_longitude v (field opts).
Proof.
  unfold coordinates_of, latitude_longitude, getGeoPoint, field_value.
  destruct (includes (field opts) ".").
  - destruct (getNestedKey v (field opts) VUndefined); reflexivity.
  - destruct (get v (field opts)); reflexivity.
Qed.

Section Search.
Context {host : Host}.
Variable distance : value * value -> value * value -> number.
Variable opts : GeoSearchOptions.

Lemma findIndex_from_TypeError (pred : value -> completion bool)
  (arr : list value) (i : Z) (e : exn) :
  (forall v e', pred v = Throw e' -> is_TypeError e') ->
  findIndex_from pred arr i = Throw e -> is_TypeError e.
Proof.
  intros Hpred. revert i. induction arr as [|v rest IH]; intros i;
    cbn [findIndex_from]; [discriminate|].
  intros H. apply bind_Throw in H as [H | (found & _ & H)]; [eauto|].
  destruct found; [discriminate | eauto].
Qed.

Lemma within_and_first_TypeError (arr : list value) (v : value) (pos : Z)
  (e : exn) :
  within_and_first distance opts arr v pos = Throw e -> is_TypeError e.
Proof.
  unfold within_and_first. intros H.
  apply bind_Throw in H as [H | ([la lo] & _ & H)];
    [exact (latitude_longitude_TypeError _ _ _ H)|].
  destruct (le_rounded _ _); [|discriminate].
  apply bind_Throw in H as [H | (index & _ & H)]; [|discriminate].
  unfold findIndex in H. revert H. apply findIndex_from_TypeError.
  intros w e' Hw.
  apply bind_Throw in Hw as [Hw | (wid & _ & Hw)];
    [exact (get_throws_TypeError _ _ _ Hw)|].
  apply bind_Throw in Hw as [Hw | (vid & _ & Hw)];
    [exact (get_throws_TypeError _ _ _ Hw) | discriminate].
Qed.

(** A record whose coordinates cannot be read makes the filter throw. *)
Lemma filter_from_throws (arr l : list value) (pos : Z) (v : value) (e : exn) :
  In v l -> latitude_longitude v (field opts) = Throw e ->
  exists e', filter_from (within_and_first distance opts arr) l pos = Throw e'
             /\ is_TypeError e'.
Proof.
  intros Hin Hv. revert pos.
  induction l as [|w rest IH]; intros pos; [contradiction|].
  cbn [filter_from].
  destruct (within_and_first distance opts arr w pos) as [keep|e'] eqn:Hw.
  - cbn [bind]. destruct Hin as [-> | Hin].
    + unfold within_and_first in Hw. rewrite Hv in Hw. discriminate Hw.
    + destruct (IH Hin (pos + 1)%Z) as (e' & -> & He'). cbn [bind]. eauto.
  - cbn [bind]. exists e'. split; [reflexivity|].
    exact (within_and_first_TypeError _ _ _ _ Hw).
Qed.

(** A filter that returns has read the coordinates of every record. *)
Lemma filter_from_returns (arr l kept : list value) (pos : Z) :
  filter_from (within_and_first distance opts arr) l pos = Normal kept ->
  Forall (readable opts) l.
Proof.
  revert pos kept. induction l as [|w rest IH]; intros pos kept;
    [constructor|].
  cbn [filter_from]. intros H.
  apply bind_Normal in H as (keep & Hw & H).
  apply bind_Normal in H as (kept' & Hrest & _).
  constructor; [|exact (IH _ _ Hrest)].
  unfold within_and_first in Hw.
  apply bind_Normal in Hw as (c & Hc & _). exists c.
  rewrite coordinates_of_model. exact Hc.
Qed.

Lemma select_returns (arr : list value) (out : list GeoSearchResult) :
  select distance opts arr = Normal out -> Forall (readable opts) arr.
Proof.
  unfold select. intros H. apply bind_Normal in H as (kept & Hkept & _).
  exact (filter_from_returns arr arr kept 0%Z Hkept).
Qed.

Lemma select_throws (arr : list value) (v : value) (e : exn) :
  In v arr -> latitude_longitude v (field opts) = Throw e ->
  exists e', select distance opts arr = Throw e' /\ is_TypeError e'.
Proof.
  intros Hin Hv. unfold select.
  destruct (filter_from_throws arr arr 0%Z v e Hin Hv) as (e' & -> & He').
  cbn [bind]. eauto.
Qed.

End Search.

Lemma get_nullish (v : value) (k : string) :
  nullish v -> exists e, get v k = Throw e /\ is_TypeError e.
Proof.
  intros [-> | ->]; cbn [get]; eexists; (split; [reflexivity|]);
    eexists; reflexivity.
Qed.

(** Without a geo point to read, reading the coordinates throws. *)
Lemma latitude_longitude_missing (v data : value) (fieldPath : string) :
  field_value v fieldPath = Normal data ->
  nullish data
  \/ (exists geopoint, get data "geopoint" = Normal geopoint
                       /\ nullish geopoint) ->
  exists e, latitude_longitude v fieldPath = Throw e /\ is_TypeError e.
Proof.
  unfold field_value, latitude_longitude, getGeoPoint.
  intros Hdata Hmissing.
  assert (Hgp : (exists e, (data <- (if includes fieldPath "."
                                     then getNestedKey v fieldPath VUndefined
                                     else get v fieldPath) ;;
                            get data "geopoint") = Throw e /\ is_TypeError e)
                \/ exists geopoint,
                     (data <- (if includes fieldPath "."
                               then getNestedKey v fieldPath VUndefined
                               else get v fieldPath) ;;
                      get data "geopoint") = Normal geopoint
                     /\ nullish geopoint).
  { destruct (includes fieldPath "."); rewrite Hdata; cbn [bind];
      (destruct Hmissing as [Hnull | (gp & Hgp & Hnull)];
       [left; exact (get_nullish _ _ Hnull) | right; eauto]). }
  destruct (includes fieldPath ".");
    (destruct Hgp as [(e & -> & He) | (gp & -> & Hnull)]; cbn [bind];
     [eauto|];
     destruct (get_nullish gp "latitude" Hnull) as (e & -> & He);
     cbn [bind]; eauto).
Qed.

(** *** Sorting by distance *)

Section Sorting.
Context {A : Type}.
Variable key : A -> number.
Variable pos : A -> nat.

Local Abbreviation cmp := (SearchSpec.cmp key).
Local Abbreviation finite := (SearchSpec.finite key).
Local Abbreviation before := (SearchSpec.before key pos).

Lemma cmp_gt (a b : A) (x y : Q) :
  key a = Num x -> key b = Num y ->
  gt (cmp a b) 0 = true <-> y < x.
Proof.
  intros Ha Hb. unfold cmp. rewrite Ha, Hb. cbn [minus gt].
  rewrite Qgt_bool_true, sub_spec. split; intros H; lra.
Qed.

Lemma insert_perm (x : A) (l : list A) : Permutation (insert cmp x l) (x :: l).
Proof.
  induction l as [|y l IH]; cbn [insert]; [reflexivity|].
  destruct (gt (cmp x y) 0); [|reflexivity].
  rewrite IH. apply perm_swap.
Qed.

Lemma sort_perm (l : list A) : Permutation (sort cmp l) l.
Proof.
  induction l as [|x l IH]; cbn [sort fold_right]; [reflexivity|].
  fold (sort cmp l). rewrite insert_perm, IH. reflexivity.
Qed.

Lemma insert_sorted (x : A) (l : list A) :
  finite x -> Forall finite l ->
  Forall (fun y => (pos x < pos y)%nat) l ->
  StronglySorted before l ->
  StronglySorted before (insert cmp x l).
Proof.
  intros (qx & Hx) Hfin Hpos Hsorted.
  induction Hsorted as [|y l Hsorted IH Hy]; cbn [insert].
  - constructor; constructor.
  - inversion Hfin as [|? ? (qy & Hqy) Hfin']; subst.
    inversion Hpos as [|? ? Hxy Hpos']; subst.
    destruct (gt (cmp x y) 0) eqn:Hgt.
    + apply (cmp_gt x y qx qy Hx Hqy) in Hgt.
      constructor; [exact (IH Hfin' Hpos')|].
      apply (Permutation_Forall (Permutation_sym (insert_perm x l))).
      constructor; [|exact Hy].
      exists qy, qx. auto.
    + assert (Hle : qx <= qy).
      { apply Qnot_lt_le. intros Hlt.
        apply (cmp_gt x y qx qy Hx Hqy) in Hlt. congruence. }
      constructor; [constructor; assumption|].
      constructor.
      * exists qx, qy. repeat split; auto.
        destruct (Qlt_le_dec qx qy) as [Hlt|Hge]; [left; exact Hlt|].
        right. split; [lra | exact Hxy].
      * rewrite Forall_forall in *. intros z Hz.
        destruct (Hy z Hz) as (qy' & qz & Hqy' & Hqz & Horder).
        rewrite Hqy in Hqy'. inversion Hqy'; subst qy'.
        exists qx, qz. repeat split; auto.
        destruct (Qlt_le_dec qx qz) as [Hlt|Hge]; [left; exact Hlt|].
        right. split; [|exact (Hpos' z Hz)].
        destruct Horder as [Hyz | [Hyz _]]; lra.
Qed.

Lemma sort_sorted (l : list A) :
  Forall finite l ->
  StronglySorted (fun a b => (pos a < pos b)%nat) l ->
  StronglySorted before (sort cmp l).
Proof.
  intros Hfin Hpos.
  induction Hpos as [|x l Hpos IH Hx]; cbn [sort fold_right]; [constructor|].
  fold (sort cmp l). inversion Hfin as [|? ? Hfx Hfin']; subst.
  apply insert_sorted; auto.
  - exact (Permutation_Forall (Permutation_sym (sort_perm l)) Hfin').
  - exact (Permutation_Forall (Permutation_sym (sort_perm l)) Hx).
Qed.

End Sorting.

(** Sorting tagged elements and forgetting the tags is sorting the
    elements. *)
Lemma sort_map {A B : Type} (f : B -> A) (compareFn : A -> A -> number)
  (l : list B) :
  map f (sort (fun a b => compareFn (f a) (f b)) l) = sort compareFn (map f l).
Proof.
  induction l as [|x l IH]; [reflexivity|].
  cbn [sort fold_right map].
  fold (sort (fun a b => compareFn (f a) (f b)) l).
  fold (sort compareFn (map f l)). rewrite <- IH.
  generalize (sort (fun a b => compareFn (f a) (f b)) l) as s.
  induction s as [|y s IHs]; cbn [insert map]; [reflexivity|].
  destruct (gt (compareFn (f x) (f y)) 0); cbn [map]; [|reflexivity].
  rewrite IHs. reflexivity.
Qed.

(** *** The filter, without its effects *)

Lemma findIndex_from_pure (pred : value -> completion bool)
  (p : value -> bool) (arr : list value) (i : Z) :
  (forall v, In v arr -> pred v = Normal (p v)) ->
  findIndex_from pred arr i = Normal (first_index_from p arr i).
Proof.
  revert i. induction arr as [|v rest IH]; intros i Hpred; [reflexivity|].
  cbn [findIndex_from first_index_from].
  rewrite (Hpred v (or_introl eq_refl)). cbn [bind].
  destruct (p v); [reflexivity|].
  apply IH. intros w Hw. apply Hpred. right. exact Hw.
Qed.

Lemma first_index_from_bound (p : value -> bool) (arr : list value) (i : Z) :
  first_index_from p arr i = (-1)%Z \/ (i <= first_index_from p arr i)%Z.
Proof.
  revert i. induction arr as [|v rest IH]; intros i; cbn [first_index_from];
    [left; reflexivity|].
  destruct (p v); [right; lia|].
  destruct (IH (i + 1)%Z) as [-> | H]; [left; reflexivity | right; lia].
Qed.

(** [findIndex] returns a position exactly when the callback holds there
    and nowhere before. *)
Lemma first_index_from_spec (p : value -> bool) (arr : list value) (i : Z)
  (pos : nat) (v : value) :
  (0 <= i)%Z -> nth_error arr pos = Some v ->
  first_index_from p arr i = (i + Z.of_nat pos)%Z
  <-> p v = true
      /\ forall j w, (j < pos)%nat -> nth_error arr j = Some w -> p w = false.
Proof.
  revert i pos. induction arr as [|a rest IH]; intros i pos Hi Hnth.
  - destruct pos; discriminate Hnth.
  - cbn [first_index_from]. destruct pos as [|pos]; cbn [nth_error] in Hnth.
    + inversion Hnth; subst a. destruct (p v) eqn:Hpv.
      * split; [intros _ | intros _; lia].
        split; [reflexivity | intros j w Hj; lia].
      * split; [|intros [H _]; discriminate H].
        intros H. exfalso.
        destruct (first_index_from_bound p rest (i + 1)%Z) as [Hb|Hb]; lia.
    + destruct (p a) eqn:Hpa.
      * split; [intros H; lia|].
        intros [_ Hbefore]. specialize (Hbefore 0%nat a).
        cbn [nth_error] in Hbefore. rewrite Hbefore in Hpa by (auto; lia).
        discriminate Hpa.
      * replace (i + Z.of_nat (S pos))%Z with (i + 1 + Z.of_nat pos)%Z by lia.
        rewrite (IH (i + 1)%Z pos) by (auto; lia).
        split; intros [Hpv Hbefore]; (split; [exact Hpv|]).
        -- intros [|j] w Hj Hw; cbn [nth_error] in Hw.
           ++ inversion Hw; subst w. exact Hpa.
           ++ apply (Hbefore j w); [lia | exact Hw].
        -- intros j w Hj Hw. apply (Hbefore (S j) w); [lia | exact Hw].
Qed.

Lemma filter_from_pure (f : value -> Z -> completion bool)
  (keep : nat -> value -> bool) (l : list value) (pos : nat) :
  (forall i v, nth_error l i = Some v ->
               f v (Z.of_nat (pos + i)) = Normal (keep (pos + i)%nat v)) ->
  filter_from f l (Z.of_nat pos) = Normal (map snd (kept_from keep l pos)).
Proof.
  revert pos. induction l as [|v rest IH]; intros pos Hf; [reflexivity|].
  cbn [filter_from kept_from].
  pose proof (Hf 0%nat v eq_refl) as Hv. rewrite Nat.add_0_r in Hv.
  rewrite Hv. cbn [bind].
  replace (Z.of_nat pos + 1)%Z with (Z.of_nat (S pos)) by lia.
  rewrite IH.
  - cbn [bind ret]. destruct (keep pos v); reflexivity.
  - intros i w Hw. specialize (Hf (S i) w Hw).
    rewrite Nat.add_succ_r in Hf. exact Hf.
Qed.

Lemma kept_from_In (keep : nat -> value -> bool) (l : list value)
  (pos p : nat) (v : value) :
  In (p, v) (kept_from keep l pos)
  <-> exists i, p = (pos + i)%nat /\ nth_error l i = Some v
                /\ keep p v = true.
Proof.
  revert pos. induction l as [|a rest IH]; intros pos; cbn [kept_from].
  - split; [contradiction | intros ([|i] & _ & H & _); discriminate H].
  - assert (Hrest : In (p, v) (kept_from keep rest (S pos))
                    <-> exists i, p = (pos + S i)%nat
                                  /\ nth_error rest i = Some v
                                  /\ keep p v = true).
    { rewrite IH. split; intros (i & Hp & H); exists i;
        (split; [lia | exact H]). }
    destruct (keep pos a) eqn:Hk; cbn [In]; rewrite ?Hrest; split.
    + intros [H | (i & Hp & Hn & Hkv)].
      * inversion H; subst. exists 0%nat. rewrite Nat.add_0_r. auto.
      * exists (S i). auto.
    + intros ([|i] & Hp & Hn & Hkv); cbn [nth_error] in Hn.
      * left. inversion Hn; subst. rewrite Nat.add_0_r. reflexivity.
      * right. exists i. auto.
    + intros (i & Hp & Hn & Hkv). exists (S i). auto.
    + intros ([|i] & Hp & Hn & Hkv); cbn [nth_error] in Hn.
      * inversion Hn; subst. rewrite Nat.add_0_r in Hkv. congruence.
      * exists i. auto.
Qed.

Lemma kept_from_increasing (keep : nat -> value -> bool) (l : list value)
  (pos : nat) :
  StronglySorted (fun a b => (fst a < fst b)%nat) (kept_from keep l pos).
Proof.
  revert pos. induction l as [|a rest IH]; intros pos; cbn [kept_from];
    [constructor|].
  destruct (keep pos a); [|apply IH].
  constructor; [apply IH|].
  apply Forall_forall. intros [p v] Hin.
  apply kept_from_In in Hin as (i & -> & _). cbn [fst]. lia.
Qed.

Lemma increasing_NoDup {B : Type} (l : list (nat * B)) :
  StronglySorted (fun a b => (fst a < fst b)%nat) l -> NoDup (map fst l).
Proof.
  induction 1 as [|a l _ IH Ha]; cbn [map]; constructor; [|exact IH].
  rewrite in_map_iff. intros (b & Hb & Hin).
  rewrite Forall_forall in Ha. specialize (Ha b Hin). lia.
Qed.

(** *** What the search keeps *)

Section Selection.
Context {host : Host}.
Variable distance : value * value -> value * value -> number.
Variable opts : GeoSearchOptions.

Local Abbreviation distance_to := (SearchSpec.distance_to distance opts).
Local Abbreviation within := (SearchSpec.within distance opts).
Local Abbreviation retained := (SearchSpec.retained distance opts).
Local Abbreviation keep := (SearchSpec.keep distance opts).
Local Abbreviation readable := (SearchSpec.readable opts).
Local Abbreviation recorded_distance :=
  (SearchSpec.recorded_distance distance opts).
Local Abbreviation tag := (SearchSpec.tag distance opts).
Local Abbreviation tagged_results := (SearchSpec.tagged_results distance opts).

Lemma within_and_first_keep (arr : list value) (v : value) (pos : nat) :
  Forall is_object arr -> is_object v -> readable v ->
  within_and_first distance opts arr v (Z.of_nat pos)
  = Normal (keep arr pos v).
Proof.
  intros Hobj Hv ([la lo] & Hc).
  unfold within_and_first, keep, distance_to, buffer, centre,
    center_coordinates.
  rewrite Hc. rewrite coordinates_of_model in Hc. rewrite Hc.
  cbn [bind ret].
  destruct (le_rounded _ _); cbn [andb]; [|reflexivity].
  unfold findIndex.
  rewrite (findIndex_from_pure _ (fun w => same_id w v)); [reflexivity|].
  intros w Hw. rewrite Forall_forall in Hobj.
  rewrite (get_ident w (Hobj w Hw)), (get_ident v Hv). reflexivity.
Qed.

Lemma le_rounded_at_most (d : Q) (bound : rounded) :
  le_rounded (Num d) bound = true <-> at_most d bound.
Proof.
  destruct bound as [q|[|]]; cbn [le_rounded at_most negb].
  - apply Qle_bool_iff.
  - split; discriminate.
  - split; reflexivity.
Qed.

Lemma keep_spec (arr : list value) (pos : nat) (v : value) :
  nth_error arr pos = Some v ->
  keep arr pos v = true <-> first_occurrence arr pos v /\ within v.
Proof.
  intros Hnth. unfold keep, first_occurrence, within.
  pose proof (first_index_from_spec (fun w => same_id w v) arr 0 pos v
                (Z.le_refl 0) Hnth) as Hfirst.
  rewrite Z.add_0_l in Hfirst.
  destruct (distance_to v) as [[|d]|e].
  - cbn [le_rounded andb]. split; [discriminate|].
    intros (_ & d & Hd & _). discriminate Hd.
  - rewrite andb_true_iff, le_rounded_at_most, Z.eqb_eq, Hfirst.
    split.
    + intros (Hd & Hid & Hbefore). repeat split; auto. exists d. auto.
    + intros ((_ & Hid & Hbefore) & d' & Hd' & Hle).
      inversion Hd'; subst d'. auto.
  - split; [discriminate|]. intros (_ & d & Hd & _). discriminate Hd.
Qed.

Lemma annotate_pure (v : value) :
  readable v ->
  annotate distance opts v
  = Normal {| val := v; geoMetadata_distance := recorded_distance v |}.
Proof.
  intros ([la lo] & Hc). unfold annotate, recorded_distance, distance_to.
  rewrite Hc. rewrite coordinates_of_model in Hc. rewrite Hc. reflexivity.
Qed.

Lemma map_c_pure {A B : Type} (f : A -> completion B) (g : A -> B)
  (l : list A) :
  (forall a, In a l -> f a = Normal (g a)) -> map_c f l = Normal (map g l).
Proof.
  induction l as [|a l IH]; intros Hf; [reflexivity|].
  cbn [map_c map]. rewrite (Hf a (or_introl eq_refl)). cbn [bind].
  rewrite IH by (intros b Hb; apply Hf; right; exact Hb). reflexivity.
Qed.

Lemma select_pure (arr : list value) :
  Forall is_object arr -> Forall readable arr ->
  select distance opts arr = Normal (map snd (tagged_results arr)).
Proof.
  intros Hobj Hread. unfold select, tagged_results.
  rewrite (filter_from_pure _ (keep arr) arr 0).
  - cbn [bind].
    rewrite (map_c_pure _ (fun v => {| val := v;
                                       geoMetadata_distance :=
                                         recorded_distance v |})).
    + cbn [bind ret]. rewrite sort_map, map_map, map_map. reflexivity.
    + intros v Hv. apply annotate_pure.
      apply in_map_iff in Hv as ([p w] & <- & Hin).
      apply kept_from_In in Hin as (i & _ & Hnth & _).
      rewrite Forall_forall in Hread. apply Hread.
      exact (nth_error_In _ _ Hnth).
  - intros i v Hnth. cbn [Nat.add].
    pose proof (nth_error_In _ _ Hnth) as Hin.
    rewrite Forall_forall in Hobj, Hread.
    apply within_and_first_keep; auto. apply Forall_forall. exact Hobj.
Qed.

Lemma tagged_results_perm (arr : list value) :
  Permutation (tagged_results arr) (map tag (kept_from (keep arr) arr 0)).
Proof. apply sort_perm. Qed.

Lemma tagged_results_In (arr : list value) (p : nat) (r : GeoSearchResult) :
  In (p, r) (tagged_results arr)
  <-> nth_error arr p = Some (val r) /\ keep arr p (val r) = true
      /\ geoMetadata_distance r = recorded_distance (val r).
Proof.
  split.
  - intros Hin.
    apply (Permutation_in _ (tagged_results_perm arr)) in Hin.
    apply in_map_iff in Hin as ([q v] & Htag & Hin).
    unfold tag in Htag. cbn [fst snd] in Htag. inversion Htag; subst.
    apply kept_from_In in Hin as (i & -> & Hnth & Hkeep).
    cbn [val geoMetadata_distance]. auto.
  - intros (Hnth & Hkeep & Hd).
    apply (Permutation_in _ (Permutation_sym (tagged_results_perm arr))).
    apply in_map_iff. exists (p, val r). split.
    + unfold tag. cbn [fst snd]. destruct r as [v d].
      cbn [val geoMetadata_distance] in *. subst d. reflexivity.
    + apply kept_from_In. exists p. auto.
Qed.

Lemma keep_finite (arr : list value) (p : nat) (v : value) :
  keep arr p v = true -> exists q, recorded_distance v = Num q.
Proof.
  unfold keep, recorded_distance.
  destruct (distance_to v) as [[|q]|e]; cbn [le_rounded andb];
    try discriminate.
  intros _. exists q. reflexivity.
Qed.

(** The search on readable records: exactly the retained positions, each
    once, in order of distance and then of position. *)
Lemma select_spec (arr : list value) :
  Forall is_object arr -> Forall readable arr ->
  exists tagged : list (nat * GeoSearchResult),
    select distance opts arr = Normal (map snd tagged)
    /\ (forall p r, In (p, r) tagged ->
                    nth_error arr p = Some (val r)
                    /\ distance_to (val r) = Normal (geoMetadata_distance r))
    /\ (forall p, In p (map fst tagged) <-> retained arr p)
    /\ NoDup (map fst tagged)
    /\ StronglySorted ordered tagged.
Proof.
  intros Hobj Hread. exists (tagged_results arr).
  split; [exact (select_pure arr Hobj Hread)|].
  split; [|split; [|split]].
  - intros p r Hin. apply tagged_results_In in Hin as (Hnth & Hkeep & Hd).
    split; [exact Hnth|]. rewrite Hd. unfold recorded_distance.
    unfold keep in Hkeep. destruct (distance_to (val r)); [reflexivity|].
    discriminate Hkeep.
  - intros p. rewrite in_map_iff. unfold retained. split.
    + intros ([q r] & <- & Hin). cbn [fst].
      apply tagged_results_In in Hin as (Hnth & Hkeep & _).
      exists (val r). apply (keep_spec arr q (val r) Hnth). exact Hkeep.
    + intros (v & Hfirst & Hwithin).
      exists (p, {| val := v; geoMetadata_distance := recorded_distance v |}).
      split; [reflexivity|]. apply tagged_results_In.
      cbn [val geoMetadata_distance]. destruct Hfirst as (Hnth & Hrest).
      repeat split; auto. apply (keep_spec arr p v Hnth).
      split; [split; assumption | exact Hwithin].
  - apply (Permutation_NoDup
             (Permutation_map fst (Permutation_sym (tagged_results_perm arr)))).
    apply increasing_NoDup.
    assert (Hinc := kept_from_increasing (keep arr) arr 0).
    induction Hinc as [|a l _ IH Ha]; cbn [map]; constructor; [exact IH|].
    rewrite Forall_map. exact Ha.
  - unfold tagged_results, ordered. apply sort_sorted.
    + apply Forall_forall. intros [p r] Hin.
      apply in_map_iff in Hin as ([q v] & Htag & Hin).
      unfold tag in Htag. inversion Htag; subst.
      apply kept_from_In in Hin as (i & _ & _ & Hkeep).
      unfold finite. cbn [snd geoMetadata_distance fst].
      exact (keep_finite arr _ v Hkeep).
    + assert (Hinc := kept_from_increasing (keep arr) arr 0).
      induction Hinc as [|a l _ IH Ha]; cbn [map]; constructor; [exact IH|].
      rewrite Forall_map. exact Ha.
Qed.

(** The store only hands out objects. *)
Lemma snapToData_objects (docs : list QueryDocumentSnapshot) :
  Forall is_object (snapToData docs).
Proof.
  unfold snapToData. apply Forall_map, Forall_forall.
  intros d _. do 2 eexists. reflexivity.
Qed.

Lemma fold_left_app_Forall {A : Type} (P : A -> Prop) (ls : list (list A))
  (acc : list A) :
  Forall (Forall P) ls -> Forall P acc ->
  Forall P (fold_left (fun acc curr => acc ++ curr) ls acc).
Proof.
  revert acc. induction ls as [|l ls IH]; intros acc Hls Hacc; [exact Hacc|].
  cbn [fold_left]. inversion Hls; subst.
  apply IH; [assumption|]. apply Forall_app. auto.
Qed.

Lemma reduced_objects (fsQuery : FirestoreQuery) (arr : list value) :
  reduced fsQuery opts = Normal arr -> Forall is_object arr.
Proof.
  unfold reduced. intros H.
  apply bind_Normal in H as (cells & _ & H).
  apply bind_Normal in H as (queries & Hall & H).
  inversion H; subst arr. clear H.
  apply fold_left_app_Forall; [|constructor].
  revert queries Hall. induction cells as [|hash cells IH]; intros queries;
    cbn [map Promise_all].
  - intros H. inversion H. constructor.
  - intros H. apply bind_Normal in H as (q & Hq & H).
    apply bind_Normal in H as (others & Hothers & H). inversion H; subst.
    constructor; [|exact (IH _ Hothers)].
    apply bind_Normal in Hq as (snap & _ & Hq). inversion Hq.
    apply snapToData_objects.
Qed.

End Selection.

(** *** The scenario with three records *)

Lemma Permutation_3 {A : Type} (a b c : A) (l : list A) :
  a <> b -> a <> c -> b <> c -> Permutation [a; b; c] l ->
  l = [a; b; c] \/ l = [a; c; b] \/ l = [b; a; c]
  \/ l = [b; c; a] \/ l = [c; a; b] \/ l = [c; b; a].
Proof.
  intros Hab Hac Hbc Hperm.
  pose proof (Permutation_length Hperm) as Hlen.
  destruct l as [|x [|y [|z [|? ?]]]]; try discriminate Hlen.
  assert (Hnd : NoDup [x; y; z]).
  { apply (Permutation_NoDup Hperm).
    repeat constructor; cbn [In]; intuition congruence. }
  inversion Hnd as [|? ? Hx Hnd']; subst.
  inversion Hnd' as [|? ? Hy _]; subst. cbn [In] in Hx, Hy.
  assert (Hin : forall w, In w [x; y; z] -> In w [a; b; c]).
  { intros w. apply (Permutation_in w (Permutation_sym Hperm)). }
  pose proof (Hin x (or_introl eq_refl)) as Hx'.
  pose proof (Hin y (or_intror (or_introl eq_refl))) as Hy'.
  pose proof (Hin z (or_intror (or_intror (or_introl eq_refl)))) as Hz'.
  cbn [In] in Hx', Hy', Hz'.
  destruct Hx' as [<-|[<-|[<-|[]]]]; destruct Hy' as [<-|[<-|[<-|[]]]];
    destruct Hz' as [<-|[<-|[<-|[]]]];
    first [exfalso; tauto | tauto].
Qed.

Section Scenario.
Context {host : Host}.
Variable distance : value * value -> value * value -> number.
Variable opts : GeoSearchOptions.
Variables r1 r2 r3 : value.
Variables d1 d2 d3 : Q.
Hypothesis radius_3 : radius opts == 3.
Hypothesis ids : distinct_ids [r1; r2; r3].
Hypothesis at_d1 : distance_to distance opts r1 = Normal (Num d1).
Hypothesis at_d2 : distance_to distance opts r2 = Normal (Num d2).
Hypothesis at_d3 : distance_to distance opts r3 = Normal (Num d3).
Hypothesis d1_half : d1 == 0.5.
Hypothesis d2_two : d2 == 2.
Hypothesis d3_ten : d3 == 10.

Lemma distance_to_readable (v : value) (d : number) :
  distance_to distance opts v = Normal d -> readable opts v.
Proof.
  unfold distance_to, readable. intros H.
  apply bind_Normal in H as (c & Hc & _). eauto.
Qed.

(** The buffer of a radius of 3 km: the double 3.0300000000000002. *)
Lemma buffer_three :
  buffer opts = Finite (3411476717733151 # 1125899906842624).
Proof.
  unfold buffer.
  rewrite (round_double_Qeq _ (3 * nearest_double 1.01))
    by (rewrite radius_3; reflexivity).
  vm_compute. reflexivity.
Qed.

Lemma tagged_results_three (arr : list value) :
  Permutation [r1; r2; r3] arr ->
  map snd (tagged_results distance opts arr)
  = [ {| val := r1; geoMetadata_distance := Num d1 |};
      {| val := r2; geoMetadata_distance := Num d2 |} ].
Proof.
  intros Hperm.
  pose proof (ids 0%nat 0%nat r1 r1 eq_refl eq_refl) as S11.
  pose proof (ids 0%nat 1%nat r1 r2 eq_refl eq_refl) as S12.
  pose proof (ids 0%nat 2%nat r1 r3 eq_refl eq_refl) as S13.
  pose proof (ids 1%nat 0%nat r2 r1 eq_refl eq_refl) as S21.
  pose proof (ids 1%nat 1%nat r2 r2 eq_refl eq_refl) as S22.
  pose proof (ids 1%nat 2%nat r2 r3 eq_refl eq_refl) as S23.
  pose proof (ids 2%nat 0%nat r3 r1 eq_refl eq_refl) as S31.
  pose proof (ids 2%nat 1%nat r3 r2 eq_refl eq_refl) as S32.
  pose proof (ids 2%nat 2%nat r3 r3 eq_refl eq_refl) as S33.
  cbn [Nat.eqb] in *.
  pose proof buffer_three as B.
  assert (L1 : le_rounded (Num d1) (buffer opts) = true).
  { rewrite B. cbn [le_rounded]. apply Qle_bool_iff. lra. }
  assert (L2 : le_rounded (Num d2) (buffer opts) = true).
  { rewrite B. cbn [le_rounded]. apply Qle_bool_iff. lra. }
  assert (L3 : le_rounded (Num d3) (buffer opts) = false).
  { rewrite B. cbn [le_rounded]. apply Qle_bool_false. lra. }
  clear B.
  assert (G12 : gt (minus (Num d1) (Num d2)) 0 = false).
  { cbn [minus gt]. apply Qgt_bool_false. rewrite sub_spec. lra. }
  assert (G21 : gt (minus (Num d2) (Num d1)) 0 = true).
  { cbn [minus gt]. apply Qgt_bool_true. rewrite sub_spec. lra. }
  assert (N12 : r1 <> r2) by (intros E; rewrite E in S12; congruence).
  assert (N13 : r1 <> r3) by (intros E; rewrite E in S13; congruence).
  assert (N23 : r2 <> r3) by (intros E; rewrite E in S23; congruence).
  unfold tagged_results.
  destruct (Permutation_3 r1 r2 r3 arr N12 N13 N23 Hperm)
    as [-> | [-> | [-> | [-> | [-> | ->]]]]];
    cbn [kept_from]; unfold keep;
    rewrite ?at_d1, ?at_d2, ?at_d3, ?L1, ?L2, ?L3;
    cbn [first_index_from andb];
    rewrite ?S11, ?S12, ?S13, ?S21, ?S22, ?S23, ?S31, ?S32, ?S33;
    cbn [Z.of_nat Pos.of_succ_nat Pos.succ Z.add Z.eqb Pos.eqb Pos.add];
    unfold tag, by_distance, recorded_distance;
    repeat (progress
              (cbn [map fst snd sort fold_right insert geoMetadata_distance];
               rewrite ?at_d1, ?at_d2, ?at_d3, ?G12, ?G21));
    reflexivity.
Qed.

Lemma select_three (arr : list value) :
  Forall is_object arr -> Permutation [r1; r2; r3] arr ->
  select distance opts arr
  = Normal [ {| val := r1; geoMetadata_distance := Num d1 |};
             {| val := r2; geoMetadata_distance := Num d2 |} ].
Proof.
  intros Hobj Hperm.
  rewrite select_pure, (tagged_results_three arr Hperm);
    [reflexivity | exact Hobj|].
  apply (Permutation_Forall Hperm).
  repeat constructor; eauto using distance_to_readable.
Qed.

End Scenario.

(** *** The claims on the search *)

(** C5, as the code has it.  A search whose queries succeed returns
    exactly when the coordinates of every candidate can be read, and then
    it returns the candidates that are the first with their identifier
    (compared with [===]) and whose distance from the centre is at most the
    product of the radius and 1.01 in double precision, each once, with its
    distance, closest first and equally close ones in their original order.
    For three records at 0.5 km, 2 km and 10 km and a radius of 3 km that is
    the record at 0.5 km, then the record at 2 km. *)
Theorem performSearch_spec :
  (forall (host : Host) (distance : value * value -> value * value -> number)
          (fsQuery : FirestoreQuery) (opts : GeoSearchOptions)
          (arr : list value),
      reduced fsQuery opts = Normal arr ->
      (forall out, performSearch distance fsQuery opts = Normal out ->
                   Forall (readable opts) arr)
      /\ (Forall (readable opts) arr ->
          exists tagged : list (nat * GeoSearchResult),
            performSearch distance fsQuery opts = Normal (map snd tagged)
            /\ (forall p r, In (p, r) tagged ->
                            nth_error arr p = Some (val r)
                            /\ distance_to distance opts (val r)
                               = Normal (geoMetadata_distance r))
            /\ (forall p, In p (map fst tagged)
                          <-> retained distance opts arr p)
            /\ NoDup (map fst tagged)
            /\ StronglySorted ordered tagged))
  /\ (forall (host : Host) (distance : value * value -> value * value -> number)
             (fsQuery : FirestoreQuery) (opts : GeoSearchOptions)
             (arr : list value) (r1 r2 r3 : value) (d1 d2 d3 : Q),
         radius opts == 3 ->
         reduced fsQuery opts = Normal arr ->
         Permutation [r1; r2; r3] arr ->
         distinct_ids [r1; r2; r3] ->
         distance_to distance opts r1 = Normal (Num d1) -> d1 == 0.5 ->
         distance_to distance opts r2 = Normal (Num d2) -> d2 == 2 ->
         distance_to distance opts r3 = Normal (Num d3) -> d3 == 10 ->
         performSearch distance fsQuery opts
         = Normal [ {| val := r1; geoMetadata_distance := Num d1 |};
                    {| val := r2; geoMetadata_distance := Num d2 |} ]).
Proof.
  split.
  - intros host distance fsQuery opts arr Hred.
    unfold performSearch. rewrite Hred. cbn [bind]. split.
    + intros out. apply select_returns.
    + intros Hread.
      apply select_spec; [exact (reduced_objects opts fsQuery arr Hred)|].
      exact Hread.
  - intros host distance fsQuery opts arr r1 r2 r3 d1 d2 d3
      Hradius Hred Hperm Hids H1 E1 H2 E2 H3 E3.
    unfold performSearch. rewrite Hred. cbn [bind].
    apply (select_three distance opts r1 r2 r3 d1 d2 d3); auto.
    exact (reduced_objects opts fsQuery arr Hred).
Qed.

(** The scenario on a store with the three records in one cell. *)
Lemma performSearch_spec_witness :
  @performSearch sample_host sample_distance
    (store_of [outside; farther; near]) sample_options
  = Normal [ {| val := record_of near; geoMetadata_distance := Num (1 # 2) |};
             {| val := record_of farther; geoMetadata_distance := Num 2 |} ].
Proof.
  destruct performSearch_spec as [_ scenario].
  apply (scenario sample_host sample_distance
           (store_of [outside; farther; near]) sample_options
           [record_of outside; record_of farther; record_of near]
           (record_of near) (record_of farther) (record_of outside)
           (1 # 2) 2 10).
  - reflexivity.
  - vm_compute. reflexivity.
  - apply (Permutation_rev [record_of near; record_of farther;
                            record_of outside]).
  - intros [|[|[|i]]] [|[|[|j]]] a b Ha Hb; cbn [nth_error] in Ha, Hb;
      try (destruct i; discriminate Ha); try (destruct j; discriminate Hb);
      inversion Ha; inversion Hb; subst; vm_compute; reflexivity.
  - vm_compute. reflexivity.
  - reflexivity.
  - vm_compute. reflexivity.
  - reflexivity.
  - vm_compute. reflexivity.
  - reflexivity.
Defined.

(** C5, as stated, fails twice.  With a radius of 3 km a record at
    3.0300000000000002 km, the double product of 3 and 1.01, is farther than
    3 times 1.01 and is retained.  And next to a record whose coordinates
    cannot be read, a record that is the first with its identifier and
    within the radius is not retained: the search throws. *)
Lemma performSearch_buffer_and_unreadable :
  (radius sample_options * 1.01 < (3411476717733151 # 1125899906842624)
   /\ distance_to sample_distance sample_options (record_of edge)
      = Normal (Num (3411476717733151 # 1125899906842624))
   /\ @performSearch sample_host sample_distance (store_of [edge])
        sample_options
      = Normal [ {| val := record_of edge;
                    geoMetadata_distance :=
                      Num (3411476717733151 # 1125899906842624) |} ])
  /\ (first_occurrence [record_of near; record_of bare] 0 (record_of near)
      /\ distance_to sample_distance sample_options (record_of near)
         = Normal (Num (1 # 2))
      /\ (1 # 2) <= radius sample_options * 1.01
      /\ @performSearch sample_host sample_distance (store_of [near; bare])
           sample_options
         = Throw (TypeError
                    "Cannot read properties of undefined (reading 'geopoint')")).
Proof.
  split.
  - split; [vm_compute; reflexivity|]. split; vm_compute; reflexivity.
  - split.
    + split; [reflexivity|]. split; [vm_compute; reflexivity|].
      intros j w Hj. inversion Hj.
    + split; [vm_compute; reflexivity|].
      split; [vm_compute; discriminate | vm_compute; reflexivity].
Qed.

(** A document every one of the nine queries returns is reported once. *)
Example performSearch_duplicates :
  @performSearch sample_host sample_distance (fun _ => Normal [near; farther])
    sample_options
  = Normal [ {| val := record_of near; geoMetadata_distance := Num (1 # 2) |};
             {| val := record_of farther; geoMetadata_distance := Num 2 |} ].
Proof. vm_compute. reflexivity. Qed.

(** C2, as the code has it.  When the field path leads to [undefined] or
    [null] on a candidate, or to a value whose [geopoint] is [undefined] or
    [null], the search throws a TypeError: the record is not left out
    silently. *)
Theorem performSearch_missing_field {host : Host}
  (distance : value * value -> value * value -> number)
  (fsQuery : FirestoreQuery) (opts : GeoSearchOptions) (arr : list value)
  (v data : value) :
  reduced fsQuery opts = Normal arr ->
  In v arr ->
  field_value v (field opts) = Normal data ->
  nullish data
  \/ (exists geopoint, get data "geopoint" = Normal geopoint
                       /\ nullish geopoint) ->
  exists message : string,
    performSearch distance fsQuery opts = Throw (TypeError message).
Proof.
  intros Hred Hin Hdata Hmissing.
  destruct (latitude_longitude_missing v data (field opts) Hdata Hmissing)
    as (e & He & _).
  destruct (select_throws distance opts arr v e Hin He)
    as (e' & Hsel & message & ->).
  exists message. unfold performSearch. rewrite Hred. exact Hsel.
Qed.

(** A document without the field next to one with it. *)
Lemma performSearch_missing_field_witness :
  exists message : string,
    @performSearch sample_host sample_distance (store_of [near; bare])
      sample_options
    = Throw (TypeError message).
Proof.
  apply (@performSearch_missing_field sample_host sample_distance
           (store_of [near; bare]) sample_options
           [record_of near; record_of bare] (record_of bare) VUndefined).
  - vm_compute. reflexivity.
  - right. left. reflexivity.
  - reflexivity.
  - left. left. reflexivity.
Defined.

(** C2, as stated, fails on a store with one document that has no geo
    data: the search throws instead of returning the other document. *)
Lemma performSearch_missing_field_throws :
  @reduced sample_host (store_of [near; bare]) sample_options
  = Normal [record_of near; record_of bare]
  /\ ~ resolves (record_of bare) (field sample_options)
  /\ @performSearch sample_host sample_distance (store_of [near; bare])
       sample_options
     = Throw (TypeError
                "Cannot read properties of undefined (reading 'geopoint')")
  /\ ~ (forall (host : Host)
               (distance : value * value -> value * value -> number)
               (fsQuery : FirestoreQuery) (opts : GeoSearchOptions)
               (arr : list value) (v : value),
           reduced fsQuery opts = Normal arr -> In v arr ->
           ~ resolves v (field opts) ->
           exists out,
             performSearch distance fsQuery opts = Normal out
             /\ ~ In v (map val out)).
Proof.
  assert (Hred : @reduced sample_host (store_of [near; bare]) sample_options
                 = Normal [record_of near; record_of bare])
    by (vm_compute; reflexivity).
  assert (Hbare : ~ resolves (record_of bare) (field sample_options)).
  { intros (data & Hdata & gp & la & lo & h & Hgp & _).
    vm_compute in Hdata. inversion Hdata; subst data. discriminate Hgp. }
  split; [exact Hred|]. split; [exact Hbare|].
  split; [vm_compute; reflexivity|].
  intros claim.
  destruct (claim sample_host sample_distance (store_of [near; bare])
              sample_options _ (record_of bare) Hred
              (or_intror (or_introl eq_refl)) Hbare) as (out & Hout & _).
  vm_compute in Hout. discriminate Hout.
Qed.

End SearchFacts.

(** * Further properties of the codec *)

Section EncodeOutput.
Context {host : Host}.
Variables clat clon : coordinate.

Local Abbreviation encode_final := (CodecSpec.encode_final clat clon).
Local Abbreviation encode_run := (CodecSpec.encode_run clat clon).

(** Every value below 32 has a code of the alphabet. *)
Lemma code_in_alphabet (v : Z) :
  (0 <= v < 2 * 2 ^ 4)%Z ->
  exists c : ascii,
    char_at BASE32_CODES v = Some c /\ includes BASE32_CODES c = true.
Proof.
  intros Hv. change (2 * 2 ^ 4)%Z with 32%Z in Hv.
  enumerate_Z v 0%Z 32%nat;
    (eexists; split; [vm_compute; reflexivity|]); vm_compute; reflexivity.
Qed.

Lemma encode_step_coded (st : encode_state) :
  encode_inv st /\ coded st ->
  encode_inv (encode_step clat clon st) /\ coded (encode_step clat clon st).
Proof.
  intros [Hinv Hcoded]. split; [exact (encode_step_inv clat clon st Hinv)|].
  destruct Hinv as (Hbits & _ & Hhv & _).
  pose proof (emitted_bit_range clat clon st) as Hbit.
  assert (Hhv16 : (0 <= hash_value st < 16)%Z).
  { split; [lia|]. apply Z.lt_le_trans with (2 ^ bits st)%Z; [lia|].
    change 16%Z with (2 ^ 4)%Z. apply Z.pow_le_mono_r; lia. }
  destruct (bit_at_last _ _ Hhv16 Hbit) as (_ & Hhv32 & _).
  rewrite encode_step_bit. cbv zeta. unfold coded.
  destruct (bits st + 1 =? 5)%Z; cbn [chars]; [|exact Hcoded].
  apply Forall_app. split; [exact Hcoded|].
  destruct (code_in_alphabet _ Hhv32) as (c & Hc & Hin).
  constructor; [|constructor]. exists c. auto.
Qed.

Lemma join_over_alphabet (parts : list (option ascii)) :
  Forall (fun code => exists c : ascii,
              code = Some c /\ includes BASE32_CODES c = true) parts ->
  over_alphabet (join parts).
Proof.
  unfold over_alphabet.
  induction 1 as [|code parts (c & -> & Hc) _ IH];
    cbn [join list_ascii_of_string]; constructor; assumption.
Qed.

Lemma encode_final_over_alphabet (n : Z) :
  over_alphabet (join (chars (encode_final n))).
Proof.
  apply join_over_alphabet.
  apply (encode_loop_invariant clat clon
           (fun st => encode_inv st /\ coded st)).
  - exact encode_step_coded.
  - split; [exact encode_init_inv | constructor].
Qed.

(** *** The turns of the loop *)

Lemma encode_run_inv (k : nat) : encode_inv (encode_run k).
Proof.
  induction k as [|k IH]; [exact encode_init_inv|].
  exact (encode_step_inv clat clon _ IH).
Qed.

(** After [k] turns there are [k / 5] characters and [k mod 5] pending
    bits. *)
Lemma encode_run_shape (k : nat) :
  List.length (chars (encode_run k)) = (k / 5)%nat
  /\ bits (encode_run k) = Z.of_nat (k mod 5).
Proof.
  induction k as [|k [IHlen IHbits]]; [split; reflexivity|].
  pose proof (Nat.div_mod_eq k 5) as Hk.
  pose proof (Nat.mod_upper_bound k 5 ltac:(lia)) as Hlt.
  pose proof (Nat.div_mod_eq (S k) 5) as HSk.
  pose proof (Nat.mod_upper_bound (S k) 5 ltac:(lia)) as HSlt.
  change (encode_run (S k)) with (encode_step clat clon (encode_run k)).
  destruct (encode_step_shape clat clon (encode_run k))
    as [(H5 & Hl & Hb) | (H5 & Hl & Hb)]; rewrite Hl, Hb, IHlen;
    rewrite IHbits in H5; lia.
Qed.

(** The loop takes every turn its fuel allows before the last character
    is complete. *)
Lemma encode_loop_run (n : Z) (fuel k : nat) :
  (k + fuel <= 5 * Z.to_nat n)%nat ->
  encode_loop fuel clat clon (Some n) (encode_run k) = encode_run (k + fuel).
Proof.
  revert k. induction fuel as [|fuel IH]; intros k Hk.
  - rewrite Nat.add_0_r. reflexivity.
  - cbn [encode_loop]. unfold encode_continue.
    destruct (encode_run_shape k) as [Hlen _]. rewrite Hlen.
    pose proof (Nat.div_mod_eq k 5) as Hdiv.
    pose proof (Nat.mod_upper_bound k 5 ltac:(lia)) as Hlt.
    replace (Z.of_nat (k / 5) <? n)%Z with true by (symmetry; apply Z.ltb_lt; lia).
    change (encode_step clat clon (encode_run k)) with (encode_run (S k)).
    rewrite IH by lia. f_equal. lia.
Qed.

Lemma encode_final_run (n : Z) :
  encode_final n = encode_run (5 * Z.to_nat n).
Proof.
  unfold CodecSpec.encode_final, encode_fuel.
  change encode_init with (encode_run 0).
  rewrite encode_loop_run by lia. reflexivity.
Qed.

(** More turns only add characters. *)
Lemma encode_run_extends (k j : nat) :
  exists more, chars (encode_run (k + j)) = chars (encode_run k) ++ more.
Proof.
  induction j as [|j (more & IH)].
  - exists []. rewrite Nat.add_0_r, app_nil_r. reflexivity.
  - rewrite Nat.add_succ_r.
    change (encode_run (S (k + j)))
      with (encode_step clat clon (encode_run (k + j))).
    rewrite encode_step_bit. cbv zeta.
    destruct (bits (encode_run (k + j)) + 1 =? 5)%Z; cbn [chars].
    + eexists. rewrite IH, <- app_assoc. reflexivity.
    + exists more. exact IH.
Qed.

Lemma substring_join (parts more : list (option ascii)) :
  Forall (fun code => code <> None) parts ->
  String.substring 0 (List.length parts) (join (parts ++ more)) = join parts.
Proof.
  induction 1 as [|[c|] parts Hc _ IH]; cbn [app join List.length].
  - destruct (join more); reflexivity.
  - cbn [String.substring]. rewrite IH. reflexivity.
  - congruence.
Qed.

Lemma encode_final_prefix (n m : Z) :
  (n <= m)%Z ->
  substr0 (join (chars (encode_final m))) n = join (chars (encode_final n)).
Proof.
  intros Hnm. rewrite !encode_final_run.
  destruct (encode_run_extends (5 * Z.to_nat n)
              (5 * Z.to_nat m - 5 * Z.to_nat n)) as (more & Hmore).
  replace (5 * Z.to_nat n + (5 * Z.to_nat m - 5 * Z.to_nat n))%nat
    with (5 * Z.to_nat m)%nat in Hmore by lia.
  rewrite Hmore. unfold substr0.
  destruct (encode_run_shape (5 * Z.to_nat n)) as [Hlen _].
  replace (5 * Z.to_nat n / 5)%nat with (Z.to_nat n) in Hlen
    by (rewrite Nat.mul_comm, Nat.div_mul; lia).
  rewrite <- Hlen at 1. apply substring_join.
  destruct (encode_run_inv (5 * Z.to_nat n)) as (_ & _ & _ & Hcodes & _).
  exact Hcodes.
Qed.

End EncodeOutput.

(** X1.  For every pair of coordinates, numbers (NaN included) or strings,
    and every count of characters, [encode] returns a hash of exactly that
    many characters (none for a negative count, nine when the count is
    omitted), all of them characters of the alphabet. *)
Theorem encode_output {host : Host} (clat clon : coordinate) :
  (forall n : Z,
      exists h : string,
        encode clat clon (Chars n) = Normal h
        /\ String.length h = Z.to_nat n /\ over_alphabet h)
  /\ (exists h : string,
         encode clat clon Undefined = Normal h
         /\ String.length h = 9%nat /\ over_alphabet h).
Proof.
  split.
  - intros n. exists (join (chars (encode_final clat clon n))).
    split; [apply encode_Chars|].
    split; [apply encode_length | apply encode_final_over_alphabet].
  - exists (join (chars (encode_final clat clon 9))).
    split; [reflexivity|].
    split; [apply (encode_length clat clon 9)|].
    apply encode_final_over_alphabet.
Qed.

(** X2.  A shorter hash of a point is the beginning of a longer one:
    cutting the hash of [m] characters after [n <= m] characters gives the
    hash of [n] characters. *)
Theorem encode_prefix {host : Host} (clat clon : coordinate) (n m : Z) :
  (n <= m)%Z ->
  exists hn hm : string,
    encode clat clon (Chars n) = Normal hn
    /\ encode clat clon (Chars m) = Normal hm
    /\ substr0 hm n = hn.
Proof.
  intros Hnm. do 2 eexists.
  split; [apply encode_Chars|]. split; [apply encode_Chars|].
  apply encode_final_prefix. exact Hnm.
Qed.

(** The hash of 37.8324, 112.5584 cut after five of nine characters. *)
Lemma encode_prefix_witness :
  exists hn hm : string,
    @encode sample_host (CNumber (Num 37.8324)) (CNumber (Num 112.5584))
      (Chars 5) = Normal hn
    /\ @encode sample_host (CNumber (Num 37.8324)) (CNumber (Num 112.5584))
         (Chars 9) = Normal hm
    /\ substr0 hm 5 = hn.
Proof.
  apply (@encode_prefix sample_host (CNumber (Num 37.8324))
           (CNumber (Num 112.5584)) 5 9).
  lia.
Defined.

(** *** Cells within cells *)

Lemma narrower_refl (b : bounds) : narrower b b.
Proof. unfold narrower. repeat split; lra. Qed.

Lemma narrower_trans (b1 b2 b3 : bounds) :
  narrower b1 b2 -> narrower b2 b3 -> narrower b1 b3.
Proof. unfold narrower. intros (? & ? & ? & ?) (? & ? & ? & ?). repeat split; lra. Qed.

Lemma decode_bit_narrower (hashValue : option Z) (st : decode_state)
  (bits : Z) :
  inside_globe (dec_bounds st) ->
  narrower (dec_bounds (decode_bit hashValue st bits)) (dec_bounds st).
Proof.
  unfold inside_globe, narrower, decode_bit.
  intros (H1 & H2 & H3 & H4 & H5 & H6).
  destruct (mid_between _ _ H2) as [Ha1 Ha2].
  destruct (mid_between _ _ H5) as [Ho1 Ho2].
  destruct (isLon st);
    destruct (bitand (sar (ToInt32_opt hashValue) bits) 1 =? 1)%Z;
    bounds_cbn; repeat split; lra.
Qed.

Lemma decode_char_narrower (st : decode_state) (c : ascii) :
  inside_globe (dec_bounds st) ->
  narrower (dec_bounds (decode_char st c)) (dec_bounds st).
Proof.
  intros H. unfold decode_char. cbn [fold_left].
  repeat (eapply narrower_trans;
          [apply decode_bit_narrower;
           repeat apply decode_bit_inside_globe; exact H|]).
  apply narrower_refl.
Qed.

Lemma decode_chars_narrower (t : string) (st : decode_state) :
  inside_globe (dec_bounds st) ->
  narrower (dec_bounds (decode_chars t st)) (dec_bounds st).
Proof.
  revert st. induction t as [|c t IH]; intros st H; [apply narrower_refl|].
  unfold decode_chars in *. cbn [list_ascii_of_string fold_left].
  eapply narrower_trans;
    [apply IH; apply decode_char_inside_globe; exact H|].
  apply decode_char_narrower. exact H.
Qed.

(** X3.  A longer hash denotes a cell within the cell of each of its
    beginnings: the box of [h ++ t] lies within the box of [h]. *)
Theorem decode_bbox_prefix (h t : string) :
  exists south west north east south' west' north' east' : Q,
    decode_bbox h = Normal (south, west, north, east)
    /\ decode_bbox (h ++ t) = Normal (south', west', north', east')
    /\ south <= south' /\ north' <= north
    /\ west <= west' /\ east' <= east.
Proof.
  pose proof (decode_chars_inside_globe h decode_init globe_inside_globe)
    as Hin.
  destruct (decode_chars_narrower t (decode_chars h decode_init) Hin)
    as (H1 & H2 & H3 & H4).
  unfold decode_bbox, bbox_of. rewrite decode_chars_app.
  do 8 eexists. split; [reflexivity|]. split; [reflexivity|].
  repeat split; assumption.
Qed.

(** *** The size of a cell *)

Lemma pow2_S (k : nat) : pow2 (S k) == 2 * pow2 k.
Proof.
  unfold pow2. rewrite Nat2Z.inj_succ, Z.pow_succ_r by lia.
  rewrite inject_Z_mult. reflexivity.
Qed.

Lemma decode_bit_sized (hashValue : option Z) (st : decode_state) (bits : Z)
  (a b : nat) :
  sized a b st ->
  exists a' b', sized a' b' (decode_bit hashValue st bits)
                /\ (a' + b' = S (a + b))%nat.
Proof.
  unfold sized, decode_bit. intros (Hlat & Hlon & Hnext).
  pose proof (mid_spec (maxLat (dec_bounds st)) (minLat (dec_bounds st))).
  pose proof (mid_spec (maxLon (dec_bounds st)) (minLon (dec_bounds st))).
  pose proof (pow2_S a) as Ha. pose proof (pow2_S b) as Hb.
  destruct Hnext as [[-> ->] | [-> ->]].
  - exists (S b), b. split; [|lia].
    destruct (bitand (sar (ToInt32_opt hashValue) bits) 1 =? 1)%Z;
      cbn [isLon negb]; bounds_cbn;
      (split; [exact Hlat | split; [|right; auto]]);
      rewrite Hb; nra.
  - exists (S b), (S b). split; [|lia].
    destruct (bitand (sar (ToInt32_opt hashValue) bits) 1 =? 1)%Z;
      cbn [isLon negb]; bounds_cbn;
      (split; [|split; [exact Hlon | left; auto]]);
      rewrite Hb; nra.
Qed.

Lemma decode_char_sized (st : decode_state) (c : ascii) (a b : nat) :
  sized a b st ->
  exists a' b', sized a' b' (decode_char st c) /\ (a' + b' = 5 + (a + b))%nat.
Proof.
  intros H0. unfold decode_char. cbn [fold_left].
  set (hv := dict_get BASE32_CODES_DICT (toLowerCase c)).
  destruct (decode_bit_sized hv _ 4 _ _ H0) as (a1 & b1 & H1 & E1).
  destruct (decode_bit_sized hv _ 3 _ _ H1) as (a2 & b2 & H2 & E2).
  destruct (decode_bit_sized hv _ 2 _ _ H2) as (a3 & b3 & H3 & E3).
  destruct (decode_bit_sized hv _ 1 _ _ H3) as (a4 & b4 & H4 & E4).
  destruct (decode_bit_sized hv _ 0 _ _ H4) as (a5 & b5 & H5 & E5).
  exists a5, b5. split; [exact H5 | lia].
Qed.

Lemma decode_chars_sized (h : string) (st : decode_state) (a b : nat) :
  sized a b st ->
  exists a' b', sized a' b' (decode_chars h st)
                /\ (a' + b' = 5 * String.length h + (a + b))%nat.
Proof.
  revert st a b. induction h as [|c h IH]; intros st a b H0.
  - exists a, b. split; [exact H0 | cbn [String.length]; lia].
  - unfold decode_chars in *. cbn [list_ascii_of_string fold_left].
    destruct (decode_char_sized st c a b H0) as (a1 & b1 & H1 & E1).
    destruct (IH _ _ _ H1) as (a2 & b2 & H2 & E2).
    exists a2, b2. split; [exact H2 | cbn [String.length]; lia].
Qed.

Lemma decode_init_sized : sized 0 0 decode_init.
Proof.
  unfold sized, decode_init, globe, pow2. cbn [isLon]. bounds_cbn.
  split; [reflexivity|]. split; [reflexivity|]. left. split; reflexivity.
Qed.

(** X4.  The errors [decode] returns depend on the length of the hash
    alone: for a hash of [L] characters, up to 18, the latitude error is
    90 over two to the power [5L / 2] rounded down, and the longitude error
    is 180 over two to the power [5L / 2] rounded up. *)
Theorem decode_error_size (h : string) :
  (String.length h <= 18)%nat ->
  exists point : Decoded,
    decode h = Normal point
    /\ error_latitude (error point) * pow2 (5 * String.length h / 2) == 90
    /\ error_longitude (error point) * pow2 ((5 * String.length h + 1) / 2)
       == 180.
Proof.
  intros _.
  destruct (decode_chars_sized h decode_init 0 0 decode_init_sized)
    as (a & b & (Hlat & Hlon & Hnext) & Hsum).
  pose proof (Nat.div_mod_eq (5 * String.length h) 2) as D0.
  pose proof (Nat.mod_upper_bound (5 * String.length h) 2 ltac:(lia)) as M0.
  pose proof (Nat.div_mod_eq (5 * String.length h + 1) 2) as D1.
  pose proof (Nat.mod_upper_bound (5 * String.length h + 1) 2 ltac:(lia))
    as M1.
  assert (Hb : b = (5 * String.length h / 2)%nat)
    by (destruct Hnext as [[_ E] | [_ E]]; lia).
  assert (Ha : a = ((5 * String.length h + 1) / 2)%nat)
    by (destruct Hnext as [[_ E] | [_ E]]; lia).
  subst a b. eexists. split; [reflexivity|].
  cbn [error error_latitude error_longitude].
  rewrite !sub_spec, !mid_spec. split; nra.
Qed.

(** The errors of a hash of nine characters. *)
Lemma decode_error_size_witness :
  exists point : Decoded,
    decode "ww8p1r4t8" = Normal point
    /\ error_latitude (error point) * pow2 22 == 90
    /\ error_longitude (error point) * pow2 23 == 180.
Proof.
  apply (decode_error_size "ww8p1r4t8"). cbn [String.length]. lia.
Defined.

(** *** Different hashes, different cells *)

Lemma bit_at_range (hashValue : option Z) (i : Z) :
  bit_at hashValue i = 0%Z \/ bit_at hashValue i = 1%Z.
Proof.
  unfold bit_at, bitand.
  set (t := sar (ToInt32_opt hashValue) i).
  assert (E : Z.land t 1 = (t mod 2)%Z).
  { change 1%Z with (Z.ones 1). rewrite Z.land_ones by lia. reflexivity. }
  rewrite E. pose proof (Z.mod_pos_bound t 2 ltac:(lia)) as Hm.
  assert (E2 : (t mod 2 = 0 \/ t mod 2 = 1)%Z) by lia.
  destruct E2 as [-> | ->]; [left | right]; reflexivity.
Qed.

(** Two cells that overlap lie in the same half. *)
Lemma bit_step_agree (S : decode_state) (b b' : Z) (X Y : bounds) :
  (b = 0 \/ b = 1)%Z -> (b' = 0 \/ b' = 1)%Z ->
  narrower X (dec_bounds (bit_step b S)) ->
  narrower Y (dec_bounds (bit_step b' S)) ->
  overlap X Y -> b = b'.
Proof.
  unfold narrower, overlap, bit_step.
  intros Hb Hb' (X1 & X2 & X3 & X4) (Y1 & Y2 & Y3 & Y4) (O1 & O2 & O3 & O4).
  destruct (isLon S); destruct Hb as [-> | ->]; destruct Hb' as [-> | ->];
    cbn [Z.eqb Pos.eqb] in *; bounds_cbn; first [reflexivity | exfalso; lra].
Qed.

Lemma fold_decode_bit_inside_globe (hashValue : option Z) (l : list Z)
  (S : decode_state) :
  inside_globe (dec_bounds S) ->
  inside_globe (dec_bounds (fold_left (decode_bit hashValue) l S)).
Proof.
  revert S. induction l as [|i l IH]; intros S H; [exact H|].
  cbn [fold_left]. apply IH. apply decode_bit_inside_globe. exact H.
Qed.

Lemma fold_decode_bit_narrower (hashValue : option Z) (l : list Z)
  (S : decode_state) :
  inside_globe (dec_bounds S) ->
  narrower (dec_bounds (fold_left (decode_bit hashValue) l S)) (dec_bounds S).
Proof.
  revert S. induction l as [|i l IH]; intros S H; [apply narrower_refl|].
  cbn [fold_left].
  eapply narrower_trans;
    [apply IH; apply decode_bit_inside_globe; exact H|].
  apply decode_bit_narrower. exact H.
Qed.

(** Two runs of bits from the same state that end, however they go on,
    in overlapping cells read the same bits. *)
Lemma bits_agree (l : list Z) (v1 v2 : option Z) (S : decode_state)
  (K1 K2 : decode_state -> decode_state) :
  (forall T, inside_globe (dec_bounds T) ->
             narrower (dec_bounds (K1 T)) (dec_bounds T)) ->
  (forall T, inside_globe (dec_bounds T) ->
             narrower (dec_bounds (K2 T)) (dec_bounds T)) ->
  inside_globe (dec_bounds S) ->
  overlap (dec_bounds (K1 (fold_left (decode_bit v1) l S)))
          (dec_bounds (K2 (fold_left (decode_bit v2) l S))) ->
  Forall (fun i => bit_at v1 i = bit_at v2 i) l
  /\ fold_left (decode_bit v1) l S = fold_left (decode_bit v2) l S.
Proof.
  intros HK1 HK2. revert S.
  induction l as [|i l IH]; intros S HS Hover; [split; [constructor | reflexivity]|].
  cbn [fold_left] in *.
  assert (Hi : bit_at v1 i = bit_at v2 i).
  { apply (bit_step_agree S _ _ _ _ (bit_at_range v1 i) (bit_at_range v2 i))
      with (3 := Hover); rewrite <- decode_bit_bit_step.
    - eapply narrower_trans;
        [apply HK1; apply fold_decode_bit_inside_globe;
         apply decode_bit_inside_globe; exact HS|].
      apply fold_decode_bit_narrower. apply decode_bit_inside_globe. exact HS.
    - eapply narrower_trans;
        [apply HK2; apply fold_decode_bit_inside_globe;
         apply decode_bit_inside_globe; exact HS|].
      apply fold_decode_bit_narrower. apply decode_bit_inside_globe. exact HS. }
  assert (Hstep : decode_bit v1 S i = decode_bit v2 S i)
    by (rewrite !decode_bit_bit_step, Hi; reflexivity).
  rewrite <- Hstep in Hover.
  destruct (IH (decode_bit v1 S i) (decode_bit_inside_globe _ _ _ HS) Hover)
    as [Hall Hfold].
  split; [constructor; assumption|]. rewrite Hfold, Hstep. reflexivity.
Qed.

(** A character of the alphabet is the code of the value its five bits
    spell. *)
Lemma alphabet_char_bits (c : ascii) :
  includes BASE32_CODES c = true ->
  let v := dict_get BASE32_CODES_DICT (toLowerCase c) in
  char_at BASE32_CODES
    (16 * bit_at v 4 + 8 * bit_at v 3 + 4 * bit_at v 2 + 2 * bit_at v 1
     + bit_at v 0) = Some c.
Proof.
  destruct c as [[] [] [] [] [] [] [] []]; vm_compute;
    first [reflexivity | discriminate].
Qed.

Lemma decode_chars_separate (x y : string) (S : decode_state) :
  String.length x = String.length y ->
  over_alphabet x -> over_alphabet y ->
  inside_globe (dec_bounds S) ->
  overlap (dec_bounds (decode_chars x S)) (dec_bounds (decode_chars y S)) ->
  x = y.
Proof.
  revert y S. induction x as [|c1 x IH]; intros [|c2 y] S Hlen Hx Hy HS Hover;
    try discriminate Hlen; [reflexivity|].
  unfold over_alphabet in Hx, Hy. cbn [list_ascii_of_string] in Hx, Hy.
  inversion Hx as [|? ? Hc1 Hx']; subst. inversion Hy as [|? ? Hc2 Hy']; subst.
  unfold decode_chars in Hover. cbn [list_ascii_of_string fold_left] in Hover.
  unfold decode_char at 2 4 in Hover.
  destruct (bits_agree [4; 3; 2; 1; 0]%Z
              (dict_get BASE32_CODES_DICT (toLowerCase c1))
              (dict_get BASE32_CODES_DICT (toLowerCase c2)) S
              (decode_chars x) (decode_chars y)
              (decode_chars_narrower x) (decode_chars_narrower y) HS Hover)
    as [Hbits Hfold].
  assert (Hc : c1 = c2).
  { pose proof (alphabet_char_bits c1 Hc1) as E1.
    pose proof (alphabet_char_bits c2 Hc2) as E2. cbv zeta in E1, E2.
    inversion Hbits as [|? ? B4 Hb3]; subst.
    inversion Hb3 as [|? ? B3 Hb2]; subst.
    inversion Hb2 as [|? ? B2 Hb1]; subst.
    inversion Hb1 as [|? ? B1 Hb0]; subst.
    inversion Hb0 as [|? ? B0 _]; subst.
    rewrite B4, B3, B2, B1, B0, E2 in E1. inversion E1. reflexivity. }
  subst c2. f_equal.
  apply (IH y (decode_char S c1)).
  - cbn [String.length] in Hlen. injection Hlen. auto.
  - exact Hx'.
  - exact Hy'.
  - apply decode_char_inside_globe. exact HS.
  - exact Hover.
Qed.

(** X5.  Two hashes of the same length over the alphabet whose cells
    overlap are the same hash: different hashes of one length denote cells
    with no interior point in common. *)
Theorem cells_disjoint (x y : string) :
  String.length x = String.length y ->
  over_alphabet x -> over_alphabet y ->
  overlap (cell x) (cell y) ->
  x = y.
Proof.
  intros Hlen Hx Hy Hover.
  apply (decode_chars_separate x y decode_init Hlen Hx Hy); [|exact Hover].
  exact globe_inside_globe.
Qed.

(** The cell of ["9q8yy"] overlaps itself, and does not overlap the cell
    of ["9q8yz"]. *)
Lemma cells_disjoint_witness :
  overlap (cell "9q8yy") (cell "9q8yy")
  /\ "9q8yy"%string = "9q8yy"%string
  /\ ~ overlap (cell "9q8yy") (cell "9q8yz").
Proof.
  assert (Hy : over_alphabet "9q8yy")
    by (unfold over_alphabet; cbn [list_ascii_of_string];
        repeat (apply Forall_cons; [reflexivity|]); apply Forall_nil).
  assert (Hz : over_alphabet "9q8yz")
    by (unfold over_alphabet; cbn [list_ascii_of_string];
        repeat (apply Forall_cons; [reflexivity|]); apply Forall_nil).
  assert (Hover : overlap (cell "9q8yy") (cell "9q8yy"))
    by (vm_compute; repeat split; reflexivity).
  split; [exact Hover|]. split.
  - exact (cells_disjoint "9q8yy" "9q8yy" eq_refl Hy Hy Hover).
  - intros Habs.
    pose proof (cells_disjoint "9q8yy" "9q8yz" eq_refl Hy Hz Habs) as E.
    discriminate E.
Defined.

(** *** Encoding the centre of a cell *)

Lemma pow2_pos (k : nat) : 0 < pow2 k.
Proof.
  unfold pow2. change 0 with (inject_Z 0). rewrite <- Zlt_Qlt.
  apply Z.pow_pos_nonneg; lia.
Qed.

(** A cell has a positive height and width. *)
Lemma cell_positive (h : string) :
  minLat (cell h) < maxLat (cell h) /\ minLon (cell h) < maxLon (cell h).
Proof.
  unfold cell.
  destruct (decode_chars_sized h decode_init 0 0 decode_init_sized)
    as (a & b & (Hlat & Hlon & _) & _).
  pose proof (pow2_pos a). pose proof (pow2_pos b). split; nra.
Qed.

Lemma known_toLowerCase (c : ascii) :
  includes BASE32_CODES
    (toLowerCase (if known c then c else "0"%char)) = true.
Proof.
  destruct c as [[] [] [] [] [] [] [] []]; vm_compute; reflexivity.
Qed.

Lemma canonical_over_alphabet (h : string) : over_alphabet (canonical h).
Proof.
  unfold over_alphabet, canonical.
  induction h as [|c h IH];
    cbn [zero_unknown toLowerCase_string list_ascii_of_string];
    constructor; [apply known_toLowerCase | exact IH].
Qed.

Lemma canonical_length (h : string) :
  String.length (canonical h) = String.length h.
Proof.
  unfold canonical.
  induction h as [|c h IH]; cbn [zero_unknown toLowerCase_string String.length];
    [reflexivity | rewrite IH; reflexivity].
Qed.

Lemma cell_canonical (h : string) : cell (canonical h) = cell h.
Proof.
  unfold cell, canonical.
  rewrite decode_chars_toLowerCase, decode_chars_zero_unknown. reflexivity.
Qed.

Lemma alphabet_char_canonical (c : ascii) :
  includes BASE32_CODES c = true ->
  toLowerCase (if known c then c else "0"%char) = c.
Proof.
  destruct c as [[] [] [] [] [] [] [] []]; vm_compute;
    first [reflexivity | discriminate].
Qed.

Lemma canonical_alphabet (h : string) : over_alphabet h -> canonical h = h.
Proof.
  unfold over_alphabet, canonical.
  induction h as [|c h IH];
    cbn [zero_unknown toLowerCase_string list_ascii_of_string];
    [reflexivity|].
  intros H. inversion H as [|? ? Hc Hh]; subst.
  rewrite (alphabet_char_canonical c Hc), (IH Hh). reflexivity.
Qed.

Section EncodeCell.
Context {host : Host}.

(** The hash [encode] returns decodes to the bounds its loop ended
    with. *)
Lemma cell_encode_final (clat clon : coordinate) (n : Z) :
  cell (join (chars (encode_final clat clon n)))
  = enc_bounds (encode_final clat clon n).
Proof.
  destruct (encode_final_spec clat clon n)
    as ((_ & _ & _ & _ & Hfold) & _ & Hbits & _).
  rewrite Hbits in Hfold. cbn [Z.to_nat positions fold_left] in Hfold.
  unfold cell. rewrite Hfold. reflexivity.
Qed.

(** A point of the globe inside the cell of a hash is encoded, at the
    length of the hash, as the hash. *)
Lemma encode_inside_cell (h : string) (la lo : Q) :
  minLat (cell h) < la < maxLat (cell h) ->
  minLon (cell h) < lo < maxLon (cell h) ->
  encode (CNumber (Num la)) (CNumber (Num lo))
    (Chars (Z.of_nat (String.length h)))
  = Normal (canonical h).
Proof.
  intros [Hla1 Hla2] [Hlo1 Hlo2].
  set (clat := CNumber (Num la)). set (clon := CNumber (Num lo)).
  set (n := Z.of_nat (String.length h)).
  rewrite encode_Chars. f_equal.
  destruct (decode_chars_inside_globe h decode_init globe_inside_globe)
    as (G1 & G2 & G3 & G4 & G5 & G6). fold (cell h) in G1, G2, G3, G4, G5, G6.
  assert (Hlat : -90 <= la <= 90) by (split; lra).
  assert (Hlon : -180 <= lo <= 180) by (split; lra).
  destruct (encode_final_contains clat clon la lo n eq_refl eq_refl Hlat Hlon)
    as (C1 & C2 & C3 & C4).
  apply (decode_chars_separate _ _ decode_init).
  - rewrite encode_length, canonical_length. unfold n. apply Nat2Z.id.
  - apply encode_final_over_alphabet.
  - apply canonical_over_alphabet.
  - exact globe_inside_globe.
  - fold (cell (join (chars (encode_final clat clon n)))).
    fold (cell (canonical h)).
    rewrite cell_encode_final, cell_canonical.
    unfold overlap. repeat split; lra.
Qed.

End EncodeCell.

(** X6.  Encoding the point a hash of up to 18 characters decodes to, at
    the length of the hash, gives the hash back in lowercase, with ["0"]
    for every character that is not of the alphabet; a hash over the
    alphabet is given back as it is. *)
Theorem encode_decode_hash {host : Host} (h : string) :
  (String.length h <= 18)%nat ->
  exists point : Decoded,
    decode h = Normal point
    /\ encode (CNumber (Num (latitude point)))
         (CNumber (Num (longitude point)))
         (Chars (Z.of_nat (String.length h)))
       = Normal (canonical h)
    /\ (over_alphabet h -> canonical h = h).
Proof.
  intros _. eexists. split; [reflexivity|].
  split; [|exact (canonical_alphabet h)].
  cbn [latitude longitude]. fold (cell h). unfold bbox_of.
  destruct (cell_positive h) as [Hlat Hlon].
  apply encode_inside_cell; rewrite mid_spec; split; lra.
Qed.

(** The round trip on a hash of nine characters, given in capitals. *)
Lemma encode_decode_hash_witness :
  exists point : Decoded,
    decode "WW8P1R4T8" = Normal point
    /\ @encode sample_host (CNumber (Num (latitude point)))
         (CNumber (Num (longitude point))) (Chars 9)
       = Normal (canonical "WW8P1R4T8")
    /\ (over_alphabet "WW8P1R4T8" -> canonical "WW8P1R4T8" = "WW8P1R4T8"%string).
Proof.
  apply (@encode_decode_hash sample_host "WW8P1R4T8").
  cbn [String.length]. lia.
Defined.

(** *** The grid of cells *)

Lemma inject_Z_succ (i : Z) : inject_Z (i + 1) == inject_Z i + 1.
Proof. rewrite inject_Z_plus. reflexivity. Qed.

Lemma inject_Z_double (i : Z) : inject_Z (2 * i) == 2 * inject_Z i.
Proof. rewrite inject_Z_mult. reflexivity. Qed.

(** A step of the decoder halves a cell of the grid into a cell of the
    next grid. *)
Lemma bit_step_grid (bit : Z) (st : decode_state) (a b : nat) :
  grid_cell a b (dec_bounds st) ->
  (isLon st = true /\ a = b) \/ (isLon st = false /\ a = S b) ->
  exists a' b',
    grid_cell a' b' (dec_bounds (bit_step bit st))
    /\ ((isLon (bit_step bit st) = true /\ a' = b')
        \/ (isLon (bit_step bit st) = false /\ a' = S b'))
    /\ (a' + b' = S (a + b))%nat.
Proof.
  intros (i & j & Hs & Hn & Hw & He) Hnext. unfold bit_step.
  pose proof (mid_spec (maxLat (dec_bounds st)) (minLat (dec_bounds st))) as Mlat.
  pose proof (mid_spec (maxLon (dec_bounds st)) (minLon (dec_bounds st))) as Mlon.
  pose proof (pow2_S a) as Pa. pose proof (pow2_S b) as Pb.
  rewrite inject_Z_succ in Hn, He.
  assert (Plat : div (add (maxLat (dec_bounds st)) (minLat (dec_bounds st))) 2
                 * pow2 b
                 == (maxLat (dec_bounds st) + minLat (dec_bounds st))
                    * (1 # 2) * pow2 b)
    by (rewrite Mlat; reflexivity).
  assert (Plon : div (add (maxLon (dec_bounds st)) (minLon (dec_bounds st))) 2
                 * pow2 b
                 == (maxLon (dec_bounds st) + minLon (dec_bounds st))
                    * (1 # 2) * pow2 b)
    by (rewrite Mlon; reflexivity).
  destruct Hnext as [[-> ->] | [-> ->]]; cbn [isLon negb dec_bounds].
  - exists (S b), b. split; [|split; [right; auto | lia]].
    destruct (bit =? 1)%Z; bounds_cbn.
    + exists i, (2 * j + 1)%Z. rewrite !inject_Z_succ, !inject_Z_double.
      split; [|split; [|split]]; bounds_cbn; try assumption; rewrite Pb; nra.
    + exists i, (2 * j)%Z. rewrite !inject_Z_succ, !inject_Z_double.
      split; [|split; [|split]]; bounds_cbn; try assumption; rewrite Pb; nra.
  - exists (S b), (S b). split; [|split; [left; auto | lia]].
    destruct (bit =? 1)%Z; bounds_cbn.
    + exists (2 * i + 1)%Z, j. rewrite !inject_Z_succ, !inject_Z_double.
      split; [|split; [|split]]; bounds_cbn; try assumption; rewrite Pb; nra.
    + exists (2 * i)%Z, j. rewrite !inject_Z_succ, !inject_Z_double.
      split; [|split; [|split]]; bounds_cbn; try assumption; rewrite Pb; nra.
Qed.

Lemma decode_char_grid (st : decode_state) (c : ascii) (a b : nat) :
  gridded a b st ->
  exists a' b', gridded a' b' (decode_char st c)
                /\ (a' + b' = 5 + (a + b))%nat.
Proof.
  intros [G0 P0]. unfold decode_char. cbn [fold_left].
  set (hv := dict_get BASE32_CODES_DICT (toLowerCase c)).
  rewrite !decode_bit_bit_step.
  destruct (bit_step_grid (bit_at hv 4) _ _ _ G0 P0) as (a1 & b1 & G1 & P1 & E1).
  destruct (bit_step_grid (bit_at hv 3) _ _ _ G1 P1) as (a2 & b2 & G2 & P2 & E2).
  destruct (bit_step_grid (bit_at hv 2) _ _ _ G2 P2) as (a3 & b3 & G3 & P3 & E3).
  destruct (bit_step_grid (bit_at hv 1) _ _ _ G3 P3) as (a4 & b4 & G4 & P4 & E4).
  destruct (bit_step_grid (bit_at hv 0) _ _ _ G4 P4) as (a5 & b5 & G5 & P5 & E5).
  exists a5, b5. split; [split; assumption | lia].
Qed.

Lemma decode_chars_grid (h : string) (st : decode_state) (a b : nat) :
  gridded a b st ->
  exists a' b', gridded a' b' (decode_chars h st)
                /\ (a' + b' = 5 * String.length h + (a + b))%nat.
Proof.
  revert st a b. induction h as [|c h IH]; intros st a b H0.
  - exists a, b. split; [exact H0 | cbn [String.length]; lia].
  - unfold decode_chars in *. cbn [list_ascii_of_string fold_left].
    destruct (decode_char_grid st c a b H0) as (a1 & b1 & H1 & E1).
    destruct (IH _ _ _ H1) as (a2 & b2 & H2 & E2).
    exists a2, b2. split; [exact H2 | cbn [String.length]; lia].
Qed.

Lemma decode_init_gridded : gridded 0 0 decode_init.
Proof.
  split; [|left; split; reflexivity].
  exists 0%Z, 0%Z. unfold decode_init, globe, pow2. bounds_cbn.
  split; [reflexivity|]. split; [reflexivity|]. split; reflexivity.
Qed.

(** The cell of a hash is a cell of the grid of its length. *)
Lemma cell_grid (h : string) :
  grid_cell (lon_bits (String.length h)) (lat_bits (String.length h)) (cell h).
Proof.
  destruct (decode_chars_grid h decode_init 0 0 decode_init_gridded)
    as (a & b & [G P] & E).
  fold (cell h) in G. unfold lon_bits, lat_bits.
  set (L := String.length h) in *.
  pose proof (Nat.div_mod_eq (5 * L + 1) 2) as D1.
  pose proof (Nat.mod_upper_bound (5 * L + 1) 2) as M1.
  pose proof (Nat.div_mod_eq (5 * L) 2) as D2.
  pose proof (Nat.mod_upper_bound (5 * L) 2) as M2.
  assert (a = ((5 * L + 1) / 2)%nat /\ b = (5 * L / 2)%nat) as [<- <-]
    by (destruct P as [[_ ->] | [_ ->]]; lia).
  exact G.
Qed.

(** Two cells of one grid that overlap are the same cell. *)
Lemma cell_unique (a b : nat) (b1 b2 : bounds) :
  grid_cell a b b1 -> grid_cell a b b2 -> overlap b1 b2 -> same_bounds b1 b2.
Proof.
  intros (i1 & j1 & S1 & N1 & W1 & E1) (i2 & j2 & S2 & N2 & W2 & E2)
         (O1 & O2 & O3 & O4).
  pose proof (pow2_pos a) as Pa. pose proof (pow2_pos b) as Pb.
  assert (Hi : i1 = i2).
  { assert (inject_Z i1 < inject_Z (i2 + 1)) as L1 by nra.
    assert (inject_Z i2 < inject_Z (i1 + 1)) as L2 by nra.
    rewrite <- Zlt_Qlt in L1, L2. lia. }
  assert (Hj : j1 = j2).
  { assert (inject_Z j1 < inject_Z (j2 + 1)) as L1 by nra.
    assert (inject_Z j2 < inject_Z (j1 + 1)) as L2 by nra.
    rewrite <- Zlt_Qlt in L1, L2. lia. }
  subst i2 j2. unfold same_bounds.
  split; [nra|]. split; [nra|]. split; nra.
Qed.

(** A cell moved by whole heights and widths is a cell of the same grid. *)
Lemma shift_grid (a b : nat) (bd : bounds) (u v : Z) :
  grid_cell a b bd -> grid_cell a b (shift (inject_Z u) (inject_Z v) bd).
Proof.
  intros (i & j & Hs & Hn & Hw & He).
  exists (i + u)%Z, (j + v)%Z. unfold shift. bounds_cbn.
  rewrite !inject_Z_succ in *. rewrite !inject_Z_plus.
  assert (Hlat : inject_Z u * ((maxLat bd - minLat bd) * pow2 b)
                 == inject_Z u * 180).
  { apply Qmult_comp; [reflexivity | lra]. }
  assert (Hlon : inject_Z v * ((maxLon bd - minLon bd) * pow2 a)
                 == inject_Z v * 360).
  { apply Qmult_comp; [reflexivity | lra]. }
  split; [nra|]. split; [nra|]. split; nra.
Qed.

(** *** Coordinates out of range *)

Ltac compare_cases :=
  repeat match goal with
    | H : Qle_bool _ _ = true |- _ => apply Qle_bool_iff in H
    | H : Qle_bool _ _ = false |- _ => apply Qle_bool_false in H
    | H : Qgt_bool _ _ = true |- _ => apply Qgt_bool_true in H
    | H : Qgt_bool _ _ = false |- _ => apply Qgt_bool_false in H
    | H : Qeq_bool _ _ = true |- _ => apply Qeq_bool_iff in H
    | H : Qeq_bool _ _ = false |- _ => apply Qeq_bool_neq in H
    | |- context [Qle_bool ?x ?y] => destruct (Qle_bool x y) eqn:?
    | |- context [Qgt_bool ?x ?y] => destruct (Qgt_bool x y) eqn:?
    | |- context [Qeq_bool ?x ?y] => destruct (Qeq_bool x y) eqn:?
    end.

Lemma clamp_range (lo hi x : Q) : lo <= hi -> lo <= clamp lo hi x <= hi.
Proof. intros H. unfold clamp. compare_cases; split; lra. Qed.

Lemma clamp_inside (lo hi x : Q) : lo <= x <= hi -> clamp lo hi x == x.
Proof. intros H. unfold clamp. compare_cases; lra. Qed.

Lemma effective_range (lo hi : Q) (x : number) :
  lo <= hi -> lo <= effective lo hi x <= hi.
Proof.
  intros H. destruct x as [|q]; cbn [effective];
    [split; lra | apply clamp_range; exact H].
Qed.

(** Against a middle of the range, a coordinate compares as the number
    that stands for it. *)
Lemma gt_effective (lo hi : Q) (x : number) (mid : Q) :
  lo <= mid -> mid < hi -> gt x mid = gt (Num (effective lo hi x)) mid.
Proof.
  intros H1 H2. destruct x as [|q]; cbn [gt effective]; unfold clamp;
    compare_cases; try reflexivity; exfalso; lra.
Qed.

Lemma bit_step_proper (bit : Z) (st : decode_state) :
  proper (dec_bounds st) -> proper (dec_bounds (bit_step bit st)).
Proof.
  unfold proper, bit_step. intros (H1 & H2 & H3 & H4 & H5 & H6).
  pose proof (mid_spec (maxLat (dec_bounds st)) (minLat (dec_bounds st))).
  pose proof (mid_spec (maxLon (dec_bounds st)) (minLon (dec_bounds st))).
  cbn [dec_bounds].
  destruct (isLon st), (bit =? 1)%Z; bounds_cbn;
    (split; [|split; [|split; [|split; [|split]]]]); lra.
Qed.

Lemma globe_proper : proper globe.
Proof.
  unfold proper, globe. bounds_cbn.
  (split; [|split; [|split; [|split; [|split]]]]); lra.
Qed.

Section EncodeEffective.
Context {host : Host}.
Variables clat clon : coordinate.

Local Abbreviation elat := (effective (-90) 90 (ToNumber clat)).
Local Abbreviation elon := (effective (-180) 180 (ToNumber clon)).

Lemma encode_step_proper (st : encode_state) :
  proper (enc_bounds st) -> proper (enc_bounds (encode_step clat clon st)).
Proof.
  intros H.
  assert (Hb : enc_bounds (encode_step clat clon st)
               = dec_bounds (bit_step (CodecSpec.emitted_bit clat clon st)
                               (as_decoder st))).
  { rewrite encode_step_bit. cbv zeta.
    destruct (bits st + 1 =? 5)%Z; reflexivity. }
  rewrite Hb. apply bit_step_proper. exact H.
Qed.

Lemma encode_step_effective (st : encode_state) :
  proper (enc_bounds st) ->
  encode_step clat clon st
  = encode_step (CNumber (Num elat)) (CNumber (Num elon)) st.
Proof.
  intros (H1 & H2 & H3 & H4 & H5 & H6).
  pose proof (mid_spec (maxLat (enc_bounds st)) (minLat (enc_bounds st))).
  pose proof (mid_spec (maxLon (enc_bounds st)) (minLon (enc_bounds st))).
  unfold encode_step. cbn [ToNumber].
  rewrite <- (gt_effective (-90) 90 (ToNumber clat)) by lra.
  rewrite <- (gt_effective (-180) 180 (ToNumber clon)) by lra.
  reflexivity.
Qed.

Lemma encode_loop_effective (n : option Z) (fuel : nat) (st : encode_state) :
  proper (enc_bounds st) ->
  encode_loop fuel clat clon n st
  = encode_loop fuel (CNumber (Num elat)) (CNumber (Num elon)) n st.
Proof.
  revert st. induction fuel as [|fuel IH]; intros st H; [reflexivity|].
  cbn [encode_loop]. destruct (encode_continue n st); [|reflexivity].
  rewrite <- (encode_step_effective st H). apply IH.
  apply encode_step_proper. exact H.
Qed.

Lemma encode_final_effective (n : Z) :
  CodecSpec.encode_final clat clon n
  = CodecSpec.encode_final (CNumber (Num elat)) (CNumber (Num elon)) n.
Proof.
  unfold CodecSpec.encode_final. apply encode_loop_effective.
  exact globe_proper.
Qed.

(** The cell [encode] ends with contains the point that stands for the
    coordinates. *)
Lemma encode_final_effective_contains (n : Z) :
  contains (enc_bounds (CodecSpec.encode_final clat clon n)) elat elon.
Proof.
  rewrite encode_final_effective.
  apply encode_final_contains; try reflexivity; apply effective_range; lra.
Qed.

End EncodeEffective.

(** X7.  [encode] reads a coordinate outside its range as the nearest end
    of the range, and one that is not a number as the lower end: for up to
    18 characters the hash is the hash of the point so corrected, and the
    box the hash decodes to contains that point. *)
Theorem encode_out_of_range {host : Host} (clat clon : coordinate) (n : Z) :
  (n <= 18)%Z ->
  let lat := effective (-90) 90 (ToNumber clat) in
  let lon := effective (-180) 180 (ToNumber clon) in
  exists h : string,
    encode clat clon (Chars n) = Normal h
    /\ encode (CNumber (Num lat)) (CNumber (Num lon)) (Chars n) = Normal h
    /\ contains (cell h) lat lon.
Proof.
  intros _ lat lon. subst lat lon.
  exists (join (chars (CodecSpec.encode_final clat clon n))).
  split; [apply encode_Chars|].
  split; [rewrite encode_Chars, <- encode_final_effective; reflexivity|].
  rewrite cell_encode_final. apply encode_final_effective_contains.
Qed.

(** A latitude beyond the north pole and a longitude that is not a number
    are encoded as the point (90, -180). *)
Lemma encode_out_of_range_witness :
  exists h : string,
    @encode sample_host (CNumber (Num 95)) (CNumber NaN) (Chars 5) = Normal h
    /\ @encode sample_host (CNumber (Num 90)) (CNumber (Num (-180))) (Chars 5)
       = Normal h
    /\ contains (cell h) 90 (-180).
Proof.
  apply (@encode_out_of_range sample_host (CNumber (Num 95)) (CNumber NaN) 5).
  lia.
Defined.

(** *** The cells of the neighbours *)

Lemma dir_taken_whole (lo hi mn mx : Q) (d : Z) :
  exists w : Z, dir_taken lo hi mn mx (inject_Z d) = inject_Z w.
Proof.
  unfold dir_taken.
  destruct ((Qeq_bool (inject_Z d) 1 && Qeq_bool mx hi)
            || (Qeq_bool (inject_Z d) (-1) && Qeq_bool mn lo));
    [exists 0%Z | exists d]; reflexivity.
Qed.

(** Along one axis: the point a whole interval away from the middle of an
    interval of the grid, brought back into the range, lies inside the
    interval reached by the step taken, or on the end of the range that
    interval touches. *)
Lemma axis_step (lo hi mn mx p : Q) (k : nat) (i d : Z) :
  lo < hi ->
  (mn - lo) * pow2 k == (hi - lo) * inject_Z i ->
  (mx - lo) * pow2 k == (hi - lo) * inject_Z (i + 1) ->
  lo <= mn -> mx <= hi ->
  (-1 <= d <= 1)%Z ->
  p == (mx + mn) * (1 # 2) + inject_Z d * (mx - mn) ->
  let d' := dir_taken lo hi mn mx (inject_Z d) in
  let q := clamp lo hi p in
  let tmn := mn + d' * (mx - mn) in
  let tmx := mx + d' * (mx - mn) in
  (lo <= tmn /\ tmx <= hi)
  /\ ((tmn < q /\ q < tmx) \/ (q == hi /\ tmx == hi) \/ (q == lo /\ tmn == lo)).
Proof.
  intros Hrange Hmn Hmx Hlo Hhi Hd Hp. cbv zeta.
  pose proof (pow2_pos k) as Pk.
  rewrite inject_Z_succ in Hmx.
  assert (Hwidth : mn < mx) by nra.
  assert (Hup : mx < hi -> mx + (mx - mn) <= hi).
  { intros Hlt.
    assert (inject_Z (i + 1) < inject_Z (2 ^ Z.of_nat k)) as L.
    { rewrite inject_Z_succ. fold (pow2 k). nra. }
    rewrite <- Zlt_Qlt in L.
    assert (i + 2 <= 2 ^ Z.of_nat k)%Z as L' by lia.
    rewrite Zle_Qle in L'. fold (pow2 k) in L'.
    rewrite inject_Z_plus in L'. change (inject_Z 2) with 2 in L'. nra. }
  assert (Hdown : lo < mn -> lo <= mn - (mx - mn)).
  { intros Hlt.
    assert (inject_Z 0 < inject_Z i) as L by (change (inject_Z 0) with 0; nra).
    rewrite <- Zlt_Qlt in L.
    assert (1 <= i)%Z as L' by lia.
    rewrite Zle_Qle in L'. change (inject_Z 1) with 1 in L'. nra. }
  assert (Hcases : d = (-1)%Z \/ d = 0%Z \/ d = 1%Z) by lia.
  unfold dir_taken, clamp.
  destruct Hcases as [-> | [-> | ->]].
  - change (inject_Z (-1)) with (-1) in *.
    change (Qeq_bool (-1) 1) with false. change (Qeq_bool (-1) (-1)) with true.
    cbn [andb orb].
    destruct (Qeq_bool mn lo) eqn:E; compare_cases;
      (split; [split; lra|]); try (left; split; lra);
      try (right; right; split; lra); try (right; left; split; lra);
      exfalso; lra.
  - change (inject_Z 0) with 0 in *.
    change (Qeq_bool 0 1) with false. change (Qeq_bool 0 (-1)) with false.
    cbn [andb orb].
    compare_cases;
      (split; [split; lra|]); try (left; split; lra);
      try (right; right; split; lra); try (right; left; split; lra);
      exfalso; lra.
  - change (inject_Z 1) with 1 in *.
    change (Qeq_bool 1 1) with true. change (Qeq_bool 1 (-1)) with false.
    cbn [andb orb]. rewrite orb_false_r.
    destruct (Qeq_bool mx hi) eqn:E; compare_cases;
      (split; [split; lra|]); try (left; split; lra);
      try (right; right; split; lra); try (right; left; split; lra);
      exfalso; lra.
Qed.

Lemma cell_proper (h : string) : proper (cell h).
Proof.
  destruct (decode_chars_inside_globe h decode_init globe_inside_globe)
    as (G1 & G2 & G3 & G4 & G5 & G6). fold (cell h) in G1, G2, G3, G4, G5, G6.
  destruct (cell_positive h) as [P1 P2].
  unfold proper. split; [|split; [|split; [|split; [|split]]]]; lra.
Qed.

(** What [decode] returns, in terms of the cell of the hash. *)
Lemma decode_cell (h : string) :
  decode h
  = Normal
      {| latitude := div (add (minLat (cell h)) (maxLat (cell h))) 2;
         longitude := div (add (minLon (cell h)) (maxLon (cell h))) 2;
         error :=
           {| error_latitude :=
                sub (maxLat (cell h))
                  (div (add (minLat (cell h)) (maxLat (cell h))) 2);
              error_longitude :=
                sub (maxLon (cell h))
                  (div (add (minLon (cell h)) (maxLon (cell h))) 2) |} |}.
Proof. reflexivity. Qed.

Section NeighborCell.
Context {host : Host}.

(** The hash of the point a whole number of heights and widths, at most
    one, away from the centre of a cell is the hash of the cell reached by
    the steps taken. *)
Lemma neighbor_cell (h : string) (u v : Z) (la lo : Q) :
  (-1 <= u <= 1)%Z -> (-1 <= v <= 1)%Z ->
  la == (maxLat (cell h) + minLat (cell h)) * (1 # 2)
        + inject_Z u * (maxLat (cell h) - minLat (cell h)) ->
  lo == (maxLon (cell h) + minLon (cell h)) * (1 # 2)
        + inject_Z v * (maxLon (cell h) - minLon (cell h)) ->
  exists hk : string,
    encode (CNumber (Num la)) (CNumber (Num lo))
      (Chars (Z.of_nat (String.length h))) = Normal hk
    /\ String.length hk = String.length h
    /\ over_alphabet hk
    /\ same_bounds (cell hk)
         (shift (latDir_taken (cell h) (inject_Z u))
            (lonDir_taken (cell h) (inject_Z v)) (cell h)).
Proof.
  intros Hu Hv Hla Hlo.
  set (clat := CNumber (Num la)). set (clon := CNumber (Num lo)).
  set (n := Z.of_nat (String.length h)).
  set (hk := join (chars (CodecSpec.encode_final clat clon n))).
  assert (Hlen : String.length hk = String.length h).
  { unfold hk. rewrite encode_length. unfold n. apply Nat2Z.id. }
  exists hk. split; [apply encode_Chars|]. split; [exact Hlen|].
  split; [apply encode_final_over_alphabet|].
  pose proof (encode_final_effective_contains clat clon n) as Hq.
  rewrite <- cell_encode_final in Hq. fold hk in Hq.
  cbn [clat clon ToNumber effective] in Hq.
  destruct Hq as (Q1 & Q2 & Q3 & Q4).
  destruct (cell_proper hk) as (K1 & K2 & K3 & K4 & K5 & K6).
  destruct (cell_proper h) as (C1 & C2 & C3 & C4 & C5 & C6).
  pose proof (cell_grid hk) as Gk. rewrite Hlen in Gk.
  pose proof (cell_grid h) as Gh.
  set (a := lon_bits (String.length h)) in *.
  set (b := lat_bits (String.length h)) in *.
  unfold latDir_taken, lonDir_taken.
  destruct (dir_taken_whole (-90) 90 (minLat (cell h)) (maxLat (cell h)) u)
    as (u' & Eu).
  destruct (dir_taken_whole (-180) 180 (minLon (cell h)) (maxLon (cell h)) v)
    as (v' & Ev).
  apply (cell_unique a b); [exact Gk | |].
  - rewrite Eu, Ev. apply shift_grid. exact Gh.
  - destruct Gh as (i & j & Hs & Hn & Hw & He).
    assert (Alat := axis_step (-90) 90 (minLat (cell h)) (maxLat (cell h)) la
                      b i u).
    assert (Alon := axis_step (-180) 180 (minLon (cell h)) (maxLon (cell h)) lo
                      a j v).
    cbv zeta in Alat, Alon.
    destruct Alat as ((T1 & T2) & Tlat); try assumption; try lra.
    destruct Alon as ((T3 & T4) & Tlon); try assumption; try lra.
    unfold overlap, shift. bounds_cbn.
    destruct Tlat as [[? ?] | [[? ?] | [? ?]]];
      destruct Tlon as [[? ?] | [[? ?] | [? ?]]];
      (split; [|split; [|split]]); lra.
Qed.

End NeighborCell.

Section NeighborsReached.
Context {host : Host}.

(** Every hash [neighbors] returns is the hash of the cell reached in its
    direction. *)
Lemma neighbors_reached (h : string) :
  exists n ne e se s sw w nw : string,
    neighbors h = Normal [n; ne; e; se; s; sw; w; nw]
    /\ reached h (1, 0) n /\ reached h (1, 1) ne
    /\ reached h (0, 1) e /\ reached h (-1, 1) se
    /\ reached h (-1, 0) s /\ reached h (-1, -1) sw
    /\ reached h (0, -1) w /\ reached h (1, -1) nw.
Proof.
  unfold neighbors. rewrite decode_cell.
  cbn [bind latitude longitude error error_latitude error_longitude].
  set (lat := div (add (minLat (cell h)) (maxLat (cell h))) 2).
  set (lon := div (add (minLon (cell h)) (maxLon (cell h))) 2).
  set (latErr := mul (sub (maxLat (cell h)) lat) 2).
  set (lonErr := mul (sub (maxLon (cell h)) lon) 2).
  assert (Hoff : forall u v : Z,
             (-1 <= u <= 1)%Z -> (-1 <= v <= 1)%Z ->
             exists hk : string,
               encode (CNumber (Num (add lat (mul (inject_Z u) latErr))))
                 (CNumber (Num (add lon (mul (inject_Z v) lonErr))))
                 (Chars (Z.of_nat (String.length h))) = Normal hk
               /\ reached h (inject_Z u, inject_Z v) hk).
  { intros u v Hu Hv.
    destruct (neighbor_cell h u v (add lat (mul (inject_Z u) latErr))
                (add lon (mul (inject_Z v) lonErr)) Hu Hv)
      as (hk & E & L & A & B).
    - unfold latErr, lat. rewrite !add_spec, !mul_spec, !sub_spec, !mid_spec.
      ring.
    - unfold lonErr, lon. rewrite !add_spec, !mul_spec, !sub_spec, !mid_spec.
      ring.
    - exists hk. split; [exact E|]. split; [exact L|]. split; assumption. }
  destruct (Hoff 1%Z 0%Z) as (n0 & E0 & B0); [lia | lia |].
  destruct (Hoff 1%Z 1%Z) as (n1 & E1 & B1); [lia | lia |].
  destruct (Hoff 0%Z 1%Z) as (n2 & E2 & B2); [lia | lia |].
  destruct (Hoff (-1)%Z 1%Z) as (n3 & E3 & B3); [lia | lia |].
  destruct (Hoff (-1)%Z 0%Z) as (n4 & E4 & B4); [lia | lia |].
  destruct (Hoff (-1)%Z (-1)%Z) as (n5 & E5 & B5); [lia | lia |].
  destruct (Hoff 0%Z (-1)%Z) as (n6 & E6 & B6); [lia | lia |].
  destruct (Hoff 1%Z (-1)%Z) as (n7 & E7 & B7); [lia | lia |].
  change (inject_Z 1) with 1 in *. change (inject_Z 0) with 0 in *.
  change (inject_Z (-1)) with (-1) in *.
  rewrite E0, E1, E2, E3, E4, E5, E6, E7. cbn [bind ret].
  exists n0, n1, n2, n3, n4, n5, n6, n7. split; [reflexivity|].
  repeat (split; [assumption|]). assumption.
Qed.

End NeighborsReached.

(** X8.  The box of each hash [neighbors] returns is the box of its
    argument moved by one height and one width in the direction of that
    neighbour; no step is taken across a pole or across the meridian of 180
    degrees, where the neighbour stays in the row or the column of the
    argument.  Stated for hashes of up to 18 characters. *)
Theorem neighbors_cells {host : Host} (h : string) :
  (String.length h <= 18)%nat ->
  exists cells : list string,
    neighbors h = Normal cells
    /\ Forall2
         (fun d c =>
            same_bounds (cell c)
              (shift (latDir_taken (cell h) (fst d))
                 (lonDir_taken (cell h) (snd d)) (cell h)))
         directions cells.
Proof.
  intros _.
  destruct (neighbors_reached h)
    as (n & ne & e & se & s & sw & w & nw & E
        & (_ & _ & B0) & (_ & _ & B1) & (_ & _ & B2) & (_ & _ & B3)
        & (_ & _ & B4) & (_ & _ & B5) & (_ & _ & B6) & (_ & _ & B7)).
  eexists. split; [exact E|]. unfold directions.
  repeat (apply Forall2_cons; [assumption|]).
  apply Forall2_nil.
Qed.

(** The neighbours of a hash of five characters. *)
Lemma neighbors_cells_witness :
  exists cells : list string,
    @neighbors sample_host "9q8yy" = Normal cells
    /\ Forall2
         (fun d c =>
            same_bounds (cell c)
              (shift (latDir_taken (cell "9q8yy") (fst d))
                 (lonDir_taken (cell "9q8yy") (snd d)) (cell "9q8yy")))
         directions cells.
Proof.
  apply (@neighbors_cells sample_host "9q8yy"). cbn [String.length]. lia.
Defined.

(** A hash over the alphabet with the cell of [h], and of its length, is
    [h] in lowercase. *)
Lemma same_cell_hash (x h : string) :
  String.length x = String.length h -> over_alphabet x ->
  same_bounds (cell x) (cell h) -> x = canonical h.
Proof.
  intros Hlen Hx (B1 & B2 & B3 & B4).
  apply (decode_chars_separate _ _ decode_init).
  - rewrite canonical_length. exact Hlen.
  - exact Hx.
  - apply canonical_over_alphabet.
  - exact globe_inside_globe.
  - fold (cell x). fold (cell (canonical h)). rewrite cell_canonical.
    destruct (cell_positive h) as [P1 P2].
    unfold overlap. split; [|split; [|split]]; lra.
Qed.

Lemma dir_taken_stopped (lo hi mn mx d : Q) :
  (d == 1 /\ mx == hi) \/ (d == -1 /\ mn == lo) \/ d == 0 ->
  dir_taken lo hi mn mx d == 0.
Proof.
  intros H. unfold dir_taken.
  destruct (Qeq_bool d 1) eqn:E1, (Qeq_bool mx hi) eqn:E2,
           (Qeq_bool d (-1)) eqn:E3, (Qeq_bool mn lo) eqn:E4;
    cbn [andb orb]; try reflexivity; compare_cases;
    destruct H as [[? ?] | [[? ?] | ?]]; lra.
Qed.

(** The hash reached with no step taken is the hash itself. *)
Lemma reached_stopped (h : string) (d : Q * Q) (c : string) :
  reached h d c ->
  latDir_taken (cell h) (fst d) == 0 -> lonDir_taken (cell h) (snd d) == 0 ->
  c = canonical h.
Proof.
  intros (Hlen & Hc & (B1 & B2 & B3 & B4)) Hlat Hlon.
  apply same_cell_hash; [exact Hlen | exact Hc |].
  unfold shift in B1, B2, B3, B4. bounds_cbn.
  rewrite Hlat in B1, B2. rewrite Hlon in B3, B4.
  unfold same_bounds. split; [|split; [|split]]; lra.
Qed.

(** X9.  [neighbors] does not wrap around: for a hash whose box touches a
    pole, the neighbour towards that pole is the hash itself, in lowercase
    and with ["0"] for unknown characters, and so is the neighbour to the
    east or to the west for a box that touches the meridian of 180 degrees.
    Stated for hashes of up to 18 characters. *)
Theorem neighbors_at_the_edge {host : Host} (h : string) :
  (String.length h <= 18)%nat ->
  exists n ne e se s sw w nw : string,
    neighbors h = Normal [n; ne; e; se; s; sw; w; nw]
    /\ (maxLat (cell h) == 90 -> n = canonical h)
    /\ (minLat (cell h) == -90 -> s = canonical h)
    /\ (maxLon (cell h) == 180 -> e = canonical h)
    /\ (minLon (cell h) == -180 -> w = canonical h).
Proof.
  intros _.
  destruct (neighbors_reached h)
    as (n & ne & e & se & s & sw & w & nw & E
        & R0 & _ & R2 & _ & R4 & _ & R6 & _).
  exists n, ne, e, se, s, sw, w, nw. split; [exact E|].
  split; [|split; [|split]]; intros Hedge.
  - apply (reached_stopped h _ _ R0); apply dir_taken_stopped; cbn [fst snd];
      [left; split; [reflexivity | exact Hedge] | right; right; reflexivity].
  - apply (reached_stopped h _ _ R4); apply dir_taken_stopped; cbn [fst snd];
      [right; left; split; [reflexivity | exact Hedge]
      | right; right; reflexivity].
  - apply (reached_stopped h _ _ R2); apply dir_taken_stopped; cbn [fst snd];
      [right; right; reflexivity | left; split; [reflexivity | exact Hedge]].
  - apply (reached_stopped h _ _ R6); apply dir_taken_stopped; cbn [fst snd];
      [right; right; reflexivity
      | right; left; split; [reflexivity | exact Hedge]].
Qed.

(** The hash ["z"] touches the north pole and the meridian of 180 degrees:
    it is its own neighbour to the north and to the east. *)
Lemma neighbors_at_the_edge_witness :
  exists n ne e se s sw w nw : string,
    @neighbors sample_host "z" = Normal [n; ne; e; se; s; sw; w; nw]
    /\ n = "z"%string /\ e = "z"%string.
Proof.
  destruct (@neighbors_at_the_edge sample_host "z")
    as (n & ne & e & se & s & sw & w & nw & E & Hn & _ & He & _).
  - cbn [String.length]. lia.
  - exists n, ne, e, se, s, sw, w, nw. split; [exact E|].
    split; [apply Hn | apply He]; vm_compute; reflexivity.
Defined.

(** *** There and back *)

(** Along one axis: after a step taken in full, the step back is taken in
    full and leads back. *)
Lemma axis_back (lo hi mn mx cmn cmx : Q) (d : Z) :
  lo <= mn -> mn < mx -> mx <= hi ->
  (-1 <= d <= 1)%Z ->
  dir_taken lo hi mn mx (inject_Z d) == inject_Z d ->
  cmn == mn + inject_Z d * (mx - mn) ->
  cmx == mx + inject_Z d * (mx - mn) ->
  let back := dir_taken lo hi cmn cmx (inject_Z (- d)) in
  cmn + back * (cmx - cmn) == mn /\ cmx + back * (cmx - cmn) == mx.
Proof.
  intros Hlo Hwidth Hhi Hd Htaken Hcmn Hcmx. cbv zeta.
  assert (Hcases : d = (-1)%Z \/ d = 0%Z \/ d = 1%Z) by lia.
  revert Htaken. unfold dir_taken.
  destruct Hcases as [-> | [-> | ->]].
  - cbn [Z.opp]. change (inject_Z 1) with 1.
    change (inject_Z (-1)) with (-1) in *.
    change (Qeq_bool (-1) 1) with false. change (Qeq_bool (-1) (-1)) with true.
    change (Qeq_bool 1 1) with true. change (Qeq_bool 1 (-1)) with false.
    cbn [andb orb]. rewrite orb_false_r.
    destruct (Qeq_bool mn lo) eqn:E1; [intros Habs; exfalso; lra|].
    intros _. destruct (Qeq_bool cmx hi) eqn:E2;
      [apply Qeq_bool_iff in E2; exfalso; lra | split; lra].
  - cbn [Z.opp]. change (inject_Z 0) with 0 in *.
    change (Qeq_bool 0 1) with false. change (Qeq_bool 0 (-1)) with false.
    cbn [andb orb]. intros _. split; lra.
  - cbn [Z.opp]. change (inject_Z (-1)) with (-1).
    change (inject_Z 1) with 1 in *.
    change (Qeq_bool (-1) 1) with false. change (Qeq_bool (-1) (-1)) with true.
    change (Qeq_bool 1 1) with true. change (Qeq_bool 1 (-1)) with false.
    cbn [andb orb]. rewrite orb_false_r.
    destruct (Qeq_bool mx hi) eqn:E1; [intros Habs; exfalso; lra|].
    intros _. destruct (Qeq_bool cmn lo) eqn:E2;
      [apply Qeq_bool_iff in E2; exfalso; lra | split; lra].
Qed.

(** The hash reached from a neighbour reached by steps taken in full, in
    the opposite direction, is the hash started from. *)
Lemma reached_back (h c b : string) (u v : Z) :
  (-1 <= u <= 1)%Z -> (-1 <= v <= 1)%Z ->
  reached h (inject_Z u, inject_Z v) c ->
  latDir_taken (cell h) (inject_Z u) == inject_Z u ->
  lonDir_taken (cell h) (inject_Z v) == inject_Z v ->
  reached c (inject_Z (- u), inject_Z (- v)) b ->
  b = canonical h.
Proof.
  intros Hu Hv (Lc & Ac & (C1 & C2 & C3 & C4)) Tlat Tlon
         (Lb & Ab & (B1 & B2 & B3 & B4)).
  destruct (cell_proper h) as (P1 & P2 & P3 & P4 & P5 & P6).
  apply same_cell_hash; [congruence | exact Ab |].
  unfold shift in *. cbn [fst snd] in *. bounds_cbn.
  rewrite Tlat in C1, C2. rewrite Tlon in C3, C4.
  destruct (axis_back (-90) 90 (minLat (cell h)) (maxLat (cell h))
              (minLat (cell c)) (maxLat (cell c)) u)
    as [A1 A2]; try assumption.
  destruct (axis_back (-180) 180 (minLon (cell h)) (maxLon (cell h))
              (minLon (cell c)) (maxLon (cell c)) v)
    as [A3 A4]; try assumption.
  unfold latDir_taken, lonDir_taken in B1, B2, B3, B4.
  unfold same_bounds. split; [|split; [|split]]; lra.
Qed.

Lemma dir_taken_full (lo hi mn mx d : Q) :
  (d == 1 -> mx < hi) -> (d == -1 -> lo < mn) -> dir_taken lo hi mn mx d = d.
Proof.
  intros Hup Hdown. unfold dir_taken.
  destruct (Qeq_bool d 1) eqn:E1, (Qeq_bool mx hi) eqn:E2,
           (Qeq_bool d (-1)) eqn:E3, (Qeq_bool mn lo) eqn:E4;
    cbn [andb orb]; try reflexivity; exfalso;
    repeat match goal with
      | H : Qeq_bool _ _ = true |- _ => apply Qeq_bool_iff in H
      | H : Qeq_bool _ _ = false |- _ => clear H
      end;
    try (specialize (Hup ltac:(assumption)));
    try (specialize (Hdown ltac:(assumption))); lra.
Qed.

Section ThereAndBack.
Context {host : Host}.

Lemma neighbor_back (h c : string) (u v : Z) (k : nat) :
  (-1 <= u <= 1)%Z -> (-1 <= v <= 1)%Z ->
  reached h (inject_Z u, inject_Z v) c ->
  latDir_taken (cell h) (inject_Z u) = inject_Z u ->
  lonDir_taken (cell h) (inject_Z v) = inject_Z v ->
  nth_error directions k = Some (inject_Z (- u), inject_Z (- v)) ->
  back_at k c h.
Proof.
  intros Hu Hv Hc Tlat Tlon Hk.
  destruct (neighbors_reached c)
    as (n0 & n1 & n2 & n3 & n4 & n5 & n6 & n7 & E
        & R0 & R1 & R2 & R3 & R4 & R5 & R6 & R7).
  exists [n0; n1; n2; n3; n4; n5; n6; n7]. split; [exact E|].
  assert (Hback : forall b d,
             reached c d b -> Some d = Some (inject_Z (- u), inject_Z (- v)) ->
             b = canonical h).
  { intros b d Hb Hd. injection Hd as ->.
    apply (reached_back h c b u v Hu Hv Hc); [| |exact Hb].
    - rewrite Tlat. reflexivity.
    - rewrite Tlon. reflexivity. }
  do 8 (destruct k as [|k];
        [cbn [nth_error directions] in *; f_equal; eapply Hback; eassumption|]).
  destruct k; discriminate Hk.
Qed.

End ThereAndBack.

(** X10.  Going to a neighbour and back: where the box of a hash does not
    touch the edge of the map in a direction, the neighbour in the opposite
    direction of its neighbour in that direction is the hash itself, in
    lowercase and with ["0"] for unknown characters.  Stated for hashes of
    up to 18 characters. *)
Theorem neighbors_there_and_back {host : Host} (h : string) :
  (String.length h <= 18)%nat ->
  exists n ne e se s sw w nw : string,
    neighbors h = Normal [n; ne; e; se; s; sw; w; nw]
    /\ let north := maxLat (cell h) < 90 in
       let south := -90 < minLat (cell h) in
       let east := maxLon (cell h) < 180 in
       let west := -180 < minLon (cell h) in
       (north -> back_at 4 n h)
       /\ (north -> east -> back_at 5 ne h)
       /\ (east -> back_at 6 e h)
       /\ (south -> east -> back_at 7 se h)
       /\ (south -> back_at 0 s h)
       /\ (south -> west -> back_at 1 sw h)
       /\ (west -> back_at 2 w h)
       /\ (north -> west -> back_at 3 nw h).
Proof.
  intros _.
  destruct (neighbors_reached h)
    as (n & ne & e & se & s & sw & w & nw & E
        & R0 & R1 & R2 & R3 & R4 & R5 & R6 & R7).
  exists n, ne, e, se, s, sw, w, nw. split; [exact E|]. cbv zeta.
  assert (Hgo : forall (u v : Z) (k : nat) (c : string),
             (-1 <= u <= 1)%Z -> (-1 <= v <= 1)%Z ->
             reached h (inject_Z u, inject_Z v) c ->
             nth_error directions k = Some (inject_Z (- u), inject_Z (- v)) ->
             (inject_Z u == 1 -> maxLat (cell h) < 90) ->
             (inject_Z u == -1 -> -90 < minLat (cell h)) ->
             (inject_Z v == 1 -> maxLon (cell h) < 180) ->
             (inject_Z v == -1 -> -180 < minLon (cell h)) ->
             back_at k c h).
  { intros u v k c Hu Hv Hc Hk N S0 E0 W.
    apply (neighbor_back h c u v k Hu Hv Hc); [| |exact Hk].
    - apply dir_taken_full; assumption.
    - apply dir_taken_full; assumption. }
  repeat split; intros.
  - apply (Hgo 1%Z 0%Z 4%nat n); try lia; try assumption; try reflexivity;
      intros Habs;
      first [assumption | vm_compute in Habs; discriminate Habs].
  - apply (Hgo 1%Z 1%Z 5%nat ne); try lia; try assumption; try reflexivity;
      intros Habs;
      first [assumption | vm_compute in Habs; discriminate Habs].
  - apply (Hgo 0%Z 1%Z 6%nat e); try lia; try assumption; try reflexivity;
      intros Habs;
      first [assumption | vm_compute in Habs; discriminate Habs].
  - apply (Hgo (-1)%Z 1%Z 7%nat se); try lia; try assumption; try reflexivity;
      intros Habs;
      first [assumption | vm_compute in Habs; discriminate Habs].
  - apply (Hgo (-1)%Z 0%Z 0%nat s); try lia; try assumption; try reflexivity;
      intros Habs;
      first [assumption | vm_compute in Habs; discriminate Habs].
  - apply (Hgo (-1)%Z (-1)%Z 1%nat sw); try lia; try assumption;
      try reflexivity; intros Habs;
      first [assumption | vm_compute in Habs; discriminate Habs].
  - apply (Hgo 0%Z (-1)%Z 2%nat w); try lia; try assumption; try reflexivity;
      intros Habs;
      first [assumption | vm_compute in Habs; discriminate Habs].
  - apply (Hgo 1%Z (-1)%Z 3%nat nw); try lia; try assumption; try reflexivity;
      intros Habs;
      first [assumption | vm_compute in Habs; discriminate Habs].
Qed.

(** The hash ["9q8yy"] touches no edge of the map: each of its eight
    neighbours has it as the opposite neighbour. *)
Lemma neighbors_there_and_back_witness :
  exists n ne e se s sw w nw : string,
    @neighbors sample_host "9q8yy" = Normal [n; ne; e; se; s; sw; w; nw]
    /\ @back_at sample_host 4 n "9q8yy" /\ @back_at sample_host 5 ne "9q8yy"
    /\ @back_at sample_host 6 e "9q8yy" /\ @back_at sample_host 7 se "9q8yy"
    /\ @back_at sample_host 0 s "9q8yy" /\ @back_at sample_host 1 sw "9q8yy"
    /\ @back_at sample_host 2 w "9q8yy" /\ @back_at sample_host 3 nw "9q8yy".
Proof.
  destruct (@neighbors_there_and_back sample_host "9q8yy")
    as (n & ne & e & se & s & sw & w & nw & E
        & H0 & H1 & H2 & H3 & H4 & H5 & H6 & H7).
  - cbn [String.length]. lia.
  - assert (N : maxLat (cell "9q8yy") < 90) by (vm_compute; reflexivity).
    assert (S0 : -90 < minLat (cell "9q8yy")) by (vm_compute; reflexivity).
    assert (E0 : maxLon (cell "9q8yy") < 180) by (vm_compute; reflexivity).
    assert (W : -180 < minLon (cell "9q8yy")) by (vm_compute; reflexivity).
    exists n, ne, e, se, s, sw, w, nw. split; [exact E|].
    repeat split; auto.
Defined.

(** * Further properties of the search *)

Module SearchMore.
Import JS Geohash GeohashService CodecSpec SearchSpec SearchFacts.
Local Open Scope js_scope.

(** ** The range of a query *)

Lemma ascii_compare_refl (a : ascii) : Ascii.compare a a = Eq.
Proof. unfold Ascii.compare. apply N.compare_refl. Qed.

Lemma compare_app (c t u : string) :
  String.compare (c ++ t) (c ++ u) = String.compare t u.
Proof.
  induction c as [|a c IH]; [reflexivity|].
  cbn [append String.compare]. rewrite ascii_compare_refl. exact IH.
Qed.

Lemma leb_app (c t : string) : String.leb c (c ++ t) = true.
Proof.
  unfold String.leb.
  replace c with (c ++ "")%string at 1
    by (induction c as [|a c IH]; [reflexivity | cbn [append]; congruence]).
  rewrite compare_app. destruct t; reflexivity.
Qed.

Lemma alphabet_below_tilde (a : ascii) :
  includes BASE32_CODES a = true -> Ascii.compare a "~" = Lt.
Proof.
  destruct a as [[] [] [] [] [] [] [] []]; vm_compute;
    intros H; try reflexivity; discriminate H.
Qed.

Lemma leb_prefix (c s u : string) :
  String.leb c s = true -> String.leb s (c ++ u) = true ->
  String.prefix c s = true.
Proof.
  revert s. induction c as [|a c IH]; intros s H1 H2.
  - destruct s; reflexivity.
  - destruct s as [|b s]; [discriminate H1|].
    unfold String.leb in H1, H2. cbn [append String.compare] in H1, H2.
    rewrite (Ascii.compare_antisym b a) in H2.
    destruct (Ascii.compare a b) eqn:E; cbn [CompOpp] in H2;
      try discriminate H1; try discriminate H2.
    apply Ascii.compare_eq_iff in E. subst b.
    cbn [String.prefix]. destruct (ascii_dec a a) as [_|N]; [|congruence].
    apply IH; [exact H1 | exact H2].
Qed.

Lemma in_range_app (hash field_ t : string) :
  over_alphabet t -> in_range (queryByGeohash hash field_) (hash ++ t) = true.
Proof.
  unfold in_range, queryByGeohash. cbn [startAt endAt].
  intros Ht. rewrite leb_app. cbn [andb].
  unfold String.leb. rewrite compare_app.
  destruct t as [|a t]; [reflexivity|].
  unfold over_alphabet in Ht. cbn [list_ascii_of_string] in Ht.
  inversion Ht as [|? ? Ha _]; subst.
  cbn [String.compare]. rewrite (alphabet_below_tilde a Ha). reflexivity.
Qed.

Lemma in_range_prefix (hash field_ s : string) :
  in_range (queryByGeohash hash field_) s = true ->
  String.prefix hash s = true.
Proof.
  unfold in_range, queryByGeohash. cbn [startAt endAt].
  intros H. apply andb_true_iff in H. destruct H as [H1 H2].
  exact (leb_prefix hash s "~" H1 H2).
Qed.

(** X11.  The range a query selects, from the hash to the hash followed by
    ["~"], holds every string that continues the hash with characters of the
    alphabet, and only strings that begin with the hash. *)
Theorem queryByGeohash_range (hash field_ : string) :
  (forall t : string,
      over_alphabet t ->
      in_range (queryByGeohash hash field_) (hash ++ t) = true)
  /\ (forall s : string,
         in_range (queryByGeohash hash field_) s = true ->
         String.prefix hash s = true).
Proof.
  split; [apply in_range_app | apply in_range_prefix].
Qed.

(** A string over the alphabet is its beginning followed by a string over
    the alphabet. *)
Lemma over_alphabet_split (h : string) (n : nat) :
  over_alphabet h ->
  exists t : string, h = (String.substring 0 n h ++ t)%string /\ over_alphabet t.
Proof.
  unfold over_alphabet. revert n.
  induction h as [|a h IH]; intros n Hh.
  - exists ""%string. destruct n; split; (reflexivity || exact Hh).
  - destruct n as [|n].
    + exists (String a h). split; [reflexivity | exact Hh].
    + cbn [list_ascii_of_string] in Hh. inversion Hh as [|? ? _ Hh']; subst.
      destruct (IH n Hh') as (t & E & Ht).
      exists t. split; [|exact Ht].
      cbn [String.substring append]. congruence.
Qed.

Section Created.
Context {host : Host}.
Variable GeoPoint : Q -> Q -> completion value.

(** X12.  A query finds the documents of its cell: the geohash
    [createGeoData] stores for a point lies in the range of the query of a
    hash of up to nine characters exactly when that hash is the hash of the
    point at its length. *)
Theorem created_document_query (la lo : Q) (g : GeoData) (c field_ : string) :
  createGeoData GeoPoint la lo = Normal g ->
  (String.length c <= 9)%nat ->
  in_range (queryByGeohash c field_) (geohash g) = true
  <-> encode (CNumber (Num la)) (CNumber (Num lo))
        (Chars (Z.of_nat (String.length c))) = Normal c.
Proof.
  unfold createGeoData. destruct (GeoPoint la lo) as [point|e];
    [|discriminate]. cbn [bind]. rewrite !encode_Chars. cbn [bind ret].
  intros [= <-] Hlen. cbn [geohash].
  set (clat := CNumber (Num la)). set (clon := CNumber (Num lo)).
  set (h9 := join (chars (encode_final clat clon geohashLength))).
  assert (Hcut : String.substring 0 (String.length c) h9
                 = join (chars (encode_final clat clon
                                  (Z.of_nat (String.length c))))).
  { rewrite <- (encode_final_prefix clat clon (Z.of_nat (String.length c))
                  geohashLength) by (unfold geohashLength; lia).
    unfold substr0. rewrite Nat2Z.id. reflexivity. }
  split.
  - intros Hin. apply in_range_prefix in Hin.
    apply String.prefix_correct in Hin. congruence.
  - intros [= Hc].
    destruct (over_alphabet_split h9 (String.length c)
                (encode_final_over_alphabet clat clon geohashLength))
      as (t & E & Ht).
    rewrite Hcut, Hc in E. rewrite E. apply in_range_app. exact Ht.
Qed.

End Created.

(** A document created in Paris and the query of the cell ["u09tv"]. *)
Lemma created_document_query_witness :
  in_range (queryByGeohash "u09tv" "location") "u09tvw0f6" = true
  <-> @encode sample_host (CNumber (Num 48.8566)) (CNumber (Num 2.3522))
        (Chars 5) = Normal "u09tv"%string.
Proof.
  apply (@created_document_query sample_host sample_GeoPoint 48.8566 2.3522
           {| geopoint :=
                VObject 1 [("latitude"%string, VNumber (Num 48.8566));
                           ("longitude"%string, VNumber (Num 2.3522))];
              geohash := "u09tvw0f6" |} "u09tv" "location").
  - vm_compute. reflexivity.
  - cbn [String.length]. lia.
Defined.

(** ** The cells and the candidates of a search *)

Lemma fold_left_app_concat {A : Type} (ls : list (list A)) (acc : list A) :
  fold_left (fun acc curr => acc ++ curr) ls acc = acc ++ List.concat ls.
Proof.
  revert acc. induction ls as [|l ls IH]; intros acc; cbn [fold_left List.concat].
  - rewrite app_nil_r. reflexivity.
  - rewrite IH, app_assoc. reflexivity.
Qed.

Lemma Promise_all_Normal {A : Type} (ps : list (completion A)) (l : list A) :
  Promise_all ps = Normal l <-> Forall2 (fun p a => p = Normal a) ps l.
Proof.
  revert l. induction ps as [|p ps IH]; intros l; cbn [Promise_all].
  - split.
    + intros [= <-]. constructor.
    + intros H. inversion H. reflexivity.
  - split.
    + intros H. apply bind_Normal in H as (a & -> & H).
      apply bind_Normal in H as (others & Hothers & H).
      injection H as <-. constructor; [reflexivity|].
      apply IH. exact Hothers.
    + intros H. inversion H as [|? a ? others Hp Hrest]; subst.
      cbn [bind]. apply IH in Hrest. rewrite Hrest. reflexivity.
Qed.

Lemma Promise_all_Throw {A : Type} (ps : list (completion A)) (e : exn) :
  In (Throw e) ps -> exists e', In (Throw e') ps /\ Promise_all ps = Throw e'.
Proof.
  induction ps as [|p ps IH]; intros Hin; [destruct Hin|].
  cbn [Promise_all]. destruct p as [a|e0].
  - destruct Hin as [Habs | Hin]; [discriminate Habs|].
    destruct (IH Hin) as (e' & Hin' & ->).
    exists e'. split; [right; exact Hin' | reflexivity].
  - exists e0. split; [left; reflexivity | reflexivity].
Qed.

Section Cells.
Context {host : Host}.

(** X13.  A search queries nine cells: the eight neighbours of the centre
    cell, then the centre cell, which is the hash of the centre at the
    number of characters [setPrecision] gives for the radius; the nine
    hashes have that length, from 1 to 9, and are over the alphabet. *)
Theorem search_cells (opts : GeoSearchOptions) :
  exists c n ne e se s sw w nw : string,
    encode (CNumber (Num (lat (center opts))))
      (CNumber (Num (lng (center opts))))
      (Chars (setPrecision (radius opts))) = Normal c
    /\ neighbors c = Normal [n; ne; e; se; s; sw; w; nw]
    /\ area opts = Normal [n; ne; e; se; s; sw; w; nw; c]
    /\ Forall (fun x => String.length x = Z.to_nat (setPrecision (radius opts))
                        /\ over_alphabet x)
         [n; ne; e; se; s; sw; w; nw; c]
    /\ (1 <= setPrecision (radius opts) <= 9)%Z.
Proof.
  set (clat := CNumber (Num (lat (center opts)))).
  set (clon := CNumber (Num (lng (center opts)))).
  pose proof (setPrecision_range (radius opts)) as Hp.
  set (p := setPrecision (radius opts)) in *.
  set (c := join (chars (encode_final clat clon p))).
  assert (Hlen : String.length c = Z.to_nat p) by apply encode_length.
  assert (Halpha : over_alphabet c) by apply encode_final_over_alphabet.
  destruct (neighbors_reached c)
    as (n & ne & e & se & s & sw & w & nw & E
        & (L0 & A0 & _) & (L1 & A1 & _) & (L2 & A2 & _) & (L3 & A3 & _)
        & (L4 & A4 & _) & (L5 & A5 & _) & (L6 & A6 & _) & (L7 & A7 & _)).
  exists c, n, ne, e, se, s, sw, w, nw.
  split; [apply encode_Chars|]. split; [exact E|].
  split.
  - unfold area. fold clat clon p. rewrite encode_Chars. cbn [bind].
    rewrite (encode_final_prefix clat clon p geohashLength)
      by (unfold geohashLength; lia).
    fold c. rewrite E. reflexivity.
  - split; [|exact Hp].
    repeat (apply Forall_cons; [split; [congruence | assumption]|]).
    apply Forall_nil.
Qed.

(** X14.  When its queries resolve, the candidates of a search are the
    records of the documents the queries return, in the order of the cells
    and, for each cell, in the order of the store. *)
Theorem search_candidates (fsQuery : FirestoreQuery) (opts : GeoSearchOptions)
  (cells : list string) (answers : list (list QueryDocumentSnapshot)) :
  area opts = Normal cells ->
  Forall2 (fun c docs => fsQuery (queryByGeohash c (field opts)) = Normal docs)
    cells answers ->
  reduced fsQuery opts = Normal (snapToData (List.concat answers)).
Proof.
  intros Harea Hall. unfold reduced. rewrite Harea. cbn [bind].
  assert (Hq : Promise_all
                 (map (fun hash =>
                         snap <- fsQuery (queryByGeohash hash (field opts)) ;;
                         ret (snapToData snap)) cells)
               = Normal (map snapToData answers)).
  { apply Promise_all_Normal.
    clear Harea.
    induction Hall as [|c docs cells answers Hc _ IH]; cbn [map];
      [constructor | constructor; [rewrite Hc; reflexivity | exact IH]]. }
  rewrite Hq. cbn [bind ret]. rewrite fold_left_app_concat. cbn [app].
  unfold snapToData. rewrite concat_map. reflexivity.
Qed.

End Cells.

(** The candidates of the search on the sample centre, for a store with two
    documents in the centre cell. *)
Lemma search_candidates_witness :
  @reduced sample_host (store_of [near; farther]) sample_options
  = Normal (snapToData [near; farther]).
Proof.
  apply (@search_candidates sample_host (store_of [near; farther])
           sample_options
           ["ebpbp"; "s0000"; "kpbpb"; "kpbp8"; "7zzzx"; "7zzzw"; "7zzzy";
            "ebpbn"; "7zzzz"]%string
           [[]; []; []; []; []; []; []; []; [near; farther]]).
  - vm_compute. reflexivity.
  - repeat (apply Forall2_cons; [reflexivity|]). apply Forall2_nil.
Defined.

Section Outcome.
Context {host : Host}.
Variable distance : value * value -> value * value -> number.

(** X15.  When one of its queries rejects, the search rejects, with the
    rejection of one of its queries: it returns no partial result. *)
Theorem search_rejected (fsQuery : FirestoreQuery) (opts : GeoSearchOptions)
  (cells : list string) (c : string) (e : exn) :
  area opts = Normal cells ->
  In c cells ->
  fsQuery (queryByGeohash c (field opts)) = Throw e ->
  exists (c' : string) (e' : exn),
    In c' cells
    /\ fsQuery (queryByGeohash c' (field opts)) = Throw e'
    /\ performSearch distance fsQuery opts = Throw e'.
Proof.
  intros Harea Hin Hc. unfold performSearch, reduced. rewrite Harea.
  cbn [bind].
  set (ask := fun hash =>
                snap <- fsQuery (queryByGeohash hash (field opts)) ;;
                ret (snapToData snap)).
  destruct (Promise_all_Throw (map ask cells) e) as (e' & Hin' & ->).
  { apply in_map_iff. exists c. split; [|exact Hin].
    unfold ask. rewrite Hc. reflexivity. }
  apply in_map_iff in Hin' as (c' & Hc' & Hin').
  exists c', e'. split; [exact Hin'|]. split; [|reflexivity].
  unfold ask in Hc'.
  destruct (fsQuery (queryByGeohash c' (field opts))); [discriminate Hc'|].
  cbn [bind] in Hc'. congruence.
Qed.

(** X16.  Every record a search returns is the record of a document that
    one of its queries returned. *)
Theorem search_results_from_queries (fsQuery : FirestoreQuery)
  (opts : GeoSearchOptions) (cells : list string)
  (out : list GeoSearchResult) (r : GeoSearchResult) :
  area opts = Normal cells ->
  performSearch distance fsQuery opts = Normal out ->
  In r out ->
  exists (c : string) (docs : list QueryDocumentSnapshot)
         (d : QueryDocumentSnapshot),
    In c cells
    /\ fsQuery (queryByGeohash c (field opts)) = Normal docs
    /\ In d docs
    /\ val r = record_of d.
Proof.
  intros Harea Hsearch Hin. unfold performSearch in Hsearch.
  apply bind_Normal in Hsearch as (arr & Hred & Hsel).
  pose proof (reduced_objects opts fsQuery arr Hred) as Hobj.
  pose proof (select_returns distance opts arr out Hsel) as Hread.
  destruct (select_spec distance opts arr Hobj Hread)
    as (tagged & Hsel' & Htag & _).
  rewrite Hsel in Hsel'. injection Hsel' as ->.
  apply in_map_iff in Hin as ([p r'] & <- & Hin). cbn [snd].
  destruct (Htag p r' Hin) as [Hnth _]. apply nth_error_In in Hnth.
  unfold reduced in Hred. rewrite Harea in Hred. cbn [bind] in Hred.
  apply bind_Normal in Hred as (queries & Hall & Hred).
  injection Hred as <-. rewrite fold_left_app_concat in Hnth.
  cbn [app] in Hnth. apply in_concat in Hnth as (recs & Hrecs & Hrec).
  apply Promise_all_Normal in Hall.
  clear - Hall Hrecs Hrec.
  remember (map _ cells) as asks eqn:Easks. revert cells Easks.
  induction Hall as [|ask recs0 asks queries Hask _ IH]; intros cells Easks;
    [destruct Hrecs|].
  destruct cells as [|c cells]; [discriminate Easks|].
  cbn [map] in Easks. injection Easks as -> ->.
  destruct Hrecs as [-> | Hrecs].
  - destruct (fsQuery (queryByGeohash c (field opts))) as [docs|] eqn:Hq;
      [|discriminate Hask].
    cbn [bind ret] in Hask. injection Hask as <-.
    unfold snapToData in Hrec. apply in_map_iff in Hrec as (d & <- & Hd).
    exists c, docs, d. split; [left; reflexivity|].
    split; [exact Hq|]. split; [exact Hd | reflexivity].
  - destruct (IH Hrecs cells eq_refl) as (c' & docs & d & H1 & H2 & H3 & H4).
    exists c', docs, d. split; [right; exact H1|].
    split; [exact H2|]. split; [exact H3 | exact H4].
Qed.

End Outcome.

(** A store that is not available. *)
Lemma search_rejected_witness :
  exists (c' : string) (e' : exn),
    In c' ["ebpbp"; "s0000"; "kpbpb"; "kpbp8"; "7zzzx"; "7zzzw"; "7zzzy";
           "ebpbn"; "7zzzz"]%string
    /\ Throw (A := list QueryDocumentSnapshot) (Error "unavailable") = Throw e'
    /\ @performSearch sample_host sample_distance
         (fun _ => Throw (Error "unavailable")) sample_options = Throw e'.
Proof.
  apply (@search_rejected sample_host sample_distance
           (fun _ => Throw (Error "unavailable")) sample_options
           ["ebpbp"; "s0000"; "kpbpb"; "kpbp8"; "7zzzx"; "7zzzw"; "7zzzy";
            "ebpbn"; "7zzzz"]%string "7zzzz" (Error "unavailable")).
  - vm_compute. reflexivity.
  - do 8 right. left. reflexivity.
  - reflexivity.
Defined.

(** The closest record of the sample search comes from the query of the
    centre cell. *)
Lemma search_results_from_queries_witness :
  exists (c : string) (docs : list QueryDocumentSnapshot)
         (d : QueryDocumentSnapshot),
    In c ["ebpbp"; "s0000"; "kpbpb"; "kpbp8"; "7zzzx"; "7zzzw"; "7zzzy";
          "ebpbn"; "7zzzz"]%string
    /\ store_of [near; farther] (queryByGeohash c "location") = Normal docs
    /\ In d docs
    /\ record_of near = record_of d.
Proof.
  apply (@search_results_from_queries sample_host sample_distance
           (store_of [near; farther]) sample_options
           ["ebpbp"; "s0000"; "kpbpb"; "kpbp8"; "7zzzx"; "7zzzw"; "7zzzy";
            "ebpbn"; "7zzzz"]%string
           [ {| val := record_of near; geoMetadata_distance := Num (1 # 2) |};
             {| val := record_of farther; geoMetadata_distance := Num 2 |} ]
           {| val := record_of near; geoMetadata_distance := Num (1 # 2) |}).
  - vm_compute. reflexivity.
  - vm_compute. reflexivity.
  - left. reflexivity.
Defined.

(** ** The records of the documents *)

Lemma lookup_assign (k k' : string) (v : value)
  (props : list (string * value)) :
  lookup k (assign props k' v)
  = if String.eqb k' k then v else lookup k props.
Proof.
  induction props as [|[k0 v0] props IH]; cbn [assign lookup].
  - reflexivity.
  - destruct (String.eqb k0 k') eqn:E0; cbn [lookup].
    + apply String.eqb_eq in E0. subst k0.
      destruct (String.eqb k' k); reflexivity.
    + rewrite IH. destruct (String.eqb k0 k) eqn:E1; [|reflexivity].
      apply String.eqb_eq in E1. subst k0. rewrite String.eqb_sym, E0.
      reflexivity.
Qed.

Lemma has_key_In (k : string) (props : list (string * value)) :
  has_key k props = true <-> In k (map fst props).
Proof.
  unfold has_key. rewrite existsb_exists, in_map_iff.
  split; intros ([k0 v0] & H1 & H2); exists (k0, v0); cbn [fst] in *.
  - apply String.eqb_eq in H2. auto.
  - subst k0. split; [exact H2 | apply String.eqb_refl].
Qed.

Lemma lookup_spread (k : string) (a b : list (string * value)) :
  NoDup (map fst b) ->
  lookup k (spread a b) = if has_key k b then lookup k b else lookup k a.
Proof.
  unfold spread. revert a.
  induction b as [|[k1 v1] b IH]; intros a Hb; [reflexivity|].
  cbn [map fst] in Hb. inversion Hb as [|? ? Hk1 Hb']; subst.
  cbn [fold_left fst snd]. rewrite (IH _ Hb'), lookup_assign.
  unfold has_key at 2. cbn [existsb fst lookup]. fold (has_key k b).
  destruct (String.eqb k1 k) eqn:E; cbn [orb]; [|reflexivity].
  apply String.eqb_eq in E. subst k1.
  destruct (has_key k b) eqn:Hk; [|reflexivity].
  apply has_key_In in Hk. contradiction.
Qed.

Lemma hasOwn_assign (k k' : string) (v : value)
  (props : list (string * value)) :
  hasOwn k (assign props k' v) = hasOwn k props || String.eqb k' k.
Proof.
  unfold hasOwn. induction props as [|[k0 v0] props IH];
    cbn [assign existsb fst].
  - apply orb_false_r.
  - destruct (String.eqb k0 k') eqn:E0; cbn [existsb fst].
    + apply String.eqb_eq in E0. subst k0.
      destruct (String.eqb k' k); cbn [orb]; [reflexivity|].
      symmetry. apply orb_false_r.
    + rewrite IH. apply orb_assoc.
Qed.

Lemma hasOwn_spread (k : string) (a b : list (string * value)) :
  hasOwn k (spread a b) = hasOwn k a || hasOwn k b.
Proof.
  unfold spread. revert a.
  induction b as [|[k1 v1] b IH]; intros a; cbn [fold_left fst snd].
  - symmetry. apply orb_false_r.
  - rewrite IH, hasOwn_assign. unfold hasOwn at 4. cbn [existsb fst].
    fold (hasOwn k b). rewrite orb_assoc. reflexivity.
Qed.

Lemma lookup_absent (k : string) (props : list (string * value)) :
  has_key k props = false -> lookup k props = VUndefined.
Proof. exact (lookup_not_own k props). Qed.

(** The own properties of a record other than [id] are those of the
    document's data. *)
Lemma lookup_record (d : QueryDocumentSnapshot) (key : string) :
  NoDup (map fst (snap_data d)) -> key <> "id"%string ->
  lookup key (spread [("id"%string, VString (snap_id d))] (snap_data d))
  = lookup key (snap_data d)
  /\ hasOwn key (spread [("id"%string, VString (snap_id d))] (snap_data d))
     = hasOwn key (snap_data d).
Proof.
  intros Hkeys Hkey.
  assert (Hid : String.eqb "id" key = false).
  { destruct (String.eqb "id" key) eqn:Ek; [|reflexivity].
    apply String.eqb_eq in Ek. congruence. }
  split.
  - rewrite (lookup_spread _ _ _ Hkeys).
    destruct (has_key key (snap_data d)) eqn:E; [reflexivity|].
    cbn [lookup]. rewrite Hid. symmetry. apply lookup_absent. exact E.
  - rewrite hasOwn_spread. unfold hasOwn at 1. cbn [existsb fst].
    rewrite Hid. reflexivity.
Qed.

(** Reading a property other than [id] on a record is reading it on the
    document's data. *)
Lemma get_record (d : QueryDocumentSnapshot) (key : string) :
  NoDup (map fst (snap_data d)) -> key <> "id"%string ->
  get (record_of d) key = get (VObject 0 (snap_data d)) key.
Proof.
  intros Hkeys Hkey. unfold record_of. cbn [get].
  destruct (lookup_record d key Hkeys Hkey) as [-> ->]. reflexivity.
Qed.

(** X17.  [snapToData] gives one record for each document, in order; the
    record has the fields of the document's data, and the document
    identifier as [id] unless the data has an [id] field of its own, which
    then takes its place; reading any other property on the record gives
    what reading it on the data gives. *)
Theorem snapToData_records (docs : list QueryDocumentSnapshot) (i : nat)
  (d : QueryDocumentSnapshot) :
  nth_error docs i = Some d ->
  NoDup (map fst (snap_data d)) ->
  List.length (snapToData docs) = List.length docs
  /\ exists (r : nat) (props : list (string * value)),
       nth_error (snapToData docs) i = Some (VObject r props)
       /\ get (VObject r props) "id"
          = Normal (if has_key "id" (snap_data d)
                    then lookup "id" (snap_data d)
                    else VString (snap_id d))
       /\ forall k : string,
            k <> "id"%string ->
            lookup k props = lookup k (snap_data d)
            /\ get (VObject r props) k = get (VObject 0 (snap_data d)) k.
Proof.
  intros Hd Hkeys. unfold snapToData. split; [apply length_map|].
  do 2 eexists. split; [rewrite nth_error_map, Hd; reflexivity|].
  split.
  - rewrite get_object_plain by reflexivity.
    rewrite (lookup_spread _ _ _ Hkeys). reflexivity.
  - intros k Hk. split.
    + exact (proj1 (lookup_record d k Hkeys Hk)).
    + exact (get_record d k Hkeys Hk).
Qed.

(** A document whose data has its own [id]: the record has that one. *)
Lemma snapToData_records_witness :
  List.length (snapToData [near; own_id]) = 2%nat
  /\ exists (r : nat) (props : list (string * value)),
       nth_error (snapToData [near; own_id]) 1 = Some (VObject r props)
       /\ get (VObject r props) "id" = Normal (VString "mine")
       /\ forall k : string,
            k <> "id"%string ->
            lookup k props = lookup k (snap_data own_id)
            /\ get (VObject r props) k = get (VObject 0 (snap_data own_id)) k.
Proof.
  apply (snapToData_records [near; own_id] 1 own_id).
  - reflexivity.
  - cbn [own_id snap_data map fst].
    repeat (apply NoDup_cons; [cbn [In]; intuition discriminate|]).
    apply NoDup_nil.
Defined.

(** ** Nested keys *)

Lemma strict_equals_undefined (v : value) :
  strict_equals v VUndefined = true <-> v = VUndefined.
Proof.
  destruct v as [| |b|[|q]|s|r props|f|]; cbn [strict_equals];
    split; intros H; try reflexivity; discriminate H.
Qed.

(** The guard of [getNestedKey] lets plain objects and [Object.prototype]
    through, and nothing else. *)
Lemma guard_spec (obj : value) :
  falsy obj || negb (typeof_object obj)
  = match obj with
    | VObject _ _ | VObjectPrototype => false
    | _ => true
    end.
Proof.
  destruct obj as [| |b|[|q]|s|r props|f|];
    cbn [falsy typeof_object negb orb]; rewrite ?orb_true_r; reflexivity.
Qed.

Lemma getNestedKey_loop_safe (pList : list string) (obj fallbackVal : value) :
  exists v : value,
    getNestedKey_loop obj pList fallbackVal = Normal v
    /\ (v = VUndefined -> fallbackVal = VUndefined).
Proof.
  revert obj. induction pList as [|key rest IH]; intros obj;
    cbn [getNestedKey_loop].
  - destruct (strict_equals obj VUndefined) eqn:E.
    + exists fallbackVal. split; [reflexivity | auto].
    + exists obj. split; [reflexivity|]. intros ->. discriminate E.
  - rewrite guard_spec.
    destruct obj as [| |b|n|s|r props|f|];
      try (exists fallbackVal; split; [reflexivity | auto]; fail);
      cbn [get bind]; apply IH.
Qed.

(** X18.  [getNestedKey] never throws, whatever the value and the path, and
    it returns [undefined] only when the fallback is [undefined]. *)
Theorem getNestedKey_safe (obj : value) (path : string) (fallbackVal : value) :
  exists v : value,
    getNestedKey obj path fallbackVal = Normal v
    /\ (v = VUndefined -> fallbackVal = VUndefined).
Proof. apply getNestedKey_loop_safe. Qed.


Lemma split_dotted (sep : ascii) (key rest : string) :
  includes key sep = false ->
  split sep (key ++ String sep rest) = key :: split sep rest.
Proof.
  induction key as [|c key IH]; cbn [includes split append].
  - intros _. rewrite Ascii.eqb_refl. reflexivity.
  - intros H. apply orb_false_iff in H as [Hc Hs].
    rewrite Hc, (IH Hs). reflexivity.
Qed.


Lemma getNestedKey_dotted (obj : value) (key rest : string)
  (fallbackVal : value) :
  includes key "." = false ->
  getNestedKey obj (key ++ String "." rest) fallbackVal
  = match obj with
    | VObject _ _ | VObjectPrototype =>
        v <- get obj key ;; getNestedKey v rest fallbackVal
    | _ => Normal fallbackVal
    end.
Proof.
  intros Hkey. unfold getNestedKey. rewrite (split_dotted _ _ rest Hkey).
  cbn [getNestedKey_loop]. rewrite guard_spec.
  destruct obj as [| |b|n|s|r props|f|]; reflexivity.
Qed.



(** ** The geo point of a record *)

Lemma includes_dotted (key rest : string) :
  includes (key ++ String "." rest) "." = true.
Proof.
  induction key as [|c key IH]; cbn [append includes].
  - reflexivity.
  - rewrite IH. apply orb_true_r.
Qed.

(** X20.  The geo point the search reads for the record of a document is
    the [geopoint] of what the field name reads on the document's data;
    with a dotted path, the path after the first name is followed from
    there with [getNestedKey], and [geopoint] is read on the result, which
    throws when a step is missing.  Stated for a first name other than
    [id] and without a dot. *)
Theorem getGeoPoint_record (d : QueryDocumentSnapshot) (key : string) :
  NoDup (map fst (snap_data d)) ->
  key <> "id"%string ->
  includes key "." = false ->
  getGeoPoint (record_of d) key
  = (data <- get (VObject 0 (snap_data d)) key ;; get data "geopoint")
  /\ forall rest : string,
       getGeoPoint (record_of d) (key ++ String "." rest)
       = (field_value <- get (VObject 0 (snap_data d)) key ;;
          data <- getNestedKey field_value rest VUndefined ;;
          get data "geopoint").
Proof.
  intros Hkeys Hid Hkey. unfold getGeoPoint. split.
  - rewrite Hkey, (get_record d key Hkeys Hid). reflexivity.
  - intros rest. rewrite includes_dotted.
    rewrite (getNestedKey_dotted _ key rest VUndefined Hkey).
    unfold record_of at 1. rewrite <- (get_record d key Hkeys Hid).
    unfold record_of. cbn [get bind]. reflexivity.
Qed.

(** The field [location] of a sample document, and the inherited name
    [constructor], for which no geo point is found and nothing is
    thrown. *)
Lemma getGeoPoint_record_witness :
  (getGeoPoint (record_of near) "location"
   = (data <- get (VObject 0 (snap_data near)) "location" ;;
      get data "geopoint")
   /\ forall rest : string,
        getGeoPoint (record_of near) ("location" ++ String "." rest)
        = (field_value <- get (VObject 0 (snap_data near)) "location" ;;
           data <- getNestedKey field_value rest VUndefined ;;
           get data "geopoint"))
  /\ getGeoPoint (record_of near) "constructor" = Normal VUndefined.
Proof.
  assert (Hkeys : NoDup (map fst (snap_data near))).
  { cbn [near sample_doc snap_data map fst].
    apply NoDup_cons; [cbn [In]; intuition | apply NoDup_nil]. }
  split.
  - apply (getGeoPoint_record near "location" Hkeys);
      [discriminate | reflexivity].
  - destruct (getGeoPoint_record near "constructor" Hkeys) as [-> _];
      [discriminate | reflexivity | reflexivity].
Defined.

End SearchMore.
